(** * Pebble: memtable and level iterator

    A shallow embedding of [memTable] (mem_table.go) and [levelIter]
    (level_iter.go) of the pebble storage engine, with the properties
    that the design document states about them.

    Conventions.
    - Go's fixed-width integers are [Z] with the wrap-around written out
      ([wrap32], [wrap64], [int32]).
    - [[]byte] user keys and values are [string]; a nil-able value is
      [option string].
    - [error] values are [option error], [None] being Go's [nil].
    - A Go function that can panic or loop returns an [outcome]. *)

From Stdlib Require Import ZArith List String Ascii Bool Lia Sorted OrderedTypeEx.
Import ListNotations.
Local Open Scope Z_scope.

(** ** Machine integers *)

Definition wrap32 (x : Z) : Z := x mod 2 ^ 32.
Definition wrap64 (x : Z) : Z := x mod 2 ^ 64.
(** Two's complement reading of a 32-bit word ([int32]). *)
Definition int32 (x : Z) : Z := (x + 2 ^ 31) mod 2 ^ 32 - 2 ^ 31.

(** ** Errors and outcomes *)

Inductive error : Type :=
| ErrNotFound                 (* db.ErrNotFound *)
| ErrArenaFull                (* arenaskl.ErrArenaFull *)
| ErrRecordExists             (* arenaskl.ErrRecordExists *)
| ErrIO (msg : string).       (* any error passed through from a file iterator *)

Inductive outcome (A : Type) : Type :=
| Ret (a : A)                 (* normal return *)
| Panic (msg : string)        (* panic(...), nil dereference, index out of range *)
| Diverge.                    (* the loop did not finish within the fuel given *)
Arguments Ret {A} a.
Arguments Panic {A} msg.
Arguments Diverge {A}.

Definition bind {A B} (o : outcome A) (k : A -> outcome B) : outcome B :=
  match o with
  | Ret a => k a
  | Panic s => Panic s
  | Diverge => Diverge
  end.

Notation "x <- o ;; k" := (bind o (fun x => k))
  (at level 61, o at next level, right associativity).
Notation "' p <- o ;; k" := (bind o (fun x => match x with p => k end))
  (at level 61, p pattern, o at next level, right associativity).

(** ** db.Comparer *)

(** The caller-supplied order on user keys.  [Compare] returns a negative
    number, zero or a positive number; [Equal] agrees with [Compare = 0]. *)
Class Comparer : Type := {
  Compare : string -> string -> Z;
  Equal : string -> string -> bool;
  Equal_iff : forall a b, Equal a b = true <-> Compare a b = 0;
  Compare_antisym : forall a b, Z.sgn (Compare b a) = - Z.sgn (Compare a b);
  Compare_trans : forall a b c,
      Compare a b <= 0 -> Compare b c <= 0 -> Compare a c <= 0
}.

(** bytes.Compare / bytes.Equal, the default comparer. *)
Definition bytesCompare (a b : string) : Z :=
  match String.compare a b with
  | Lt => -1
  | Eq => 0
  | Gt => 1
  end.

(** ** db.InternalKey *)

(** Modelled from the spec: the kinds of package db (db/internal.go is not
    among the sources); the values are the ones of the on-disk format. *)
Definition InternalKeyKindDelete : Z := 0.
Definition InternalKeyKindSet : Z := 1.
Definition InternalKeyKindMerge : Z := 2.
Definition InternalKeyKindRangeDelete : Z := 15.

(** Modelled from the spec: the largest sequence number, 2^56 - 1. *)
Definition InternalKeySeqNumMax : Z := 2 ^ 56 - 1.

(** Modelled from the spec: the range-delete sentinel trailer,
    [(2^56 - 1) << 8 | RANGEDEL]. *)
Definition InternalKeyRangeDeleteSentinel : Z :=
  Z.lor (Z.shiftl InternalKeySeqNumMax 8) InternalKeyKindRangeDelete.

(** Modelled from the spec: db.InternalKey, a user key and the packed
    64-bit trailer [(seq_num << 8) | kind]. *)
Record InternalKey : Type := {
  UserKey : string;
  Trailer : Z
}.

(** Modelled from the spec: db.MakeInternalKey; the shift is a uint64 shift. *)
Definition MakeInternalKey (userKey : string) (seqNum kind : Z) : InternalKey :=
  {| UserKey := userKey; Trailer := Z.lor (wrap64 (Z.shiftl seqNum 8)) kind |}.

(** Modelled from the spec: the low 8 bits of the trailer. *)
Definition Kind (k : InternalKey) : Z := Z.land (Trailer k) 255.

(** Modelled from the spec: the high 56 bits of the trailer. *)
Definition SeqNum (k : InternalKey) : Z := Z.shiftr (Trailer k) 8.

(** Modelled from the spec: the key that [levelIter.Key] returns when it is
    not positioned (kind 255 is no kind of an entry). *)
Definition InvalidInternalKey : InternalKey := {| UserKey := ""; Trailer := 255 |}.

(** Modelled from the spec: db.InternalCompare, ascending by user key and
    then descending by trailer. *)
Definition InternalCompare {C : Comparer} (a b : InternalKey) : Z :=
  let x := Compare (UserKey a) (UserKey b) in
  if negb (x =? 0) then x
  else if Trailer a <? Trailer b then 1
  else if Trailer b <? Trailer a then -1
  else 0.

Definition ikey_lt {C : Comparer} (a b : InternalKey) : Prop := InternalCompare a b < 0.

(** Modelled from the spec: rangedel.Tombstone, [(start, seq, RANGEDEL) -> end]. *)
Record Tombstone : Type := {
  Start : InternalKey;
  End_ : string
}.

(** ** The arena skiplist (package arenaskl) *)

Module arenaskl.

(** Modelled from the spec: the bump arena; [n] bytes of [buf_len] are in use. *)
Record Arena : Type := {
  n : Z;
  buf_len : Z
}.
Definition Size (a : Arena) : Z := n a.
Definition Capacity (a : Arena) : Z := buf_len a.

(** Modelled from the spec: the ordered map of the skiplist, as the list of
    its entries in internal-key order. *)
Definition Skiplist : Type := list (InternalKey * string).

Definition sorted {C : Comparer} (s : Skiplist) : Prop :=
  StronglySorted ikey_lt (map fst s).

Section Ops.
Context {C : Comparer}.
(** arenaskl.MaxNodeSize, the footprint of a node for (key length, value length). *)
Variable MaxNodeSize : Z -> Z -> Z.

(** The place of a new key; [None] when the key is in the list already. *)
Fixpoint insert (key : InternalKey) (value : string) (s : Skiplist) : option Skiplist :=
  match s with
  | [] => Some [(key, value)]
  | (k, v) :: rest =>
      let c := InternalCompare key k in
      if c <? 0 then Some ((key, value) :: s)
      else if c =? 0 then None
      else option_map (cons (k, v)) (insert key value rest)
  end.

(** Modelled from the spec: Skiplist.Add.  A duplicate internal key fails
    with ErrRecordExists, an exhausted arena with ErrArenaFull; a failed Add
    stores nothing. *)
Definition Add (s : Skiplist) (a : Arena) (key : InternalKey) (value : string)
  : Skiplist * Arena * option error :=
  match insert key value s with
  | None => (s, a, Some ErrRecordExists)
  | Some s' =>
      let need :=
        MaxNodeSize (Z.of_nat (String.length (UserKey key)) + 8)
                    (Z.of_nat (String.length value)) in
      if Capacity a <? Size a + need then (s, a, Some ErrArenaFull)
      else (s', {| n := Size a + need; buf_len := buf_len a |}, None)
  end.

(** Modelled from the spec: the cursor of the skiplist. [nd] is the index of
    the current entry, the length of the list when the cursor is at the tail. *)
Record Iterator : Type := {
  list_ : Skiplist;
  nd : nat
}.

Definition NewIter (s : Skiplist) : Iterator := {| list_ := s; nd := List.length s |}.

(** Index of the first entry whose user key is not below [key]. *)
Fixpoint seek (key : string) (s : Skiplist) : nat :=
  match s with
  | [] => O
  | (k, _) :: rest => if 0 <=? Compare (UserKey k) key then O else S (seek key rest)
  end.

(** Modelled from the spec: Iterator.SeekGE moves to the first entry of the
    given user key or a later one, that is to the smallest internal key of
    that user key when it has entries. *)
Definition SeekGE (it : Iterator) (key : string) : Iterator * bool :=
  let i := seek key (list_ it) in
  ({| list_ := list_ it; nd := i |}, (i <? List.length (list_ it))%nat).

Definition Key (it : Iterator) : InternalKey :=
  nth (nd it) (map fst (list_ it)) InvalidInternalKey.

Definition Value (it : Iterator) : option string :=
  nth_error (map snd (list_ it)) (nd it).

End Ops.
End arenaskl.

(** ** Batch *)

(** Modelled from the spec: a batch exposes the stream of its entries
    (kind, user key, value), the count of its header and the precomputed
    sum of worst-case footprints (batch.go is not among the sources). *)
Record Batch : Type := {
  entries : list (Z * string * string);
  count : Z;
  memTableSize : Z
}.

(** ** memTable (mem_table.go) *)

(** The struct.  The two skiplists share [arena]; [tombstones_vals] is the
    atomic pointer to the cached fragments, an index into [heap], the cells
    that hold published [[]rangedel.Tombstone] values.  The channel
    [flushedCh] carries no data and is left out. *)
Record memTable : Type := {
  skl : arenaskl.Skiplist;
  rangeDelSkl : arenaskl.Skiplist;
  arena : arenaskl.Arena;
  emptySize : Z;
  reserved : Z;
  refs : Z;
  tombstones_count : Z;
  tombstones_vals : option nat;
  heap : list (list Tombstone)
}.

Definition set_skl (m : memTable) (s : arenaskl.Skiplist) (a : arenaskl.Arena) : memTable :=
  {| skl := s; rangeDelSkl := rangeDelSkl m; arena := a; emptySize := emptySize m;
     reserved := reserved m; refs := refs m; tombstones_count := tombstones_count m;
     tombstones_vals := tombstones_vals m; heap := heap m |}.

Definition set_rangeDelSkl (m : memTable) (s : arenaskl.Skiplist) (a : arenaskl.Arena) : memTable :=
  {| skl := skl m; rangeDelSkl := s; arena := a; emptySize := emptySize m;
     reserved := reserved m; refs := refs m; tombstones_count := tombstones_count m;
     tombstones_vals := tombstones_vals m; heap := heap m |}.

Definition set_reserved (m : memTable) (r : Z) : memTable :=
  {| skl := skl m; rangeDelSkl := rangeDelSkl m; arena := arena m; emptySize := emptySize m;
     reserved := r; refs := refs m; tombstones_count := tombstones_count m;
     tombstones_vals := tombstones_vals m; heap := heap m |}.

Definition set_refs (m : memTable) (r : Z) : memTable :=
  {| skl := skl m; rangeDelSkl := rangeDelSkl m; arena := arena m; emptySize := emptySize m;
     reserved := reserved m; refs := r; tombstones_count := tombstones_count m;
     tombstones_vals := tombstones_vals m; heap := heap m |}.

Definition set_tombstones_count (m : memTable) (c : Z) : memTable :=
  {| skl := skl m; rangeDelSkl := rangeDelSkl m; arena := arena m; emptySize := emptySize m;
     reserved := reserved m; refs := refs m; tombstones_count := c;
     tombstones_vals := tombstones_vals m; heap := heap m |}.

Definition set_tombstones_vals (m : memTable) (p : option nat) : memTable :=
  {| skl := skl m; rangeDelSkl := rangeDelSkl m; arena := arena m; emptySize := emptySize m;
     reserved := reserved m; refs := refs m; tombstones_count := tombstones_count m;
     tombstones_vals := p; heap := heap m |}.

(** A new heap cell holding [ts]; its address is the old length of the heap. *)
Definition alloc (m : memTable) (ts : list Tombstone) : memTable :=
  {| skl := skl m; rangeDelSkl := rangeDelSkl m; arena := arena m; emptySize := emptySize m;
     reserved := reserved m; refs := refs m; tombstones_count := tombstones_count m;
     tombstones_vals := tombstones_vals m; heap := heap m ++ [ts] |}.

Definition deref (m : memTable) (p : nat) : list Tombstone := nth p (heap m) [].

Section MemTable.
Context {C : Comparer}.
Variable MaxNodeSize : Z -> Z -> Z.
(** rangedel.Fragmenter run over the entries of the range-del skiplist in
    order ([Add] on each, then [Finish]), with what it emits appended. *)
Variable fragment : arenaskl.Skiplist -> list Tombstone.

Definition memTableEntrySize (keyBytes valueBytes : Z) : Z :=
  MaxNodeSize (wrap32 (wrap32 keyBytes + 8)) (wrap32 valueBytes).

Definition ref (m : memTable) : memTable := set_refs m (int32 (refs m + 1)).

Definition unref (m : memTable) : outcome (memTable * bool) :=
  let v := int32 (refs m - 1) in
  let m := set_refs m v in
  if v <? 0 then Panic "pebble: inconsistent reference count"
  else if v =? 0 then Ret (m, true)
  else Ret (m, false).

Definition readyForFlush (m : memTable) : bool := refs m =? 0.

Definition get (m : memTable) (key : string) : option string * option error :=
  let it := arenaskl.NewIter (skl m) in
  let '(it, ok) := arenaskl.SeekGE it key in
  if negb ok then (None, Some ErrNotFound)
  else
    let ikey := arenaskl.Key it in
    if negb (Equal key (UserKey ikey)) then (None, Some ErrNotFound)
    else if Kind ikey =? InternalKeyKindDelete then (None, Some ErrNotFound)
    else (arenaskl.Value it, None).

Definition prepare (m : memTable) (batch : Batch) : memTable * option error :=
  let a := arena m in
  let m := if refs m =? 1 then set_reserved m (arenaskl.Size a) else m in
  let avail := wrap32 (arenaskl.Capacity a - reserved m) in
  if avail <? memTableSize batch then (m, Some ErrArenaFull)
  else
    let m := set_reserved m (wrap32 (reserved m + memTableSize batch)) in
    (ref m, None).

(** One iteration of the loop of [apply]: the insert of one entry. *)
Definition apply_entry (m : memTable) (seqNum : Z) (e : Z * string * string)
  : memTable * option error :=
  let '(kind, ukey, value) := e in
  let ikey := MakeInternalKey ukey seqNum kind in
  if kind =? InternalKeyKindRangeDelete then
    let '(s, a, err) := arenaskl.Add MaxNodeSize (rangeDelSkl m) (arena m) ikey value in
    let m := set_rangeDelSkl m s a in
    let m := set_tombstones_count m (wrap32 (tombstones_count m + 1)) in
    let m := set_tombstones_vals m None in
    (m, err)
  else
    let '(s, a, err) := arenaskl.Add MaxNodeSize (skl m) (arena m) ikey value in
    (set_skl m s a, err).

(** The loop of [apply]: it returns at the first failed insert, with the
    sequence number reached. *)
Fixpoint apply_loop (m : memTable) (es : list (Z * string * string)) (seqNum : Z)
  : memTable * Z * option error :=
  match es with
  | [] => (m, seqNum, None)
  | e :: rest =>
      let '(m', err) := apply_entry m seqNum e in
      match err with
      | Some _ => (m', seqNum, err)
      | None => apply_loop m' rest (wrap64 (seqNum + 1))
      end
  end.

Definition apply (m : memTable) (batch : Batch) (seqNum : Z)
  : outcome (memTable * option error) :=
  let startSeqNum := seqNum in
  let '(m', seqNum', err) := apply_loop m (entries batch) seqNum in
  match err with
  | Some _ => Ret (m', err)
  | None =>
      if negb (seqNum' =? wrap64 (startSeqNum + count batch))
      then Panic "pebble: inconsistent batch count"
      else Ret (m', None)
  end.

(** The test-only [set] (mem_table_test.go). *)
Definition set (m : memTable) (key : InternalKey) (value : string)
  : memTable * option error :=
  if Kind key =? InternalKeyKindRangeDelete then
    let '(s, a, err) := arenaskl.Add MaxNodeSize (rangeDelSkl m) (arena m) key value in
    let m := set_rangeDelSkl m s a in
    match err with
    | Some _ => (m, err)
    | None =>
        let m := set_tombstones_count m (wrap32 (tombstones_count m + 1)) in
        (set_tombstones_vals m None, None)
    end
  else
    let '(s, a, err) := arenaskl.Add MaxNodeSize (skl m) (arena m) key value in
    (set_skl m s a, err).

Definition empty (m : memTable) : bool := arenaskl.Size (arena m) =? emptySize m.

(** *** newRangeDelIter

    The function reads and writes [tombstones.vals] with atomic operations
    while other goroutines run.  What they do to the memtable between two
    atomic accesses of this goroutine is an [interference]; a [schedule]
    gives the interference after the first load of the pointer and, for each
    turn of the publication loop, before its load and before its
    compare-and-swap.  The empty schedule is a run without other goroutines. *)
Definition interference : Type := memTable -> memTable.

Record schedule : Type := {
  after_first_load : interference;
  in_loop : list (interference * interference)
}.

Definition alone : schedule := {| after_first_load := fun m => m; in_loop := [] |}.

Definition ptr_eqb (p q : option nat) : bool :=
  match p, q with
  | None, None => true
  | Some a, Some b => Nat.eqb a b
  | _, _ => false
  end.

(** One turn of the loop; the flag is false when the compare-and-swap lost
    and the loop goes round again.  [oldTombstones] is read through
    [tombstonesPtr], as the source does. *)
Definition publish_turn (tombstonesPtr : option nat) (tombstones : list Tombstone)
    (newPtr : nat) (before_cas : interference) (m : memTable)
  : outcome (memTable * bool) :=
  let oldPtr := tombstones_vals m in
  stop <- match oldPtr with
          | Some _ =>
              match tombstonesPtr with
              | None => Panic "nil pointer dereference"
              | Some p =>
                  let oldTombstones := deref m p in
                  Ret (List.length tombstones <? List.length oldTombstones)%nat
              end
          | None => Ret false
          end ;;
  if (stop : bool) then Ret (m, true)
  else
    let m := before_cas m in
    if ptr_eqb (tombstones_vals m) oldPtr
    then Ret (set_tombstones_vals m (Some newPtr), true)
    else Ret (m, false).

Fixpoint publish (tombstonesPtr : option nat) (tombstones : list Tombstone)
    (newPtr : nat) (turns : list (interference * interference)) (m : memTable)
  : outcome memTable :=
  match turns with
  | [] =>
      ' (m', done) <- publish_turn tombstonesPtr tombstones newPtr (fun m => m) m ;;
      if (done : bool) then Ret m' else Diverge
  | (before_load, before_cas) :: rest =>
      ' (m', done) <- publish_turn tombstonesPtr tombstones newPtr before_cas (before_load m) ;;
      if (done : bool) then Ret m' else publish tombstonesPtr tombstones newPtr rest m'
  end.

(** The iterator returned is modelled by the fragments it walks; [None] is
    the nil iterator.  A slice of fragments is nil exactly when it is empty
    (it is only ever built by appending to a nil slice), so [[]] stands for
    the nil slice. *)
Definition newRangeDelIter (sch : schedule) (m : memTable)
  : outcome (memTable * option (list Tombstone)) :=
  if tombstones_count m =? 0 then Ret (m, None)
  else
    let tombstonesPtr := tombstones_vals m in
    let tombstones := match tombstonesPtr with
                      | Some p => deref m p
                      | None => []
                      end in
    match tombstones with
    | _ :: _ => Ret (m, Some tombstones)
    | [] =>
        let m := after_first_load sch m in
        let tombstones := fragment (rangeDelSkl m) in
        let newPtr := List.length (heap m) in
        let m := alloc m tombstones in
        m' <- publish tombstonesPtr tombstones newPtr (in_loop sch) m ;;
        Ret (m', Some tombstones)
    end.

End MemTable.

(** ** The level iterator (level_iter.go) *)

(** Modelled from the spec: fileMetadata, [{file_num, smallest, largest}]
    (version_edit.go is not among the sources). *)
Record fileMetadata : Type := {
  fileNum : Z;
  smallest : InternalKey;
  largest : InternalKey
}.

(** Modelled from the spec: db.IterOptions, the user-key bounds.  The
    getters accept a nil receiver. *)
Record IterOptions : Type := {
  LowerBound : option string;
  UpperBound : option string
}.

Definition GetLowerBound (o : option IterOptions) : option string :=
  match o with
  | Some o => LowerBound o
  | None => None
  end.

Definition GetUpperBound (o : option IterOptions) : option string :=
  match o with
  | Some o => UpperBound o
  | None => None
  end.

(** Modelled from the spec: the internalIterator interface.  A method that
    moves the cursor returns the iterator after the call. *)
Class internalIterator (I : Type) : Type := {
  iSeekGE : I -> string -> I * bool;
  iSeekLT : I -> string -> I * bool;
  iFirst : I -> I * bool;
  iLast : I -> I * bool;
  iNext : I -> I * bool;
  iPrev : I -> I * bool;
  iKey : I -> InternalKey;
  iValue : I -> option string;
  iValid : I -> bool;
  iError : I -> option error;
  iClose : I -> I * option error
}.

(** sort.Search of Go's standard library: the binary search loop, with
    [h := int(uint(i+j) >> 1)].  The distance [j - i] bounds the number of
    turns. *)
Fixpoint search_loop (fuel : nat) (f : Z -> bool) (i j : Z) : Z :=
  match fuel with
  | O => i
  | S fuel' =>
      if i <? j then
        let h := Z.shiftr (i + j) 1 in
        if negb (f h) then search_loop fuel' f (h + 1) j
        else search_loop fuel' f i h
      else i
  end.

Definition Search (n : Z) (f : Z -> bool) : Z := search_loop (Z.to_nat n) f 0 n.

(** The struct.  [cmp] is the [Comparer] in scope and [newIters] the
    parameter of the section below.  [rangeDelIter] is the pointer to the
    caller's slot: [None] when no slot is installed, otherwise the content
    of the slot. *)
Record levelIter (I : Type) : Type := {
  opts : option IterOptions;
  index : Z;
  boundary : option InternalKey;
  iter : option I;
  rangeDelIter : option (option I);
  files : list fileMetadata;
  err : option error
}.
Arguments opts {I} l.
Arguments index {I} l.
Arguments boundary {I} l.
Arguments iter {I} l.
Arguments rangeDelIter {I} l.
Arguments files {I} l.
Arguments err {I} l.

Definition set_index {I} (l : levelIter I) (i : Z) : levelIter I :=
  {| opts := opts l; index := i; boundary := boundary l; iter := iter l;
     rangeDelIter := rangeDelIter l; files := files l; err := err l |}.

Definition set_boundary {I} (l : levelIter I) (b : option InternalKey) : levelIter I :=
  {| opts := opts l; index := index l; boundary := b; iter := iter l;
     rangeDelIter := rangeDelIter l; files := files l; err := err l |}.

Definition set_iter {I} (l : levelIter I) (it : option I) : levelIter I :=
  {| opts := opts l; index := index l; boundary := boundary l; iter := it;
     rangeDelIter := rangeDelIter l; files := files l; err := err l |}.

Definition set_err {I} (l : levelIter I) (e : option error) : levelIter I :=
  {| opts := opts l; index := index l; boundary := boundary l; iter := iter l;
     rangeDelIter := rangeDelIter l; files := files l; err := e |}.

(** [*l.rangeDelIter = t], when the pointer is not nil. *)
Definition store_rangeDelIter {I} (l : levelIter I) (t : option I) : levelIter I :=
  match rangeDelIter l with
  | Some _ =>
      {| opts := opts l; index := index l; boundary := boundary l; iter := iter l;
         rangeDelIter := Some t; files := files l; err := err l |}
  | None => l
  end.

Definition isSome {A} (o : option A) : bool :=
  match o with
  | Some _ => true
  | None => false
  end.

Definition zeroFile : fileMetadata :=
  {| fileNum := 0;
     smallest := {| UserKey := ""; Trailer := 0 |};
     largest := {| UserKey := ""; Trailer := 0 |} |}.

(** [l.files[i]], which panics out of range. *)
Definition file_at {I} (l : levelIter I) (i : Z) : outcome fileMetadata :=
  if (i <? 0) || (Z.of_nat (List.length (files l)) <=? i)
  then Panic "index out of range"
  else match nth_error (files l) (Z.to_nat i) with
       | Some f => Ret f
       | None => Panic "index out of range"
       end.

Section LevelIter.
Context {C : Comparer} {I : Type} {II : internalIterator I}.
Variable newIters : fileMetadata -> option IterOptions -> option I * option I * option error.

Definition init (l : levelIter I) (o : option IterOptions) (fs : list fileMetadata)
  : levelIter I :=
  {| opts := o; index := -1; boundary := boundary l; iter := iter l;
     rangeDelIter := rangeDelIter l; files := fs; err := err l |}.

Definition newLevelIter (o : option IterOptions) (fs : list fileMetadata) : levelIter I :=
  init {| opts := None; index := 0; boundary := None; iter := None;
          rangeDelIter := None; files := []; err := None |} o fs.

Definition initRangeDel (l : levelIter I) (slot : option (option I)) : levelIter I :=
  {| opts := opts l; index := index l; boundary := boundary l; iter := iter l;
     rangeDelIter := slot; files := files l; err := err l |}.

(** The predicate of the search in [findFileGE]; the search calls it inside
    the slice only. *)
Definition fileGE (l : levelIter I) (key : string) (i : Z) : bool :=
  let largest := largest (nth (Z.to_nat i) (files l) zeroFile) in
  let c := Compare (UserKey largest) key in
  if 0 <? c then true
  else (c =? 0) && negb (Trailer largest =? InternalKeyRangeDeleteSentinel).

Definition findFileGE (l : levelIter I) (key : string) : Z :=
  Search (Z.of_nat (List.length (files l))) (fileGE l key).

Definition findFileLT (l : levelIter I) (key : string) : Z :=
  let index :=
    Search (Z.of_nat (List.length (files l)))
           (fun i => 0 <=? Compare (UserKey (smallest (nth (Z.to_nat i) (files l) zeroFile))) key) in
  index - 1.

(** The [for ; ; index += dir] loop of [loadFile]; [idx] is its variable
    [index].  With [dir = 0] the loop of the source can spin for ever. *)
Fixpoint loadFile_loop (fuel : nat) (l : levelIter I) (idx dir : Z)
  : outcome (levelIter I * bool) :=
  match fuel with
  | O => Diverge
  | S fuel' =>
      let l := set_index l idx in
      if (index l <? 0) || (Z.of_nat (List.length (files l)) <=? index l) then Ret (l, false)
      else
        f <- file_at l (index l) ;;
        let below :=
          match GetLowerBound (opts l) with
          | Some lowerBound => Compare (UserKey (largest f)) lowerBound <? 0
          | None => false
          end in
        if below then
          if dir <? 0 then Ret (l, false) else loadFile_loop fuel' l (idx + dir) dir
        else
          let above :=
            match GetUpperBound (opts l) with
            | Some upperBound => 0 <=? Compare (UserKey (smallest f)) upperBound
            | None => false
            end in
          if above then
            if 0 <? dir then Ret (l, false) else loadFile_loop fuel' l (idx + dir) dir
          else
            let '(it, rangeDelIter, e) := newIters f (opts l) in
            let l := set_err (set_iter l it) e in
            if isSome e || negb (isSome it) then Ret (l, false)
            else Ret (store_rangeDelIter l rangeDelIter, true)
  end.

(** [l.err = l.iter.Close()]: the iterator stays in [l.iter], closed. *)
Definition closeIter (l : levelIter I) (it : I) : levelIter I :=
  let '(it', e) := iClose it in
  set_err (set_iter l (Some it')) e.

Definition loadFile (l : levelIter I) (idx dir : Z) : outcome (levelIter I * bool) :=
  let l := set_boundary l None in
  if index l =? idx then Ret (l, isSome (iter l))
  else
    let '(l, ok) :=
      match iter l with
      | Some it =>
          let l := closeIter l it in
          if isSome (err l) then (l, false) else (set_iter l None, true)
      | None => (l, true)
      end in
    if negb ok then Ret (l, false)
    else
      let l := store_rangeDelIter l None in
      loadFile_loop (S (List.length (files l))) l idx dir.

(** [l.iter.m()] for a method [m] that moves the cursor; a nil [l.iter]
    panics. *)
Definition callIter (m : I -> I * bool) (l : levelIter I) : outcome (levelIter I * bool) :=
  match iter l with
  | None => Panic "nil pointer dereference"
  | Some it => let '(it', ok) := m it in Ret (set_iter l (Some it'), ok)
  end.

(** The loop of [skipEmptyFileForward]; every turn but the first follows a
    [loadFile] that moved [index] up. *)
Fixpoint skipEmptyFileForward_loop (fuel : nat) (l : levelIter I)
  : outcome (levelIter I * bool) :=
  match fuel with
  | O => Diverge
  | S fuel' =>
      match iter l with
      | None => Panic "nil pointer dereference"
      | Some it =>
          let l := closeIter l it in
          if isSome (err l) then Ret (l, false)
          else
            let l := set_iter l None in
            atBoundary <-
              match rangeDelIter l with
              | Some _ =>
                  f <- file_at l (index l) ;;
                  if Kind (largest f) =? InternalKeyKindRangeDelete
                  then Ret (Some (largest f))
                  else Ret None
              | None => Ret None
              end ;;
            match atBoundary with
            | Some b => Ret (set_boundary l (Some b), true)
            | None =>
                let l := store_rangeDelIter l None in
                ' (l, ok) <- loadFile l (index l + 1) 1 ;;
                if negb ok then Ret (l, false)
                else
                  ' (l, valid) <- callIter iFirst l ;;
                  if valid then Ret (l, true) else skipEmptyFileForward_loop fuel' l
            end
      end
  end.

Definition skipEmptyFileForward (l : levelIter I) : outcome (levelIter I * bool) :=
  skipEmptyFileForward_loop (S (List.length (files l))) l.

Fixpoint skipEmptyFileBackward_loop (fuel : nat) (l : levelIter I)
  : outcome (levelIter I * bool) :=
  match fuel with
  | O => Diverge
  | S fuel' =>
      match iter l with
      | None => Panic "nil pointer dereference"
      | Some it =>
          let l := closeIter l it in
          if isSome (err l) then Ret (l, false)
          else
            let l := set_iter l None in
            atBoundary <-
              match rangeDelIter l with
              | Some _ =>
                  f <- file_at l (index l) ;;
                  if Kind (smallest f) =? InternalKeyKindRangeDelete
                  then Ret (Some (smallest f))
                  else Ret None
              | None => Ret None
              end ;;
            match atBoundary with
            | Some b => Ret (set_boundary l (Some b), true)
            | None =>
                let l := store_rangeDelIter l None in
                ' (l, ok) <- loadFile l (index l - 1) (-1) ;;
                if negb ok then Ret (l, false)
                else
                  ' (l, valid) <- callIter iLast l ;;
                  if valid then Ret (l, true) else skipEmptyFileBackward_loop fuel' l
            end
      end
  end.

Definition skipEmptyFileBackward (l : levelIter I) : outcome (levelIter I * bool) :=
  skipEmptyFileBackward_loop (S (List.length (files l))) l.

Definition SeekGE (l : levelIter I) (key : string) : outcome (levelIter I * bool) :=
  ' (l, ok) <- loadFile l (findFileGE l key) 1 ;;
  if negb ok then Ret (l, false)
  else
    ' (l, ok) <- callIter (fun it => iSeekGE it key) l ;;
    if ok then Ret (l, true) else skipEmptyFileForward l.

Definition SeekLT (l : levelIter I) (key : string) : outcome (levelIter I * bool) :=
  ' (l, ok) <- loadFile l (findFileLT l key) (-1) ;;
  if negb ok then Ret (l, false)
  else
    ' (l, ok) <- callIter (fun it => iSeekLT it key) l ;;
    if ok then Ret (l, true) else skipEmptyFileBackward l.

Definition First (l : levelIter I) : outcome (levelIter I * bool) :=
  ' (l, ok) <- loadFile l 0 1 ;;
  if negb ok then Ret (l, false)
  else
    ' (l, ok) <- callIter iFirst l ;;
    if ok then Ret (l, true) else skipEmptyFileForward l.

Definition Last (l : levelIter I) : outcome (levelIter I * bool) :=
  ' (l, ok) <- loadFile l (Z.of_nat (List.length (files l)) - 1) (-1) ;;
  if negb ok then Ret (l, false)
  else
    ' (l, ok) <- callIter iLast l ;;
    if ok then Ret (l, true) else skipEmptyFileBackward l.

Definition Next (l : levelIter I) : outcome (levelIter I * bool) :=
  if isSome (err l) then Ret (l, false)
  else
    match iter l with
    | None =>
        if isSome (boundary l) then
          ' (l, ok) <- loadFile l (index l + 1) 1 ;;
          if ok then
            ' (l, ok) <- callIter iFirst l ;;
            if ok then Ret (l, true) else skipEmptyFileForward l
          else Ret (l, false)
        else if index l =? -1 then
          ' (l, ok) <- loadFile l 0 1 ;;
          if ok then
            ' (l, ok) <- callIter iFirst l ;;
            if ok then Ret (l, true) else skipEmptyFileForward l
          else Ret (l, false)
        else Ret (l, false)
    | Some _ =>
        ' (l, ok) <- callIter iNext l ;;
        if ok then Ret (l, true) else skipEmptyFileForward l
    end.

Definition Prev (l : levelIter I) : outcome (levelIter I * bool) :=
  if isSome (err l) then Ret (l, false)
  else
    match iter l with
    | None =>
        if isSome (boundary l) then
          ' (l, ok) <- loadFile l (index l - 1) (-1) ;;
          if ok then
            ' (l, ok) <- callIter iLast l ;;
            if ok then Ret (l, true) else skipEmptyFileBackward l
          else Ret (l, false)
        else
          let n := Z.of_nat (List.length (files l)) in
          if index l =? n then
            ' (l, ok) <- loadFile l (n - 1) (-1) ;;
            if ok then
              ' (l, ok) <- callIter iLast l ;;
              if ok then Ret (l, true) else skipEmptyFileBackward l
            else Ret (l, false)
          else Ret (l, false)
    | Some _ =>
        ' (l, ok) <- callIter iPrev l ;;
        if ok then Ret (l, true) else skipEmptyFileBackward l
    end.

Definition Key (l : levelIter I) : InternalKey :=
  match iter l with
  | None =>
      match boundary l with
      | Some b => b
      | None => InvalidInternalKey
      end
  | Some it => iKey it
  end.

Definition Value (l : levelIter I) : option string :=
  match iter l with
  | None => None
  | Some it => iValue it
  end.

Definition Valid (l : levelIter I) : bool :=
  match iter l with
  | None => isSome (boundary l)
  | Some it => iValid it
  end.

Definition Error (l : levelIter I) : option error :=
  match iter l with
  | Some it => if isSome (err l) then err l else iError it
  | None => err l
  end.

Definition Close (l : levelIter I) : levelIter I * option error :=
  let l :=
    match iter l with
    | Some it => set_iter (closeIter l it) None
    | None => l
    end in
  let l :=
    match rangeDelIter l with
    | Some slot =>
        let l :=
          match slot with
          | Some t =>
              match snd (iClose t) with
              | Some e => if negb (isSome (err l)) then set_err l (Some e) else l
              | None => l
              end
          | None => l
          end in
        store_rangeDelIter l None
    | None => l
    end in
  (l, err l).

End LevelIter.

(** * The comparer

    The laws hold of the default comparer, and give the usual facts of an
    order. *)

Lemma bytesCompare_le (a b : string) :
  bytesCompare a b <= 0 <-> a = b \/ String_as_OT.lt a b.
Proof.
  unfold bytesCompare.
  destruct (String.compare a b) eqn:E.
  - apply String_as_OT.cmp_eq in E. split; [auto | lia].
  - apply String_as_OT.cmp_lt in E. split; [auto | lia].
  - split; [lia |].
    intros [H | H].
    + apply String_as_OT.cmp_eq in H. unfold String_as_OT.cmp in H. congruence.
    + apply String_as_OT.cmp_lt in H. unfold String_as_OT.cmp in H. congruence.
Qed.

Lemma bytesCompare_eq (a b : string) : String.eqb a b = true <-> bytesCompare a b = 0.
Proof.
  rewrite String.eqb_eq. unfold bytesCompare.
  destruct (String.compare a b) eqn:E.
  - apply String.compare_eq_iff in E. split; auto.
  - split; [intros H; apply String_as_OT.cmp_eq in H;
            unfold String_as_OT.cmp in H; congruence | lia].
  - split; [intros H; apply String_as_OT.cmp_eq in H;
            unfold String_as_OT.cmp in H; congruence | lia].
Qed.

Lemma bytesCompare_antisym (a b : string) :
  Z.sgn (bytesCompare b a) = - Z.sgn (bytesCompare a b).
Proof.
  unfold bytesCompare. rewrite (String.compare_antisym a b).
  destruct (String.compare b a); reflexivity.
Qed.

Lemma bytesCompare_trans (a b c : string) :
  bytesCompare a b <= 0 -> bytesCompare b c <= 0 -> bytesCompare a c <= 0.
Proof.
  rewrite !bytesCompare_le.
  intros [-> | H1] [-> | H2]; auto.
  right. eapply String_as_OT.lt_trans; eassumption.
Qed.

#[export] Instance DefaultComparer : Comparer := {|
  Compare := bytesCompare;
  Equal := String.eqb;
  Equal_iff := bytesCompare_eq;
  Compare_antisym := bytesCompare_antisym;
  Compare_trans := bytesCompare_trans
|}.

Section ComparerFacts.
Context {C : Comparer}.

Lemma Compare_refl (a : string) : Compare a a = 0.
Proof. pose proof (Compare_antisym a a). lia. Qed.

Lemma Compare_flip_lt (a b : string) : Compare a b < 0 <-> Compare b a > 0.
Proof. pose proof (Compare_antisym a b). lia. Qed.

Lemma Compare_flip_eq (a b : string) : Compare a b = 0 <-> Compare b a = 0.
Proof. pose proof (Compare_antisym a b). lia. Qed.

Lemma Compare_flip_le (a b : string) : Compare a b <= 0 <-> Compare b a >= 0.
Proof. pose proof (Compare_antisym a b). lia. Qed.

Lemma Compare_lt_le_trans (a b c : string) :
  Compare a b < 0 -> Compare b c <= 0 -> Compare a c < 0.
Proof.
  intros H1 H2.
  destruct (Z_lt_ge_dec (Compare a c) 0) as [|H3]; [assumption | exfalso].
  apply Compare_flip_le in H3.
  pose proof (Compare_trans _ _ _ H2 H3) as H4.
  apply Compare_flip_le in H4. lia.
Qed.

Lemma Compare_le_lt_trans (a b c : string) :
  Compare a b <= 0 -> Compare b c < 0 -> Compare a c < 0.
Proof.
  intros H1 H2.
  destruct (Z_lt_ge_dec (Compare a c) 0) as [|H3]; [assumption | exfalso].
  apply Compare_flip_le in H3.
  pose proof (Compare_trans _ _ _ H3 H1) as H4.
  apply Compare_flip_le in H4. lia.
Qed.

Lemma Compare_eq_l (a b c : string) :
  Compare a b = 0 -> Z.sgn (Compare a c) = Z.sgn (Compare b c).
Proof.
  intros H.
  assert (Hab : Compare a b <= 0) by lia.
  assert (Hba : Compare b a <= 0) by (apply Compare_flip_eq in H; lia).
  destruct (Z.lt_trichotomy (Compare b c) 0) as [Hb | [Hb | Hb]].
  - pose proof (Compare_le_lt_trans _ _ _ Hab Hb). lia.
  - assert (Compare a c <= 0) by (apply (Compare_trans a b c); lia).
    assert (Compare c a <= 0).
    { apply (Compare_trans c b a); [apply Compare_flip_eq in Hb; lia | lia]. }
    apply Compare_flip_le in H1. lia.
  - assert (Hcb : Compare c b < 0) by (apply Compare_flip_lt; lia).
    pose proof (Compare_lt_le_trans _ _ _ Hcb Hba) as H1.
    apply Compare_flip_lt in H1. lia.
Qed.
End ComparerFacts.

(** * Properties of the memtable *)

(** ** Internal keys *)

Section InternalKeyFacts.
Context {C : Comparer}.

Lemma Compare_eq_r (a b c : string) :
  Compare b c = 0 -> Z.sgn (Compare a b) = Z.sgn (Compare a c).
Proof.
  intros H.
  pose proof (Compare_eq_l b c a H) as E.
  pose proof (Compare_antisym a b). pose proof (Compare_antisym a c). lia.
Qed.

Lemma InternalCompare_lt_iff (a b : InternalKey) :
  ikey_lt a b <->
  Compare (UserKey a) (UserKey b) < 0 \/
  (Compare (UserKey a) (UserKey b) = 0 /\ Trailer b < Trailer a).
Proof.
  unfold ikey_lt, InternalCompare.
  destruct (Z.eqb_spec (Compare (UserKey a) (UserKey b)) 0) as [E | E]; cbn [negb].
  - destruct (Z.ltb_spec (Trailer a) (Trailer b)); [lia |].
    destruct (Z.ltb_spec (Trailer b) (Trailer a)); lia.
  - lia.
Qed.

Lemma InternalCompare_eq_iff (a b : InternalKey) :
  InternalCompare a b = 0 <->
  Compare (UserKey a) (UserKey b) = 0 /\ Trailer a = Trailer b.
Proof.
  unfold InternalCompare.
  destruct (Z.eqb_spec (Compare (UserKey a) (UserKey b)) 0) as [E | E]; cbn [negb].
  - destruct (Z.ltb_spec (Trailer a) (Trailer b)); [lia |].
    destruct (Z.ltb_spec (Trailer b) (Trailer a)); lia.
  - lia.
Qed.

Lemma ikey_lt_trans (a b c : InternalKey) : ikey_lt a b -> ikey_lt b c -> ikey_lt a c.
Proof.
  rewrite !InternalCompare_lt_iff.
  intros [H1 | [H1 T1]] [H2 | [H2 T2]].
  - left. apply (Compare_lt_le_trans _ (UserKey b)); lia.
  - left. apply (Compare_lt_le_trans _ (UserKey b)); lia.
  - left. apply (Compare_le_lt_trans _ (UserKey b)); lia.
  - right. split; [| lia].
    pose proof (Compare_eq_l _ _ (UserKey c) H1). lia.
Qed.

Lemma ikey_lt_irrefl (a : InternalKey) : ~ ikey_lt a a.
Proof.
  rewrite InternalCompare_lt_iff. rewrite Compare_refl. lia.
Qed.

Lemma SeqNum_mono (a b : InternalKey) : Trailer a <= Trailer b -> SeqNum a <= SeqNum b.
Proof.
  unfold SeqNum. intros H. rewrite !Z.shiftr_div_pow2 by lia.
  apply Z.div_le_mono; lia.
Qed.

End InternalKeyFacts.

(** ** The skiplist model *)

Section SkiplistFacts.
Context {C : Comparer}.

Lemma insert_In (key : InternalKey) (value : string) (s s' : arenaskl.Skiplist) :
  arenaskl.insert key value s = Some s' ->
  forall x, In x s' <-> x = (key, value) \/ In x s.
Proof.
  revert s'. induction s as [| [k v] rest IH]; intros s' H x; cbn in H.
  - inversion H; subst. cbn. intuition congruence.
  - destruct (InternalCompare key k <? 0).
    + inversion H; subst. cbn. intuition congruence.
    + destruct (InternalCompare key k =? 0); [discriminate |].
      destruct (arenaskl.insert key value rest) as [r |] eqn:E; [| discriminate].
      cbn in H. inversion H; subst. cbn. rewrite (IH r eq_refl x). intuition congruence.
Qed.

Lemma insert_sorted (key : InternalKey) (value : string) (s s' : arenaskl.Skiplist) :
  arenaskl.sorted s -> arenaskl.insert key value s = Some s' -> arenaskl.sorted s'.
Proof.
  unfold arenaskl.sorted. revert s'.
  induction s as [| [k v] rest IH]; intros s' Hs H; cbn in H.
  - inversion H; subst. cbn. constructor; constructor.
  - cbn in Hs. apply StronglySorted_inv in Hs. destruct Hs as [Hrest Hall].
    destruct (Z.ltb_spec (InternalCompare key k) 0) as [Hlt | Hge].
    + inversion H; subst. cbn. constructor.
      * constructor; assumption.
      * constructor; [exact Hlt |].
        rewrite Forall_forall in *. intros y Hy.
        apply (ikey_lt_trans _ k); [exact Hlt | auto].
    + destruct (Z.eqb_spec (InternalCompare key k) 0) as [| Hne]; [discriminate |].
      destruct (arenaskl.insert key value rest) as [r |] eqn:E; [| discriminate].
      cbn in H. inversion H; subst. cbn. constructor.
      * apply IH; auto.
      * rewrite Forall_forall in *. intros y Hy.
        apply in_map_iff in Hy. destruct Hy as [[y1 y2] [<- Hy]].
        apply (insert_In _ _ _ _ E) in Hy. destruct Hy as [Hy | Hy].
        -- inversion Hy; subst. cbn.
           assert (G : 0 < InternalCompare key k) by lia.
           clear - G. apply InternalCompare_lt_iff.
           unfold InternalCompare in G.
           destruct (Z.eqb_spec (Compare (UserKey key) (UserKey k)) 0) as [E | E];
             cbn [negb] in G.
           ++ right. split; [apply Compare_flip_eq; exact E |].
              destruct (Z.ltb_spec (Trailer key) (Trailer k)); [assumption |].
              destruct (Z.ltb_spec (Trailer k) (Trailer key)); lia.
           ++ left. apply Compare_flip_lt. lia.
        -- apply Hall. apply in_map_iff. exists (y1, y2). auto.
Qed.

Lemma Add_sorted (f : Z -> Z -> Z) (s : arenaskl.Skiplist) (a : arenaskl.Arena)
    (key : InternalKey) (value : string) :
  arenaskl.sorted s -> arenaskl.sorted (fst (fst (arenaskl.Add f s a key value))).
Proof.
  intros Hs. unfold arenaskl.Add.
  destruct (arenaskl.insert key value s) eqn:E; cbn; [| assumption].
  destruct (_ <? _); cbn; [assumption |].
  eapply insert_sorted; eassumption.
Qed.

Lemma Add_failed (f : Z -> Z -> Z) (s s' : arenaskl.Skiplist) (a a' : arenaskl.Arena)
    (key : InternalKey) (value : string) (e : error) :
  arenaskl.Add f s a key value = (s', a', Some e) -> s' = s /\ a' = a.
Proof.
  unfold arenaskl.Add.
  destruct (arenaskl.insert key value s); [destruct (_ <? _) |]; intros H; inversion H; auto.
Qed.

Lemma Add_In (f : Z -> Z -> Z) (s s' : arenaskl.Skiplist) (a a' : arenaskl.Arena)
    (key : InternalKey) (value : string) :
  arenaskl.Add f s a key value = (s', a', None) ->
  forall x, In x s' <-> x = (key, value) \/ In x s.
Proof.
  unfold arenaskl.Add.
  destruct (arenaskl.insert key value s) eqn:E; [destruct (_ <? _) |];
    intros H; inversion H; subst.
  eapply insert_In; eassumption.
Qed.

Lemma Add_keeps (f : Z -> Z -> Z) (s : arenaskl.Skiplist) (a : arenaskl.Arena)
    (key : InternalKey) (value : string) x :
  In x s -> In x (fst (fst (arenaskl.Add f s a key value))).
Proof.
  intros Hx. destruct (arenaskl.Add f s a key value) as [[s' a'] [e |]] eqn:E; cbn.
  - apply Add_failed in E. destruct E; subst. assumption.
  - apply (Add_In _ _ _ _ _ _ _ E). auto.
Qed.

End SkiplistFacts.

(** ** get *)

Section GetFacts.
Context {C : Comparer}.

Lemma seek_le (key : string) (s : arenaskl.Skiplist) :
  (arenaskl.seek key s <= List.length s)%nat.
Proof.
  induction s as [| [k v] rest IH]; cbn; [lia |].
  destruct (0 <=? Compare (UserKey k) key); lia.
Qed.

Lemma seek_In (key : string) (s : arenaskl.Skiplist) (d : InternalKey) :
  (arenaskl.seek key s < List.length s)%nat ->
  exists e v,
    In (e, v) s /\
    nth (arenaskl.seek key s) (map fst s) d = e /\
    nth_error (map snd s) (arenaskl.seek key s) = Some v /\
    0 <= Compare (UserKey e) key.
Proof.
  induction s as [| [k v] rest IH]; cbn; [lia |].
  destruct (Z.leb_spec 0 (Compare (UserKey k) key)) as [H | H]; intros Hlt.
  - exists k, v. cbn. auto.
  - destruct IH as (e & v' & Hin & Hk & Hv & Hc); [lia |].
    exists e, v'. cbn. auto.
Qed.

(** The cursor lands on the entry of [key] with the largest trailer. *)
Lemma seek_newest (key : string) (s : arenaskl.Skiplist) (d : InternalKey)
    (e : InternalKey) (v : string) :
  arenaskl.sorted s ->
  In (e, v) s ->
  Compare key (UserKey e) = 0 ->
  (forall e' v', In (e', v') s -> Compare key (UserKey e') = 0 -> e' <> e ->
                 Trailer e' < Trailer e) ->
  (arenaskl.seek key s < List.length s)%nat /\
  nth (arenaskl.seek key s) (map fst s) d = e /\
  nth_error (map snd s) (arenaskl.seek key s) = Some v.
Proof.
  unfold arenaskl.sorted.
  induction s as [| [k0 v0] rest IH]; intros Hs Hin Hk Hmax; [contradiction |].
  cbn in Hs. apply StronglySorted_inv in Hs. destruct Hs as [Hrest Hall].
  cbn [arenaskl.seek].
  destruct (Z.leb_spec 0 (Compare (UserKey k0) key)) as [H | H].
  - cbn. split; [lia |].
    destruct Hin as [Hin | Hin]; [inversion Hin; auto | exfalso].
    rewrite Forall_forall in Hall.
    assert (Hlt : ikey_lt k0 e).
    { apply Hall. apply in_map_iff. exists (e, v). auto. }
    apply InternalCompare_lt_iff in Hlt.
    pose proof (Compare_eq_r (UserKey k0) key (UserKey e) Hk) as Hsgn.
    destruct Hlt as [Hlt | [Heq Ht]]; [lia |].
    assert (Hk0 : Compare key (UserKey k0) = 0).
    { apply Compare_flip_eq. lia. }
    assert (Hne : k0 <> e) by (intros ->; lia).
    specialize (Hmax k0 v0 (or_introl eq_refl) Hk0 Hne). lia.
  - destruct Hin as [Hin | Hin].
    + inversion Hin; subst. apply Compare_flip_eq in Hk. lia.
    + destruct IH as (H1 & H2 & H3); auto.
      { intros e' v' Hin'. apply (Hmax e' v'). right. exact Hin'. }
      cbn. repeat split; auto. lia.
Qed.

Lemma get_found (m : memTable) (k : string) (e : InternalKey) (v : string) :
  arenaskl.sorted (skl m) ->
  In (e, v) (skl m) ->
  Equal k (UserKey e) = true ->
  (forall e' v', In (e', v') (skl m) -> Equal k (UserKey e') = true -> e' <> e ->
                 Trailer e' < Trailer e) ->
  get m k = if Kind e =? InternalKeyKindDelete then (None, Some ErrNotFound)
            else (Some v, None).
Proof.
  intros Hs Hin Hk Hmax.
  apply Equal_iff in Hk.
  destruct (seek_newest k (skl m) InvalidInternalKey e v Hs Hin Hk) as (H1 & H2 & H3).
  { intros e' v' Hin' Hk'. apply (Hmax e' v' Hin'). apply Equal_iff. exact Hk'. }
  unfold get, arenaskl.SeekGE, arenaskl.NewIter, arenaskl.Key, arenaskl.Value.
  cbn [arenaskl.list_ arenaskl.nd].
  apply Nat.ltb_lt in H1. rewrite H1, H2, H3. cbn [negb].
  apply Equal_iff in Hk. rewrite Hk. cbn [negb]. reflexivity.
Qed.

Lemma get_absent (m : memTable) (k : string) :
  (forall e v, In (e, v) (skl m) -> Equal k (UserKey e) = false) ->
  get m k = (None, Some ErrNotFound).
Proof.
  intros Hnone.
  unfold get, arenaskl.SeekGE, arenaskl.NewIter, arenaskl.Key, arenaskl.Value.
  cbn [arenaskl.list_ arenaskl.nd].
  destruct (Nat.ltb_spec (arenaskl.seek k (skl m)) (List.length (skl m))) as [H | H];
    cbn [negb]; [| reflexivity].
  destruct (seek_In k (skl m) InvalidInternalKey H) as (e & v & Hin & Hk & _).
  rewrite Hk, (Hnone e v Hin). reflexivity.
Qed.

(** C1.  In every memtable state (the point skiplist in internal-key order)
    and for every user key [k]: when [e] is the entry for [k] with the
    greatest sequence number and its kind is SET or MERGE, [get k] returns
    the value of [e]; when its kind is DELETE, [get k] returns NotFound; and
    when the memtable has no entry for [k], [get k] returns NotFound. *)
Theorem get_returns_newest_entry (m : memTable) (k : string) :
  arenaskl.sorted (skl m) ->
  (forall e v,
      In (e, v) (skl m) ->
      Equal k (UserKey e) = true ->
      (forall e' v', In (e', v') (skl m) -> Equal k (UserKey e') = true -> e' <> e ->
                     SeqNum e' < SeqNum e) ->
      (Kind e = InternalKeyKindSet \/ Kind e = InternalKeyKindMerge ->
       get m k = (Some v, None)) /\
      (Kind e = InternalKeyKindDelete -> get m k = (None, Some ErrNotFound)))
  /\
  ((forall e v, In (e, v) (skl m) -> Equal k (UserKey e) = false) ->
   get m k = (None, Some ErrNotFound)).
Proof.
  intros Hs. split.
  - intros e v Hin Hk Hmax.
    assert (G : get m k = if Kind e =? InternalKeyKindDelete
                          then (None, Some ErrNotFound) else (Some v, None)).
    { apply get_found; auto.
      intros e' v' Hin' Hk' Hne.
      specialize (Hmax e' v' Hin' Hk' Hne).
      destruct (Z_lt_ge_dec (Trailer e') (Trailer e)) as [| Hge]; [assumption |].
      pose proof (SeqNum_mono e e'). lia. }
    rewrite G. split.
    + intros [Hkind | Hkind]; rewrite Hkind; reflexivity.
    + intros Hkind. rewrite Hkind. reflexivity.
  - apply get_absent.
Qed.

End GetFacts.

(** ** prepare *)

Lemma set_reserved_same (m : memTable) : set_reserved m (reserved m) = m.
Proof. destruct m; reflexivity. Qed.

(** C2, as amended.  [prepare] first replaces [reserved] by the size of the
    arena when [refs] is 1; when the batch's [memTableSize] exceeds the
    capacity of the arena minus that figure (in uint32 arithmetic) it
    returns ArenaFull, with [refs] as it was and nothing else than this
    replacement of [reserved] changed; a memtable with [refs] other than 1
    is left as it was. *)
Theorem prepare_arena_full (m : memTable) (batch : Batch) :
  wrap32 (arenaskl.Capacity (arena m) -
          (if refs m =? 1 then arenaskl.Size (arena m) else reserved m))
    < memTableSize batch ->
  prepare m batch =
    (set_reserved m (if refs m =? 1 then arenaskl.Size (arena m) else reserved m),
     Some ErrArenaFull)
  /\ refs (fst (prepare m batch)) = refs m
  /\ (refs m <> 1 -> fst (prepare m batch) = m).
Proof.
  intros H. unfold prepare.
  destruct (Z.eqb_spec (refs m) 1) as [E | E].
  - cbn [reserved set_reserved].
    apply Z.ltb_lt in H. rewrite H. cbn. repeat split; auto. contradiction.
  - apply Z.ltb_lt in H. rewrite H. cbn [fst].
    rewrite set_reserved_same. auto.
Qed.

(** ** apply *)

Section ApplyFacts.
Context {C : Comparer}.
Variable MaxNodeSize : Z -> Z -> Z.

Lemma wrap64_succ (a b : Z) : wrap64 (wrap64 (a + 1) + b) = wrap64 (a + (1 + b)).
Proof.
  unfold wrap64. rewrite Zplus_mod_idemp_l. f_equal. lia.
Qed.

Lemma wrap64_small (a : Z) : 0 <= a < 2 ^ 64 -> wrap64 a = a.
Proof. intros H. unfold wrap64. apply Z.mod_small. exact H. Qed.

Lemma wrap64_range (a : Z) : 0 <= wrap64 a < 2 ^ 64.
Proof. unfold wrap64. apply Z.mod_pos_bound. lia. Qed.

(** The skiplist that [apply] and [set] choose for a kind. *)
Definition skl_of (kind : Z) (m : memTable) : arenaskl.Skiplist :=
  if kind =? InternalKeyKindRangeDelete then rangeDelSkl m else skl m.

Lemma apply_entry_keeps (m : memTable) (seqNum : Z) (e : Z * string * string)
    (kind : Z) x :
  In x (skl_of kind m) -> In x (skl_of kind (fst (apply_entry MaxNodeSize m seqNum e))).
Proof.
  destruct e as [[kind' ukey] value]. unfold apply_entry, skl_of.
  destruct (kind' =? InternalKeyKindRangeDelete).
  - pose proof (Add_keeps MaxNodeSize (rangeDelSkl m) (arena m)
                  (MakeInternalKey ukey seqNum kind') value x) as K.
    destruct (arenaskl.Add _ _ _ _ _) as [[s a] err]. cbn in *.
    destruct (kind =? InternalKeyKindRangeDelete); auto.
  - pose proof (Add_keeps MaxNodeSize (skl m) (arena m)
                  (MakeInternalKey ukey seqNum kind') value x) as K.
    destruct (arenaskl.Add _ _ _ _ _) as [[s a] err]. cbn in *.
    destruct (kind =? InternalKeyKindRangeDelete); auto.
Qed.

Lemma apply_entry_inserts (m m' : memTable) (seqNum kind : Z) (ukey value : string) :
  apply_entry MaxNodeSize m seqNum (kind, ukey, value) = (m', None) ->
  In (MakeInternalKey ukey seqNum kind, value) (skl_of kind m').
Proof.
  unfold apply_entry, skl_of.
  destruct (kind =? InternalKeyKindRangeDelete).
  - destruct (arenaskl.Add _ _ _ _ _) as [[s a] err] eqn:E.
    intros H. inversion H; subst. cbn.
    apply (Add_In _ _ _ _ _ _ _ E). auto.
  - destruct (arenaskl.Add _ _ _ _ _) as [[s a] err] eqn:E.
    intros H. inversion H; subst. cbn.
    apply (Add_In _ _ _ _ _ _ _ E). auto.
Qed.

Lemma apply_loop_keeps (es : list (Z * string * string)) (m : memTable) (seqNum kind : Z) x :
  In x (skl_of kind m) ->
  In x (skl_of kind (fst (fst (apply_loop MaxNodeSize m es seqNum)))).
Proof.
  revert m seqNum. induction es as [| e rest IH]; intros m seqNum Hx; cbn; [assumption |].
  pose proof (apply_entry_keeps m seqNum e kind x Hx) as K.
  destruct (apply_entry MaxNodeSize m seqNum e) as [m1 [err |]]; cbn in *; auto.
Qed.

(** A run of the loop that inserts every entry gives the i-th entry the
    sequence number [seqNum + i] and ends at [seqNum + length]. *)
Lemma apply_loop_seqnums (es : list (Z * string * string)) (m m' : memTable)
    (seqNum seqNum' : Z) :
  0 <= seqNum < 2 ^ 64 ->
  apply_loop MaxNodeSize m es seqNum = (m', seqNum', None) ->
  seqNum' = wrap64 (seqNum + Z.of_nat (List.length es)) /\
  forall i kind ukey value,
    nth_error es i = Some (kind, ukey, value) ->
    In (MakeInternalKey ukey (wrap64 (seqNum + Z.of_nat i)) kind, value) (skl_of kind m').
Proof.
  revert m seqNum. induction es as [| e rest IH]; intros m seqNum Hr H; cbn in H.
  - inversion H; subst. cbn. rewrite Z.add_0_r, wrap64_small by assumption.
    split; [reflexivity |]. intros [| i]; discriminate.
  - destruct (apply_entry MaxNodeSize m seqNum e) as [m1 [err |]] eqn:E; [discriminate |].
    destruct (IH m1 (wrap64 (seqNum + 1)) (wrap64_range _) H) as [Hs Hk].
    split.
    + rewrite Hs, wrap64_succ. f_equal. cbn [List.length]. lia.
    + intros [| i] kind ukey value Hi; cbn in Hi.
      * inversion Hi; subst. rewrite Z.add_0_r, wrap64_small by assumption.
        pose proof (apply_entry_inserts _ _ _ _ _ _ E) as K.
        pose proof (apply_loop_keeps rest m1 (wrap64 (seqNum + 1)) kind _ K) as K'.
        rewrite H in K'. exact K'.
      * specialize (Hk i kind ukey value Hi).
        rewrite wrap64_succ in Hk.
        replace (seqNum + Z.of_nat (S i)) with (seqNum + (1 + Z.of_nat i)) by lia.
        exact Hk.
Qed.

Lemma apply_loop_err_seqnum (es : list (Z * string * string)) (m m' : memTable)
    (seqNum seqNum' : Z) :
  0 <= seqNum < 2 ^ 64 ->
  apply_loop MaxNodeSize m es seqNum = (m', seqNum', None) ->
  seqNum' = wrap64 (seqNum + Z.of_nat (List.length es)).
Proof. intros Hr H. exact (proj1 (apply_loop_seqnums es m m' seqNum seqNum' Hr H)). Qed.

Lemma low_bits_of_shifted (seqNum : Z) : Z.land (wrap64 (Z.shiftl seqNum 8)) 255 = 0.
Proof.
  change 255 with (Z.ones 8). rewrite Z.land_ones by lia.
  unfold wrap64. rewrite Z.mod_mod_divide by (exists (2 ^ 56); reflexivity).
  rewrite Z.shiftl_mul_pow2 by lia. apply Z_mod_mult.
Qed.

Lemma Kind_MakeInternalKey (ukey : string) (seqNum kind : Z) :
  0 <= kind < 256 -> Kind (MakeInternalKey ukey seqNum kind) = kind.
Proof.
  intros H. unfold Kind, MakeInternalKey. cbn [Trailer].
  rewrite Z.land_lor_distr_l, low_bits_of_shifted, Z.lor_0_l.
  change 255 with (Z.ones 8). rewrite Z.land_ones by lia.
  apply Z.mod_small. lia.
Qed.

Lemma SeqNum_MakeInternalKey (ukey : string) (seqNum kind : Z) :
  0 <= seqNum < 2 ^ 56 -> 0 <= kind < 256 ->
  SeqNum (MakeInternalKey ukey seqNum kind) = seqNum.
Proof.
  intros Hs Hk. unfold SeqNum, MakeInternalKey. cbn [Trailer].
  rewrite Z.shiftr_lor.
  rewrite wrap64_small.
  - rewrite Z.shiftr_shiftl_l by lia. cbn [Z.sub Z.opp Z.add Z.shiftl].
    replace (Z.shiftl seqNum (8 - 8)) with seqNum by (cbn; reflexivity).
    rewrite (Z.shiftr_div_pow2 kind) by lia.
    rewrite Z.div_small by lia. apply Z.lor_0_r.
  - rewrite Z.shiftl_mul_pow2 by lia. lia.
Qed.

(** The loop inserts a prefix of the entries, of length [j]: it reaches the
    sequence number [seqNum + j] with no error, and then either the entries
    are exhausted or the insert of the entry at [j], made with that sequence
    number, fails and the loop returns its error. *)
Lemma apply_loop_prefix (es : list (Z * string * string)) (m : memTable) (seqNum : Z) :
  0 <= seqNum < 2 ^ 64 ->
  exists (j : nat) (m1 : memTable),
    (j <= List.length es)%nat /\
    apply_loop MaxNodeSize m (firstn j es) seqNum
      = (m1, wrap64 (seqNum + Z.of_nat j), None) /\
    ((j = List.length es /\
      apply_loop MaxNodeSize m es seqNum = (m1, wrap64 (seqNum + Z.of_nat j), None)) \/
     (exists e m2 err,
        nth_error es j = Some e /\
        apply_entry MaxNodeSize m1 (wrap64 (seqNum + Z.of_nat j)) e = (m2, Some err) /\
        apply_loop MaxNodeSize m es seqNum
          = (m2, wrap64 (seqNum + Z.of_nat j), Some err))).
Proof.
  revert m seqNum. induction es as [| e rest IH]; intros m seqNum Hr.
  - exists 0%nat, m. cbn. rewrite Z.add_0_r, wrap64_small by assumption.
    split; [lia |]. split; [reflexivity |]. left. split; reflexivity.
  - destruct (apply_entry MaxNodeSize m seqNum e) as [m' [err |]] eqn:E.
    + exists 0%nat, m. cbn [firstn apply_loop nth_error List.length Z.of_nat].
      rewrite Z.add_0_r, wrap64_small by assumption.
      split; [lia |]. split; [reflexivity |]. right.
      exists e, m', err. rewrite E. split; [reflexivity |]. split; reflexivity.
    + destruct (IH m' (wrap64 (seqNum + 1)) (wrap64_range _)) as (j & m1 & Hj & Hpre & Hrest).
      assert (Hw : wrap64 (wrap64 (seqNum + 1) + Z.of_nat j)
                   = wrap64 (seqNum + Z.of_nat (S j))).
      { rewrite wrap64_succ. f_equal. lia. }
      rewrite Hw in Hpre, Hrest.
      exists (S j), m1. cbn [firstn apply_loop nth_error List.length]. rewrite E.
      split; [lia |]. split; [exact Hpre |].
      destruct Hrest as [[Hl Hall] | (e' & m2 & err & Hn & He & Hall)].
      * left. split; [congruence | exact Hall].
      * right. exists e', m2, err. split; [exact Hn |]. split; [exact He | exact Hall].
Qed.

(** C8.  For a batch whose count is the number of entries its iterator
    yields and a uint64 start sequence number, [apply] returns and does not
    reach the panic on an inconsistent batch count.  Its loop inserts the
    first [j] entries and stops at the sequence number [start + j]: for every
    [i < j] the i-th entry is stored under the internal key made of its user
    key, the sequence number [start + i] and its kind (the sequence number
    reads back as [start + i] as long as it fits the 56 bits of a trailer).
    When [apply] returns no error, [j] is the batch count, so every entry is
    stored and the final sequence number is [start + count]; when it returns
    an error, that is the error of the insert of the entry at [j], made with
    the sequence number [start + j] on the memtable holding the [j] entries
    before it. *)
Theorem apply_assigns_consecutive_seqnums (m : memTable) (batch : Batch) (startSeqNum : Z) :
  0 <= startSeqNum < 2 ^ 64 ->
  count batch = Z.of_nat (List.length (entries batch)) ->
  exists (m' : memTable) (err : option error) (j : nat),
    apply MaxNodeSize m batch startSeqNum = Ret (m', err) /\
    apply_loop MaxNodeSize m (entries batch) startSeqNum
      = (m', wrap64 (startSeqNum + Z.of_nat j), err) /\
    (forall i kind ukey value,
       (i < j)%nat ->
       nth_error (entries batch) i = Some (kind, ukey, value) ->
       let ikey := MakeInternalKey ukey (wrap64 (startSeqNum + Z.of_nat i)) kind in
       In (ikey, value) (skl_of kind m') /\
       (startSeqNum + Z.of_nat i < 2 ^ 56 -> 0 <= kind < 256 ->
        SeqNum ikey = startSeqNum + Z.of_nat i /\ Kind ikey = kind)) /\
    match err with
    | None =>
        Z.of_nat j = count batch /\
        wrap64 (startSeqNum + Z.of_nat j) = wrap64 (startSeqNum + count batch)
    | Some e =>
        exists entry m1,
          nth_error (entries batch) j = Some entry /\
          apply_loop MaxNodeSize m (firstn j (entries batch)) startSeqNum
            = (m1, wrap64 (startSeqNum + Z.of_nat j), None) /\
          apply_entry MaxNodeSize m1 (wrap64 (startSeqNum + Z.of_nat j)) entry
            = (m', Some e)
    end.
Proof.
  intros Hr Hc.
  destruct (apply_loop_prefix (entries batch) m startSeqNum Hr)
    as (j & m1 & Hj & Hpre & Hrest).
  destruct (apply_loop_seqnums _ _ _ _ _ Hr Hpre) as [_ Hin].
  assert (Hread : forall i kind ukey,
            startSeqNum + Z.of_nat i < 2 ^ 56 -> 0 <= kind < 256 ->
            SeqNum (MakeInternalKey ukey (wrap64 (startSeqNum + Z.of_nat i)) kind)
              = startSeqNum + Z.of_nat i /\
            Kind (MakeInternalKey ukey (wrap64 (startSeqNum + Z.of_nat i)) kind) = kind).
  { intros i kind ukey Hlt Hkind. rewrite wrap64_small by lia.
    split; [apply SeqNum_MakeInternalKey; lia | apply Kind_MakeInternalKey; lia]. }
  assert (Hstored : forall i kind ukey value,
            (i < j)%nat ->
            nth_error (entries batch) i = Some (kind, ukey, value) ->
            In (MakeInternalKey ukey (wrap64 (startSeqNum + Z.of_nat i)) kind, value)
               (skl_of kind m1)).
  { intros i kind ukey value Hi Hn. apply Hin.
    rewrite nth_error_firstn. apply Nat.ltb_lt in Hi. rewrite Hi. exact Hn. }
  destruct Hrest as [[Hl Hall] | (e & m2 & err & Hn & He & Hall)].
  - exists m1, None, j. unfold apply. rewrite Hall, Hc, <- Hl, Z.eqb_refl. cbn [negb].
    split; [reflexivity |]. split; [reflexivity |].
    split; [| split; reflexivity].
    intros i kind ukey value Hi Hnth. cbv zeta.
    split; [apply Hstored; assumption | apply Hread].
  - exists m2, (Some err), j. unfold apply. rewrite Hall.
    split; [reflexivity |]. split; [reflexivity |].
    split; [| exists e, m1; split; [exact Hn |]; split; [exact Hpre | exact He]].
    intros i kind ukey value Hi Hnth. cbv zeta.
    split; [| apply Hread].
    pose proof (apply_entry_keeps m1 (wrap64 (startSeqNum + Z.of_nat j)) e kind _
                  (Hstored i kind ukey value Hi Hnth)) as K.
    rewrite He in K. exact K.
Qed.

Lemma set_rangeDelSkl_same (m : memTable) : set_rangeDelSkl m (rangeDelSkl m) (arena m) = m.
Proof. destruct m; reflexivity. Qed.

Lemma apply_loop_app (pre post : list (Z * string * string)) (m m1 : memTable)
    (seqNum seq1 : Z) :
  apply_loop MaxNodeSize m pre seqNum = (m1, seq1, None) ->
  apply_loop MaxNodeSize m (pre ++ post) seqNum = apply_loop MaxNodeSize m1 post seq1.
Proof.
  revert m seqNum. induction pre as [| e rest IH]; intros m seqNum H; cbn in *.
  - inversion H; subst. reflexivity.
  - destruct (apply_entry MaxNodeSize m seqNum e) as [m2 [err |]]; [discriminate |].
    apply IH. exact H.
Qed.

(** C9.  When [apply] reaches a RANGEDEL entry and the Add to the range-del
    skiplist fails with [e], [apply] returns [e] with [tombstones.count]
    incremented and the cache pointer cleared although no tombstone was
    stored, so the count exceeds the number of stored tombstones if it did
    not before; [set] on the same key returns [e] with the count and the
    cache as they were. *)
Theorem apply_counts_failed_rangedel (m m1 : memTable) (batch : Batch)
    (startSeqNum seq1 : Z) (pre post : list (Z * string * string))
    (ukey value : string) (e : error) :
  entries batch = pre ++ (InternalKeyKindRangeDelete, ukey, value) :: post ->
  apply_loop MaxNodeSize m pre startSeqNum = (m1, seq1, None) ->
  snd (arenaskl.Add MaxNodeSize (rangeDelSkl m1) (arena m1)
         (MakeInternalKey ukey seq1 InternalKeyKindRangeDelete) value) = Some e ->
  let m' := set_tombstones_vals
              (set_tombstones_count m1 (wrap32 (tombstones_count m1 + 1))) None in
  apply MaxNodeSize m batch startSeqNum = Ret (m', Some e)
  /\ rangeDelSkl m' = rangeDelSkl m1
  /\ (Z.of_nat (List.length (rangeDelSkl m1)) <= tombstones_count m1 < 2 ^ 32 - 1 ->
      Z.of_nat (List.length (rangeDelSkl m')) < tombstones_count m')
  /\ set MaxNodeSize m1 (MakeInternalKey ukey seq1 InternalKeyKindRangeDelete) value
     = (m1, Some e).
Proof.
  intros Hes Hpre Hadd m'.
  destruct (arenaskl.Add MaxNodeSize (rangeDelSkl m1) (arena m1)
              (MakeInternalKey ukey seq1 InternalKeyKindRangeDelete) value)
    as [[s a] err] eqn:E.
  cbn in Hadd. subst err.
  destruct (Add_failed _ _ _ _ _ _ _ _ E) as [-> ->].
  repeat split.
  - unfold apply. rewrite Hes, (apply_loop_app _ _ _ _ _ _ Hpre).
    cbn [apply_loop apply_entry]. rewrite Z.eqb_refl, E.
    rewrite set_rangeDelSkl_same. reflexivity.
  - subst m'. cbn. intros H. unfold wrap32. rewrite Z.mod_small; lia.
  - unfold set. rewrite Kind_MakeInternalKey by (unfold InternalKeyKindRangeDelete; lia).
    rewrite Z.eqb_refl, E. rewrite set_rangeDelSkl_same. reflexivity.
Qed.

End ApplyFacts.

(** ** newRangeDelIter *)

Section RangeDelIterFacts.
Variable fragment : arenaskl.Skiplist -> list Tombstone.

(** The fragments the cache pointer leads to, if any. *)
Definition cached (m : memTable) : option (list Tombstone) :=
  option_map (deref m) (tombstones_vals m).

Lemma ptr_eqb_refl (p : option nat) : ptr_eqb p p = true.
Proof. destruct p; cbn; [apply Nat.eqb_refl | reflexivity]. Qed.

(** Without other goroutines a read returns, and the cached sequence does
    not get shorter. *)
Lemma newRangeDelIter_alone (m : memTable) (p : nat) :
  tombstones_vals m = Some p ->
  (p < List.length (heap m))%nat ->
  exists m' r,
    newRangeDelIter fragment alone m = Ret (m', r) /\
    exists ts', cached m' = Some ts' /\
                (List.length (deref m p) <= List.length ts')%nat.
Proof.
  unfold cached, newRangeDelIter. intros Ep Hp.
  destruct (tombstones_count m =? 0).
  { exists m, None. split; [reflexivity |]. exists (deref m p). rewrite Ep. auto. }
  rewrite Ep.
  destruct (deref m p) as [| t rest] eqn:Ed.
  - assert (Hd : deref (alloc m (fragment (rangeDelSkl m))) p = []).
    { unfold deref, alloc in *. cbn [heap]. rewrite app_nth1 by assumption. exact Ed. }
    cbn [alone after_first_load in_loop publish].
    unfold publish_turn. cbn [tombstones_vals alloc] in *. rewrite Ep, Hd.
    replace (List.length (fragment (rangeDelSkl m)) <? List.length (@nil Tombstone))%nat
      with false by (symmetry; apply Nat.ltb_ge; cbn; lia).
    cbn [bind]. rewrite ptr_eqb_refl. cbn [bind].
    eexists. eexists. split; [reflexivity |].
    exists (fragment (rangeDelSkl m)). split; [| cbn; lia].
    cbn. unfold deref. cbn [heap]. rewrite nth_middle. reflexivity.
  - exists m, (Some (t :: rest)). split; [reflexivity |].
    exists (t :: rest). rewrite Ep. cbn. rewrite Ed. auto.
Qed.

End RangeDelIterFacts.

(** * Properties of the level iterator *)

(** ** sort.Search *)

Lemma half_between (i j : Z) : i < j -> i <= Z.shiftr (i + j) 1 < j.
Proof.
  intros H. rewrite Z.shiftr_div_pow2 by lia. change (2 ^ 1) with 2.
  split.
  - apply Z.div_le_lower_bound; lia.
  - apply Z.div_lt_upper_bound; lia.
Qed.

Lemma search_loop_spec (n : Z) (f : Z -> bool) (fuel : nat) (i j : Z) :
  0 <= i <= j -> j <= n ->
  j - i <= Z.of_nat fuel ->
  (i = 0 \/ f (i - 1) = false) ->
  (j = n \/ f j = true) ->
  let r := search_loop fuel f i j in
  i <= r <= j /\ (r = 0 \/ f (r - 1) = false) /\ (r = n \/ f r = true).
Proof.
  revert i j.
  induction fuel as [| fuel IH]; intros i j Hij Hjn Hfuel Hi Hj;
    cbn [search_loop]; cbv zeta.
  - assert (i = j) by lia. subst j. repeat split; auto; lia.
  - destruct (Z.ltb_spec i j) as [Hlt | Hge].
    + pose proof (half_between i j Hlt) as Hh.
      destruct (f (Z.shiftr (i + j) 1)) eqn:Ef; cbn [negb].
      * destruct (IH i (Z.shiftr (i + j) 1)) as (H1 & H2 & H3); auto; try lia.
        repeat split; auto; lia.
      * destruct (IH (Z.shiftr (i + j) 1 + 1) j) as (H1 & H2 & H3); auto; try lia.
        { right. replace (Z.shiftr (i + j) 1 + 1 - 1) with (Z.shiftr (i + j) 1) by lia.
          exact Ef. }
        repeat split; auto; lia.
    + assert (i = j) by lia. subst j. repeat split; auto; lia.
Qed.

(** On a predicate that stays true once it is true, [Search] returns the
    first index at which it is true, or [n]. *)
Lemma Search_first (n : Z) (f : Z -> bool) :
  0 <= n ->
  (forall i j, 0 <= i <= j -> j < n -> f i = true -> f j = true) ->
  0 <= Search n f <= n /\
  (forall i, 0 <= i < Search n f -> f i = false) /\
  (Search n f < n -> f (Search n f) = true).
Proof.
  intros Hn Hmono. unfold Search.
  destruct (search_loop_spec n f (Z.to_nat n) 0 n) as (H1 & H2 & H3); auto; try lia.
  repeat split; try lia.
  - intros i Hi. destruct (f i) eqn:Ef; [| reflexivity].
    destruct H2 as [H2 | H2]; [lia |].
    rewrite (Hmono i (search_loop (Z.to_nat n) f 0 n - 1)) in H2; auto; try lia.
  - intros Hlt. destruct H3 as [H3 | H3]; [lia | exact H3].
Qed.

(** ** findFileGE *)

Section FindFile.
Context {C : Comparer}.

(** The invariant of a level slice: every file has [smallest <= largest],
    consecutive files do not overlap in internal-key order (two files share
    a user key only across a boundary, as with a range-delete sentinel), and
    no trailer is above the sentinel, the largest possible trailer. *)
Definition level_ok (fs : list fileMetadata) : Prop :=
  Forall (fun f => InternalCompare (smallest f) (largest f) <= 0 /\
                   Trailer (largest f) <= InternalKeyRangeDeleteSentinel) fs /\
  Sorted (fun f g => ikey_lt (largest f) (smallest g)) fs.

Lemma ikey_lt_le_trans (a b c : InternalKey) :
  ikey_lt a b -> InternalCompare b c <= 0 -> ikey_lt a c.
Proof.
  intros Hab Hbc.
  destruct (Z.eq_dec (InternalCompare b c) 0) as [E | E].
  - apply InternalCompare_eq_iff in E. destruct E as [Eu Et].
    apply InternalCompare_lt_iff in Hab. apply InternalCompare_lt_iff.
    pose proof (Compare_eq_r (UserKey a) _ _ Eu) as Hsgn.
    destruct Hab as [H | [H1 H2]]; [left | right]; lia.
  - apply (ikey_lt_trans a b c); [assumption |]. unfold ikey_lt. lia.
Qed.

Lemma level_ok_largest (fs : list fileMetadata) :
  level_ok fs -> StronglySorted (fun f g => ikey_lt (largest f) (largest g)) fs.
Proof.
  intros [Hall Hs].
  apply Sorted_StronglySorted.
  { intros a b c. apply ikey_lt_trans. }
  induction Hs as [| f fs Hs IH Hd]; constructor.
  - apply IH. inversion Hall; assumption.
  - destruct Hd as [| g fs' Hfg]; constructor.
    inversion Hall as [| ? ? _ Hrest]; subst. inversion Hrest as [| ? ? [Hg _] _]; subst.
    apply (ikey_lt_le_trans _ (smallest g)); assumption.
Qed.

Lemma StronglySorted_nth {A} (R : A -> A -> Prop) (xs : list A) (i j : nat) (a b : A) :
  StronglySorted R xs -> (i < j)%nat ->
  nth_error xs i = Some a -> nth_error xs j = Some b -> R a b.
Proof.
  intros Hs. revert i j. induction Hs as [| x xs Hs IH Hall]; intros i j Hij Ha Hb.
  - destruct i; discriminate.
  - destruct j as [| j]; [lia |]. cbn in Hb.
    destruct i as [| i]; cbn in Ha.
    + inversion Ha; subst. rewrite Forall_forall in Hall. apply Hall.
      eapply nth_error_In; eassumption.
    + apply (IH i j); auto. lia.
Qed.

Lemma nth_error_nth_Z {A} (xs : list A) (d : A) (i : Z) :
  0 <= i < Z.of_nat (List.length xs) ->
  nth_error xs (Z.to_nat i) = Some (nth (Z.to_nat i) xs d).
Proof.
  intros H. apply nth_error_nth'. lia.
Qed.

Lemma fileGE_mono {I : Type} (l : levelIter I) (key : string) :
  level_ok (files l) ->
  forall i j, 0 <= i <= j -> j < Z.of_nat (List.length (files l)) ->
              fileGE l key i = true -> fileGE l key j = true.
Proof.
  intros Hok i j Hij Hj Hi.
  destruct (Z.eq_dec i j) as [-> | Hne]; [assumption |].
  pose proof (level_ok_largest _ Hok) as Hs.
  pose proof (nth_error_nth_Z (files l) zeroFile i ltac:(lia)) as Ei.
  pose proof (nth_error_nth_Z (files l) zeroFile j ltac:(lia)) as Ej.
  pose proof (StronglySorted_nth _ _ (Z.to_nat i) (Z.to_nat j) _ _ Hs ltac:(lia) Ei Ej) as Hlt.
  destruct Hok as [Hall _]. rewrite Forall_forall in Hall.
  pose proof (Hall _ (nth_error_In _ _ Ei)) as [_ Hti].
  unfold fileGE in *.
  set (fi := nth (Z.to_nat i) (files l) zeroFile) in *.
  set (fj := nth (Z.to_nat j) (files l) zeroFile) in *.
  apply InternalCompare_lt_iff in Hlt.
  destruct (Z.ltb_spec 0 (Compare (UserKey (largest fi)) key)) as [Hci | Hci].
  - destruct Hlt as [Hlt | [Heq _]].
    + assert (Compare key (UserKey (largest fj)) < 0).
      { apply (Compare_lt_le_trans _ (UserKey (largest fi))); [| lia].
        apply Compare_flip_lt. lia. }
      assert (Compare (UserKey (largest fj)) key > 0) by (apply Compare_flip_lt; lia).
      destruct (Z.ltb_spec 0 (Compare (UserKey (largest fj)) key)); [reflexivity | lia].
    + pose proof (Compare_eq_l _ _ key Heq).
      destruct (Z.ltb_spec 0 (Compare (UserKey (largest fj)) key)); [reflexivity | lia].
  - apply andb_true_iff in Hi. destruct Hi as [Hc0 Hsent].
    apply Z.eqb_eq in Hc0. apply negb_true_iff, Z.eqb_neq in Hsent.
    destruct Hlt as [Hlt | [Heq Ht]].
    + assert (Compare key (UserKey (largest fj)) < 0).
      { apply (Compare_le_lt_trans _ (UserKey (largest fi))); [| lia].
        apply Compare_flip_eq in Hc0. lia. }
      assert (Compare (UserKey (largest fj)) key > 0) by (apply Compare_flip_lt; lia).
      destruct (Z.ltb_spec 0 (Compare (UserKey (largest fj)) key)); [reflexivity | lia].
    + pose proof (Compare_eq_l _ _ key Heq).
      destruct (Z.ltb_spec 0 (Compare (UserKey (largest fj)) key)); [reflexivity |].
      apply andb_true_iff. split; [apply Z.eqb_eq; lia |].
      apply negb_true_iff, Z.eqb_neq. lia.
Qed.

Lemma fileGE_iff {I : Type} (l : levelIter I) (key : string) (i : Z) (f : fileMetadata) :
  nth_error (files l) (Z.to_nat i) = Some f ->
  fileGE l key i = true <->
  0 < Compare (UserKey (largest f)) key \/
  (Compare (UserKey (largest f)) key = 0 /\
   Trailer (largest f) <> InternalKeyRangeDeleteSentinel).
Proof.
  intros E. unfold fileGE. rewrite (nth_error_nth _ _ zeroFile E).
  destruct (Z.ltb_spec 0 (Compare (UserKey (largest f)) key)).
  - split; auto.
  - rewrite andb_true_iff, Z.eqb_eq, negb_true_iff, Z.eqb_neq. split; [auto | lia].
Qed.

(** C3.  On the files of a level (sorted, not overlapping), [findFileGE k]
    returns the index of the first file whose largest user key is above [k],
    or equal to [k] with a trailer other than the range-delete sentinel
    (the number of files when there is none); the file it returns never has
    [(k, sentinel)] as its largest key. *)
Theorem findFileGE_first_file {I : Type} (l : levelIter I) (key : string) :
  level_ok (files l) ->
  let accepts (f : fileMetadata) :=
    0 < Compare (UserKey (largest f)) key \/
    (Compare (UserKey (largest f)) key = 0 /\
     Trailer (largest f) <> InternalKeyRangeDeleteSentinel) in
  0 <= findFileGE l key <= Z.of_nat (List.length (files l)) /\
  (forall i f, 0 <= i < findFileGE l key ->
               nth_error (files l) (Z.to_nat i) = Some f -> ~ accepts f) /\
  (forall f, nth_error (files l) (Z.to_nat (findFileGE l key)) = Some f ->
             accepts f /\
             ~ (Compare (UserKey (largest f)) key = 0 /\
                Trailer (largest f) = InternalKeyRangeDeleteSentinel)).
Proof.
  intros Hok accepts. unfold findFileGE.
  destruct (Search_first (Z.of_nat (List.length (files l))) (fileGE l key))
    as (H1 & H2 & H3); [lia | apply fileGE_mono; exact Hok |].
  split; [exact H1 |]. split.
  - intros i f Hi Ef Hacc. apply (fileGE_iff l key i f Ef) in Hacc.
    rewrite (H2 i Hi) in Hacc. discriminate.
  - intros f Ef.
    assert (Hlt : Search (Z.of_nat (List.length (files l))) (fileGE l key)
                  < Z.of_nat (List.length (files l))).
    { assert (Z.to_nat (Search (Z.of_nat (List.length (files l))) (fileGE l key))
              < List.length (files l))%nat
        by (apply nth_error_Some; congruence).
      lia. }
    pose proof (proj1 (fileGE_iff l key _ f Ef) (H3 Hlt)) as Hacc.
    split; [exact Hacc |]. unfold accepts.
    intros [Hc Ht]. destruct Hacc as [Hacc | [_ Hacc]]; [lia | contradiction].
Qed.

End FindFile.

(** ** The state machine of the level iterator *)

Section LevelIterFacts.
Context {C : Comparer} {I : Type} {II : internalIterator I}.
Variable newIters : fileMetadata -> option IterOptions -> option I * option I * option error.

Lemma store_rangeDelIter_fields (l : levelIter I) (t : option I) :
  opts (store_rangeDelIter l t) = opts l /\
  index (store_rangeDelIter l t) = index l /\
  boundary (store_rangeDelIter l t) = boundary l /\
  iter (store_rangeDelIter l t) = iter l /\
  files (store_rangeDelIter l t) = files l /\
  err (store_rangeDelIter l t) = err l /\
  isSome (rangeDelIter (store_rangeDelIter l t)) = isSome (rangeDelIter l).
Proof.
  unfold store_rangeDelIter. destruct (rangeDelIter l) eqn:E; cbn; rewrite ?E; auto 10.
Qed.

Lemma closeIter_fields (l : levelIter I) (it : I) :
  opts (closeIter l it) = opts l /\
  index (closeIter l it) = index l /\
  boundary (closeIter l it) = boundary l /\
  iter (closeIter l it) = Some (fst (iClose it)) /\
  files (closeIter l it) = files l /\
  err (closeIter l it) = snd (iClose it) /\
  rangeDelIter (closeIter l it) = rangeDelIter l.
Proof.
  unfold closeIter. destruct (iClose it) as [it' e]. cbn. auto 10.
Qed.

Lemma callIter_Ret (m : I -> I * bool) (l l' : levelIter I) (b : bool) :
  callIter m l = Ret (l', b) ->
  exists it, iter l = Some it /\ l' = set_iter l (Some (fst (m it))) /\ b = snd (m it).
Proof.
  unfold callIter. destruct (iter l) as [it |]; [| discriminate].
  destruct (m it) as [it' ok] eqn:E. intros H. inversion H; subst.
  exists it. rewrite E. cbn. auto.
Qed.

(** *** Errors *)

Lemma Next_after_error (l : levelIter I) (e : error) :
  err l = Some e -> Next newIters l = Ret (l, false).
Proof. intros H. unfold Next. rewrite H. reflexivity. Qed.

Lemma Prev_after_error (l : levelIter I) (e : error) :
  err l = Some e -> Prev newIters l = Ret (l, false).
Proof. intros H. unfold Prev. rewrite H. reflexivity. Qed.

Lemma Error_after_error (l : levelIter I) (e : error) :
  err l = Some e -> Error l = Some e.
Proof. intros H. unfold Error. rewrite H. destruct (iter l); reflexivity. Qed.

(** With no file iterator open, [Close] returns the error recorded before,
    whatever closing the range-del iterator returns. *)
Lemma Close_returns_recorded_error (l : levelIter I) (e : error) :
  err l = Some e -> iter l = None -> snd (Close l) = Some e.
Proof.
  intros He Hi. unfold Close. rewrite Hi. cbn [snd].
  destruct (rangeDelIter l) as [[t |] |] eqn:Er.
  - destruct (snd (iClose t)); rewrite ?He; cbn [isSome negb];
      rewrite (proj1 (proj2 (proj2 (proj2 (proj2 (proj2 (store_rangeDelIter_fields l None)))))));
      exact He.
  - rewrite (proj1 (proj2 (proj2 (proj2 (proj2 (proj2 (store_rangeDelIter_fields l None)))))));
      exact He.
  - exact He.
Qed.

(** With a file iterator open, [Close] returns what closing that iterator
    returns when it is an error, and the error recorded before is lost. *)
Lemma Close_overwrites_error (l : levelIter I) (it : I) :
  iter l = Some it -> rangeDelIter l = None -> snd (Close l) = snd (iClose it).
Proof.
  intros Hi Hr. unfold Close. rewrite Hi.
  destruct (closeIter_fields l it) as (_ & _ & _ & _ & _ & He & Hr').
  cbn [snd]. cbn [rangeDelIter set_iter]. rewrite Hr', Hr. cbn. exact He.
Qed.

(** *** Next and Prev off the ends *)


(** *** iter and boundary *)

Lemma loadFile_loop_boundary (fuel : nat) (l l' : levelIter I) (idx dir : Z) (b : bool) :
  loadFile_loop newIters fuel l idx dir = Ret (l', b) -> boundary l' = boundary l.
Proof.
  revert l idx. induction fuel as [| fuel IH]; intros l idx H; cbn [loadFile_loop] in H;
    [discriminate |].
  cbv zeta in H.
  destruct (_ || _).
  { inversion H; subst. reflexivity. }
  destruct (file_at _ _) as [f | |]; cbn [bind] in H; try discriminate.
  destruct (match GetLowerBound _ with Some _ => _ | None => _ end).
  { destruct (dir <? 0); [inversion H; subst; reflexivity |].
    apply IH in H. exact H. }
  destruct (match GetUpperBound _ with Some _ => _ | None => _ end).
  { destruct (0 <? dir); [inversion H; subst; reflexivity |].
    apply IH in H. exact H. }
  destruct (newIters f _) as [[it r] e].
  destruct (_ || _); inversion H; subst; [reflexivity |].
  rewrite (proj1 (proj2 (proj2 (store_rangeDelIter_fields _ _)))). reflexivity.
Qed.

Lemma loadFile_boundary (l l' : levelIter I) (idx dir : Z) (b : bool) :
  loadFile newIters l idx dir = Ret (l', b) -> boundary l' = None.
Proof.
  unfold loadFile. cbn [index set_boundary iter].
  destruct (index l =? idx).
  { intros H. inversion H; subst. reflexivity. }
  destruct (iter l) as [it |].
  - destruct (closeIter_fields (set_boundary l None) it) as (_ & _ & Hb & _ & _ & _ & _).
    destruct (isSome (err (closeIter (set_boundary l None) it))); cbn [negb].
    + intros H. inversion H; subst. exact Hb.
    + intros H. apply loadFile_loop_boundary in H. rewrite H.
      rewrite (proj1 (proj2 (proj2 (store_rangeDelIter_fields _ _)))). exact Hb.
  - cbn [negb]. intros H. apply loadFile_loop_boundary in H. rewrite H.
    rewrite (proj1 (proj2 (proj2 (store_rangeDelIter_fields _ _)))). reflexivity.
Qed.

(** Not both of [iter] and [boundary] are set. *)
Definition exclusive (l : levelIter I) : Prop := iter l = None \/ boundary l = None.

Lemma skipEmptyFileForward_loop_exclusive (fuel : nat) (l l' : levelIter I) (b : bool) :
  boundary l = None ->
  skipEmptyFileForward_loop newIters fuel l = Ret (l', b) -> exclusive l'.
Proof.
  revert l. induction fuel as [| fuel IH]; intros l Hb H; cbn [skipEmptyFileForward_loop] in H;
    [discriminate |].
  destruct (iter l) as [it |]; [| discriminate].
  destruct (closeIter_fields l it) as (_ & _ & Hb' & _ & _ & _ & _).
  destruct (isSome (err (closeIter l it))).
  { inversion H; subst. right. congruence. }
  cbv zeta in H.
  destruct (match rangeDelIter _ with Some _ => _ | None => _ end) as [[bd |] | |];
    cbn [bind] in H; try discriminate.
  { inversion H; subst. left. reflexivity. }
  destruct (loadFile newIters _ _ _) as [[l1 ok] | |] eqn:El; cbn [bind] in H;
    try discriminate.
  apply loadFile_boundary in El.
  destruct ok; cbn [negb] in H.
  - destruct (callIter iFirst l1) as [[l2 valid] | |] eqn:Ec; cbn [bind] in H;
      try discriminate.
    apply callIter_Ret in Ec. destruct Ec as (it1 & _ & -> & _).
    destruct valid.
    + inversion H; subst. right. exact El.
    + apply IH in H; [exact H | exact El].
  - inversion H; subst. right. exact El.
Qed.

Lemma skipEmptyFileBackward_loop_exclusive (fuel : nat) (l l' : levelIter I) (b : bool) :
  boundary l = None ->
  skipEmptyFileBackward_loop newIters fuel l = Ret (l', b) -> exclusive l'.
Proof.
  revert l. induction fuel as [| fuel IH]; intros l Hb H; cbn [skipEmptyFileBackward_loop] in H;
    [discriminate |].
  destruct (iter l) as [it |]; [| discriminate].
  destruct (closeIter_fields l it) as (_ & _ & Hb' & _ & _ & _ & _).
  destruct (isSome (err (closeIter l it))).
  { inversion H; subst. right. congruence. }
  cbv zeta in H.
  destruct (match rangeDelIter _ with Some _ => _ | None => _ end) as [[bd |] | |];
    cbn [bind] in H; try discriminate.
  { inversion H; subst. left. reflexivity. }
  destruct (loadFile newIters _ _ _) as [[l1 ok] | |] eqn:El; cbn [bind] in H;
    try discriminate.
  apply loadFile_boundary in El.
  destruct ok; cbn [negb] in H.
  - destruct (callIter iLast l1) as [[l2 valid] | |] eqn:Ec; cbn [bind] in H;
      try discriminate.
    apply callIter_Ret in Ec. destruct Ec as (it1 & _ & -> & _).
    destruct valid.
    + inversion H; subst. right. exact El.
    + apply IH in H; [exact H | exact El].
  - inversion H; subst. right. exact El.
Qed.

Lemma positioned_exclusive (m : I -> I * bool)
    (skip : levelIter I -> outcome (levelIter I * bool)) (l1 l' : levelIter I) (b : bool) :
  (forall l2 l3 b3, boundary l2 = None -> skip l2 = Ret (l3, b3) -> exclusive l3) ->
  boundary l1 = None ->
  (' (l2, ok) <- callIter m l1 ;; if ok then Ret (l2, true) else skip l2) = Ret (l', b) ->
  exclusive l'.
Proof.
  intros Hskip Hb H.
  destruct (callIter m l1) as [[l2 ok] | |] eqn:Ec; cbn [bind] in H; try discriminate.
  apply callIter_Ret in Ec. destruct Ec as (it & _ & -> & _).
  destruct ok.
  - inversion H; subst. right. exact Hb.
  - apply (Hskip (set_iter l1 (Some (fst (m it)))) l' b); [exact Hb | exact H].
Qed.

Lemma skipEmptyFileForward_exclusive (l l' : levelIter I) (b : bool) :
  boundary l = None -> skipEmptyFileForward newIters l = Ret (l', b) -> exclusive l'.
Proof. apply skipEmptyFileForward_loop_exclusive. Qed.

Lemma skipEmptyFileBackward_exclusive (l l' : levelIter I) (b : bool) :
  boundary l = None -> skipEmptyFileBackward newIters l = Ret (l', b) -> exclusive l'.
Proof. apply skipEmptyFileBackward_loop_exclusive. Qed.

(** A positioning method: [loadFile], then a move of the file iterator,
    then a skip over empty files. *)
Lemma loaded_exclusive (m : I -> I * bool)
    (skip : levelIter I -> outcome (levelIter I * bool))
    (l l' : levelIter I) (idx dir : Z) (b : bool) :
  (forall l2 l3 b3, boundary l2 = None -> skip l2 = Ret (l3, b3) -> exclusive l3) ->
  (' (l1, ok) <- loadFile newIters l idx dir ;;
   if negb ok then Ret (l1, false)
   else ' (l2, ok) <- callIter m l1 ;; if ok then Ret (l2, true) else skip l2)
  = Ret (l', b) ->
  exclusive l'.
Proof.
  intros Hskip H.
  destruct (loadFile newIters l idx dir) as [[l1 ok] | |] eqn:El; cbn [bind] in H;
    try discriminate.
  apply loadFile_boundary in El.
  destruct ok; cbn [negb] in H.
  - apply (positioned_exclusive m skip l1 l' b Hskip El H).
  - inversion H; subst. right. exact El.
Qed.

Lemma loaded_exclusive' (m : I -> I * bool)
    (skip : levelIter I -> outcome (levelIter I * bool))
    (l l' : levelIter I) (idx dir : Z) (b : bool) :
  (forall l2 l3 b3, boundary l2 = None -> skip l2 = Ret (l3, b3) -> exclusive l3) ->
  (' (l1, ok) <- loadFile newIters l idx dir ;;
   if ok then ' (l2, ok) <- callIter m l1 ;; if ok then Ret (l2, true) else skip l2
   else Ret (l1, false))
  = Ret (l', b) ->
  exclusive l'.
Proof.
  intros Hskip H. apply (loaded_exclusive m skip l l' idx dir b Hskip).
  destruct (loadFile newIters l idx dir) as [[l1 [|]] | |]; exact H.
Qed.

(** The methods of the iterator, as a caller issues them. *)
Inductive op : Type :=
| OpInitRangeDel (slot : option (option I))
| OpSeekGE (key : string)
| OpSeekLT (key : string)
| OpFirst
| OpLast
| OpNext
| OpPrev
| OpClose.

Definition run_op (o : op) (l : levelIter I) : outcome (levelIter I) :=
  match o with
  | OpInitRangeDel slot => Ret (initRangeDel l slot)
  | OpSeekGE key => ' (l', _) <- SeekGE newIters l key ;; Ret l'
  | OpSeekLT key => ' (l', _) <- SeekLT newIters l key ;; Ret l'
  | OpFirst => ' (l', _) <- First newIters l ;; Ret l'
  | OpLast => ' (l', _) <- Last newIters l ;; Ret l'
  | OpNext => ' (l', _) <- Next newIters l ;; Ret l'
  | OpPrev => ' (l', _) <- Prev newIters l ;; Ret l'
  | OpClose => Ret (fst (Close l))
  end.

(** The states a level iterator goes through: a new iterator, and the state
    after any method that returned. *)
Inductive reachable : levelIter I -> Prop :=
| reachable_new (o : option IterOptions) (fs : list fileMetadata) :
    reachable (newLevelIter o fs)
| reachable_step (l l' : levelIter I) (o : op) :
    reachable l -> run_op o l = Ret l' -> reachable l'.

Lemma run_op_exclusive (o : op) (l l' : levelIter I) :
  exclusive l -> run_op o l = Ret l' -> exclusive l'.
Proof.
  intros Hex H.
  destruct o; cbn [run_op] in H.
  - inversion H; subst. exact Hex.
  - destruct (SeekGE newIters l key) as [[l1 b] | |] eqn:E; cbn [bind] in H;
      inversion H; subst.
    apply (loaded_exclusive _ _ _ _ _ _ _ skipEmptyFileForward_exclusive E).
  - destruct (SeekLT newIters l key) as [[l1 b] | |] eqn:E; cbn [bind] in H;
      inversion H; subst.
    apply (loaded_exclusive _ _ _ _ _ _ _ skipEmptyFileBackward_exclusive E).
  - destruct (First newIters l) as [[l1 b] | |] eqn:E; cbn [bind] in H;
      inversion H; subst.
    apply (loaded_exclusive _ _ _ _ _ _ _ skipEmptyFileForward_exclusive E).
  - destruct (Last newIters l) as [[l1 b] | |] eqn:E; cbn [bind] in H;
      inversion H; subst.
    apply (loaded_exclusive _ _ _ _ _ _ _ skipEmptyFileBackward_exclusive E).
  - destruct (Next newIters l) as [[l1 b] | |] eqn:E; cbn [bind] in H;
      inversion H; subst.
    unfold Next in E.
    destruct (isSome (err l)); [inversion E; subst; exact Hex |].
    destruct (iter l) as [it |] eqn:Ei.
    + destruct Hex as [Hex | Hex]; [congruence |].
      apply (positioned_exclusive _ _ _ _ _ skipEmptyFileForward_exclusive Hex E).
    + destruct (isSome (boundary l)).
      * apply (loaded_exclusive' _ _ _ _ _ _ _ skipEmptyFileForward_exclusive E).
      * destruct (index l =? -1).
        -- apply (loaded_exclusive' _ _ _ _ _ _ _ skipEmptyFileForward_exclusive E).
        -- inversion E; subst. left. exact Ei.
  - destruct (Prev newIters l) as [[l1 b] | |] eqn:E; cbn [bind] in H;
      inversion H; subst.
    unfold Prev in E.
    destruct (isSome (err l)); [inversion E; subst; exact Hex |].
    destruct (iter l) as [it |] eqn:Ei.
    + destruct Hex as [Hex | Hex]; [congruence |].
      apply (positioned_exclusive _ _ _ _ _ skipEmptyFileBackward_exclusive Hex E).
    + destruct (isSome (boundary l)).
      * apply (loaded_exclusive' _ _ _ _ _ _ _ skipEmptyFileBackward_exclusive E).
      * cbv zeta in E. destruct (index l =? _).
        -- apply (loaded_exclusive' _ _ _ _ _ _ _ skipEmptyFileBackward_exclusive E).
        -- inversion E; subst. left. exact Ei.
  - inversion H; subst. left. unfold Close. cbn [fst].
    destruct (iter l) as [it |] eqn:Ei.
    + destruct (rangeDelIter (set_iter (closeIter l it) None)) as [[t |] |].
      * destruct (snd (iClose t)); [destruct (negb _) |];
          rewrite (proj1 (proj2 (proj2 (proj2 (store_rangeDelIter_fields _ _)))));
          reflexivity.
      * rewrite (proj1 (proj2 (proj2 (proj2 (store_rangeDelIter_fields _ _)))));
          reflexivity.
      * reflexivity.
    + destruct (rangeDelIter l) as [[t |] |].
      * destruct (snd (iClose t)); [destruct (negb _) |];
          rewrite (proj1 (proj2 (proj2 (proj2 (store_rangeDelIter_fields _ _)))));
          cbn; exact Ei.
      * rewrite (proj1 (proj2 (proj2 (proj2 (store_rangeDelIter_fields _ _)))));
          exact Ei.
      * exact Ei.
Qed.

Lemma reachable_exclusive (l : levelIter I) : reachable l -> exclusive l.
Proof.
  induction 1 as [o fs | l l' o _ IH H].
  - left. reflexivity.
  - apply (run_op_exclusive o l l' IH H).
Qed.

(** C5.  After any sequence of operations of the level iterator, when the
    iterator is on a valid entry ([Valid] is true), exactly one of [iter]
    and [boundary] is set. *)
Theorem valid_position_iter_xor_boundary (l : levelIter I) :
  reachable l -> Valid l = true ->
  xorb (isSome (iter l)) (isSome (boundary l)) = true.
Proof.
  intros Hr Hv. apply reachable_exclusive in Hr.
  unfold Valid in Hv.
  destruct (iter l) as [it |] eqn:Ei.
  - destruct Hr as [Hr | Hr]; [congruence |]. rewrite Hr. reflexivity.
  - rewrite Hv. reflexivity.
Qed.

(** *** Moving forward *)

Lemma file_at_Ret (l : levelIter I) (i : Z) :
  0 <= i < Z.of_nat (List.length (files l)) ->
  exists f, file_at l i = Ret f.
Proof.
  intros H. unfold file_at.
  destruct (Z.ltb_spec i 0); [lia |].
  destruct (Z.leb_spec (Z.of_nat (List.length (files l))) i); [lia |]. cbn [orb].
  destruct (nth_error (files l) (Z.to_nat i)) as [f |] eqn:E; [exists f; reflexivity |].
  apply nth_error_None in E. lia.
Qed.

Lemma file_at_files (l l' : levelIter I) (i : Z) :
  files l' = files l -> file_at l' i = file_at l i.
Proof. intros H. unfold file_at. rewrite H. reflexivity. Qed.

(** Forward, the loop of [loadFile] returns within the fuel [loadFile]
    gives it, at an index not below the one asked for. *)
Lemma loadFile_loop_forward (fuel : nat) (l : levelIter I) (idx : Z) :
  (0 < fuel)%nat ->
  (0 <= idx -> Z.of_nat (List.length (files l)) - idx < Z.of_nat fuel) ->
  exists l' b,
    loadFile_loop newIters fuel l idx 1 = Ret (l', b) /\
    idx <= index l' /\
    files l' = files l /\
    (b = true ->
     isSome (iter l') = true /\ 0 <= index l' < Z.of_nat (List.length (files l))).
Proof.
  revert l idx. induction fuel as [| fuel IH]; intros l idx Hpos Hfuel; [lia |].
  cbn [loadFile_loop]. cbv zeta. cbn [index set_index files].
  destruct (Z.ltb_spec idx 0) as [Hneg | Hnn]; cbn [orb].
  { eexists. eexists. split; [reflexivity |]. cbn. repeat split; try lia; discriminate. }
  destruct (Z.leb_spec (Z.of_nat (List.length (files l))) idx) as [Hout | Hin].
  { eexists. eexists. split; [reflexivity |]. cbn. repeat split; try lia; discriminate. }
  destruct (file_at_Ret (set_index l idx) idx) as [f Ef]; [cbn; lia |].
  rewrite Ef. cbn [bind opts set_index].
  assert (Hrec : exists l' b,
             loadFile_loop newIters fuel (set_index l idx) (idx + 1) 1 = Ret (l', b) /\
             idx <= index l' /\ files l' = files l /\
             (b = true ->
              isSome (iter l') = true /\ 0 <= index l' < Z.of_nat (List.length (files l)))).
  { destruct (IH (set_index l idx) (idx + 1)) as (l' & b & H1 & H2 & H3 & H4).
    - lia.
    - cbn. lia.
    - exists l', b. cbn in H3, H4. repeat split; auto; try lia; apply H4; auto. }
  destruct (match GetLowerBound (opts l) with Some _ => _ | None => _ end).
  { change (1 <? 0) with false. cbn iota. exact Hrec. }
  destruct (match GetUpperBound (opts l) with Some _ => _ | None => _ end).
  { change (0 <? 1) with true. cbn iota.
    eexists. eexists. split; [reflexivity |]. cbn. repeat split; try lia; discriminate. }
  destruct (newIters f (opts l)) as [[it r] e].
  destruct (isSome e || negb (isSome it)) eqn:Eb.
  - eexists. eexists. split; [reflexivity |]. cbn. repeat split; try lia; discriminate.
  - eexists. eexists. split; [reflexivity |].
    destruct (store_rangeDelIter_fields (set_err (set_iter (set_index l idx) it) e) r)
      as (_ & Hi & _ & Hit & Hf & _).
    rewrite Hi, Hit, Hf. cbn.
    apply orb_false_iff in Eb. destruct Eb as [_ Eb]. apply negb_false_iff in Eb.
    repeat split; auto; lia.
Qed.

Lemma loadFile_forward (l : levelIter I) (idx : Z) :
  index l <> idx -> iter l = None -> 0 <= idx ->
  exists l' b,
    loadFile newIters l idx 1 = Ret (l', b) /\
    idx <= index l' /\
    files l' = files l /\
    (b = true ->
     isSome (iter l') = true /\ 0 <= index l' < Z.of_nat (List.length (files l))).
Proof.
  intros Hne Hi Hidx. unfold loadFile. cbn [index set_boundary iter].
  destruct (Z.eqb_spec (index l) idx) as [| _]; [contradiction |].
  rewrite Hi. cbn [negb].
  destruct (store_rangeDelIter_fields (set_boundary l None) None)
    as (_ & _ & _ & _ & Hf & _).
  destruct (loadFile_loop_forward
              (S (List.length (files (store_rangeDelIter (set_boundary l None) None))))
              (store_rangeDelIter (set_boundary l None) None) idx)
    as (l' & b & H1 & H2 & H3 & H4); [lia | lia |].
  exists l', b. rewrite Hf in *. cbn in *. auto.
Qed.

(** Forward, the loop of [skipEmptyFileForward] returns within its fuel. *)
Lemma skipEmptyFileForward_loop_total (fuel : nat) (l : levelIter I) :
  isSome (iter l) = true ->
  0 <= index l < Z.of_nat (List.length (files l)) ->
  Z.of_nat (List.length (files l)) - index l <= Z.of_nat fuel ->
  exists l' b,
    skipEmptyFileForward_loop newIters fuel l = Ret (l', b) /\
    index l <= index l' /\
    files l' = files l /\
    (b = true -> 0 <= index l' < Z.of_nat (List.length (files l))).
Proof.
  revert l. induction fuel as [| fuel IH]; intros l Hi Hidx Hfuel; [lia |].
  cbn [skipEmptyFileForward_loop].
  destruct (iter l) as [it |]; [| discriminate].
  destruct (closeIter_fields l it) as (_ & Hci & _ & _ & Hcf & _ & Hcr).
  destruct (isSome (err (closeIter l it))).
  { eexists. eexists. split; [reflexivity |]. rewrite Hci, Hcf.
    repeat split; auto; lia. }
  cbv zeta. cbn [rangeDelIter set_iter index].
  rewrite Hcr, Hci.
  rewrite (file_at_files l (set_iter (closeIter l it) None) (index l)) by (cbn; exact Hcf).
  destruct (file_at_Ret l (index l) Hidx) as [f Ef]. rewrite Ef. cbn [bind].
  assert (Hgo : forall l0 : levelIter I,
             index l0 = index l -> files l0 = files l -> iter l0 = None ->
             exists l' b,
               (' (l1, ok) <- loadFile newIters l0 (index l0 + 1) 1 ;;
                if negb ok then Ret (l1, false)
                else ' (l2, valid) <- callIter iFirst l1 ;;
                     if valid then Ret (l2, true)
                     else skipEmptyFileForward_loop newIters fuel l2) = Ret (l', b) /\
               index l <= index l' /\ files l' = files l /\
               (b = true -> 0 <= index l' < Z.of_nat (List.length (files l)))).
  { intros l0 H0i H0f H0it.
    destruct (loadFile_forward l0 (index l0 + 1)) as (l1 & ok & H1 & H2 & H3 & H4);
      [lia | exact H0it | lia |].
    rewrite H1. cbn [bind]. rewrite H0f in *. rewrite H0i in *.
    destruct ok; cbn [negb].
    - destruct (H4 eq_refl) as [H5 H6].
      unfold callIter. destruct (iter l1) as [it1 |]; [| discriminate].
      destruct (iFirst it1) as [it1' valid]. cbn [bind].
      destruct valid.
      + eexists. eexists. split; [reflexivity |]. cbn. repeat split; auto; lia.
      + destruct (IH (set_iter l1 (Some it1'))) as (l' & b & K1 & K2 & K3 & K4).
        * reflexivity.
        * cbn. rewrite H3. lia.
        * cbn. rewrite H3. lia.
        * exists l', b. cbn in K2, K3, K4. rewrite H3 in *.
          repeat split; auto; try lia; apply K4; auto.
    - eexists. eexists. split; [reflexivity |]. repeat split; auto; try lia; discriminate. }
  destruct (rangeDelIter l) as [slot |] eqn:Er; cbn [bind].
  - destruct (Kind (largest f) =? InternalKeyKindRangeDelete); cbn [bind].
    + eexists. eexists. split; [reflexivity |]. cbn. rewrite Hci, Hcf.
      repeat split; auto; lia.
    + apply Hgo.
      * rewrite (proj1 (proj2 (store_rangeDelIter_fields _ _))). cbn. exact Hci.
      * rewrite (proj1 (proj2 (proj2 (proj2 (proj2 (store_rangeDelIter_fields _ _)))))).
        cbn. exact Hcf.
      * rewrite (proj1 (proj2 (proj2 (proj2 (store_rangeDelIter_fields _ _))))).
        reflexivity.
  - apply Hgo.
    + rewrite (proj1 (proj2 (store_rangeDelIter_fields _ _))). cbn. exact Hci.
    + rewrite (proj1 (proj2 (proj2 (proj2 (proj2 (store_rangeDelIter_fields _ _)))))).
      cbn. exact Hcf.
    + rewrite (proj1 (proj2 (proj2 (proj2 (store_rangeDelIter_fields _ _))))).
      reflexivity.
Qed.

(** *** The boundary of a file *)

(** The state at the boundary key of the current file. *)
Definition atBoundary (l : levelIter I) (b : InternalKey) : levelIter I :=
  {| opts := opts l; index := index l; boundary := Some b; iter := None;
     rangeDelIter := rangeDelIter l; files := files l; err := None |}.

(** Whatever method found the file iterator exhausted, the skip over empty
    files stops at a RANGEDEL largest key when a slot is installed. *)
Lemma skipEmptyFileForward_at_boundary (l : levelIter I) (it : I) (slot : option I)
    (f : fileMetadata) :
  iter l = Some it ->
  snd (iClose it) = None ->
  rangeDelIter l = Some slot ->
  file_at l (index l) = Ret f ->
  Kind (largest f) = InternalKeyKindRangeDelete ->
  skipEmptyFileForward newIters l = Ret (atBoundary l (largest f), true).
Proof.
  intros Hi Hc Hr Hf Hk.
  unfold skipEmptyFileForward. cbn [skipEmptyFileForward_loop]. rewrite Hi.
  unfold closeIter. destruct (iClose it) as [it' e]. cbn in Hc. subst e.
  cbn [err set_err isSome]. cbv zeta. cbn [rangeDelIter set_iter set_err index].
  rewrite Hr.
  rewrite (file_at_files l _ (index l)) by reflexivity.
  rewrite Hf. cbn [bind]. rewrite Hk, Z.eqb_refl. cbn [bind].
  reflexivity.
Qed.

(** C4.  With a range-del slot installed, when [Next] finds the point
    iterator of the current file exhausted (and closes it without error)
    and the largest key of the file has kind RANGEDEL, [Next] returns true
    with [boundary] set to that key, [iter] nil and the slot as it was;
    [Key] is the largest key of the file, [Value] is nil.  The following
    [Next] returns, having moved [index] to a later file or past the end;
    it returns true only inside the level. *)
Theorem boundary_materialization (l : levelIter I) (it it1 : I) (slot : option I)
    (f : fileMetadata) :
  err l = None ->
  iter l = Some it ->
  rangeDelIter l = Some slot ->
  file_at l (index l) = Ret f ->
  Kind (largest f) = InternalKeyKindRangeDelete ->
  iNext it = (it1, false) ->
  snd (iClose it1) = None ->
  exists l',
    Next newIters l = Ret (l', true) /\
    boundary l' = Some (largest f) /\
    iter l' = None /\
    rangeDelIter l' = Some slot /\
    index l' = index l /\
    Valid l' = true /\
    Key l' = largest f /\
    Value l' = None /\
    exists l'' b,
      Next newIters l' = Ret (l'', b) /\
      index l' < index l'' /\
      (b = true -> index l'' < Z.of_nat (List.length (files l))).
Proof.
  intros He Hi Hr Hf Hk Hn Hc.
  exists (atBoundary l (largest f)).
  assert (Hidx : 0 <= index l < Z.of_nat (List.length (files l))).
  { unfold file_at in Hf.
    destruct (Z.ltb_spec (index l) 0); [discriminate |].
    destruct (Z.leb_spec (Z.of_nat (List.length (files l))) (index l)); [discriminate |].
    lia. }
  split.
  { unfold Next. rewrite He, Hi. cbn [isSome].
    unfold callIter. rewrite Hi, Hn. cbn [bind].
    rewrite (skipEmptyFileForward_at_boundary (set_iter l (Some it1)) it1 slot f);
      auto. }
  repeat split; auto.
  unfold Next. cbn [err atBoundary isSome iter boundary index].
  destruct (loadFile_forward (atBoundary l (largest f)) (index l + 1))
    as (l1 & ok & H1 & H2 & H3 & H4); [cbn; lia | reflexivity | lia |].
  cbn [index atBoundary] in H1. unfold atBoundary in *. rewrite H1. cbn [bind].
  cbn [files] in H3, H4.
  destruct ok.
  - destruct (H4 eq_refl) as [H5 H6].
    unfold callIter. destruct (iter l1) as [it2 |]; [| discriminate].
    destruct (iFirst it2) as [it2' valid]. cbn [bind].
    destruct valid.
    + eexists. eexists. split; [reflexivity |]. cbn. split; [lia |]. intros _. lia.
    + destruct (skipEmptyFileForward_loop_total
                  (S (List.length (files (set_iter l1 (Some it2')))))
                  (set_iter l1 (Some it2')))
        as (l2 & b & K1 & K2 & K3 & K4).
      * reflexivity.
      * cbn. rewrite H3. lia.
      * cbn. rewrite H3. lia.
      * exists l2, b. unfold skipEmptyFileForward. rewrite K1.
        cbn in K2, K4. rewrite H3 in K4.
        split; [reflexivity |]. split; [lia |]. intros Hb. apply K4. exact Hb.
  - eexists. eexists. split; [reflexivity |]. split; [lia | discriminate].
Qed.

End LevelIterFacts.

(** * Further properties of the memtable *)

(** ** References *)

Lemma int32_small (x : Z) : - 2 ^ 31 <= x < 2 ^ 31 -> int32 x = x.
Proof.
  intros H. unfold int32. rewrite Z.mod_small by lia. lia.
Qed.


(** X2.  On a memtable whose arena and reservation are within the capacity,
    a [prepare] that succeeds adds the batch's size to the reservation
    (counted from the size of the arena when no other batch is pending),
    keeps the reservation within the capacity, takes one reference and
    touches nothing else. *)
Theorem prepare_reserves_within_capacity (m m' : memTable) (batch : Batch) :
  0 <= arenaskl.Size (arena m) <= arenaskl.Capacity (arena m) ->
  arenaskl.Capacity (arena m) < 2 ^ 32 ->
  0 <= reserved m <= arenaskl.Capacity (arena m) ->
  0 <= memTableSize batch ->
  prepare m batch = (m', None) ->
  reserved m' =
    (if refs m =? 1 then arenaskl.Size (arena m) else reserved m) + memTableSize batch /\
  reserved m' <= arenaskl.Capacity (arena m') /\
  refs m' = int32 (refs m + 1) /\
  skl m' = skl m /\ rangeDelSkl m' = rangeDelSkl m /\ arena m' = arena m /\
  tombstones_count m' = tombstones_count m /\ tombstones_vals m' = tombstones_vals m.
Proof.
  intros Hs Hc Hr Hb. unfold prepare.
  set (base := if refs m =? 1 then arenaskl.Size (arena m) else reserved m).
  assert (Hbase : 0 <= base <= arenaskl.Capacity (arena m))
    by (subst base; destruct (refs m =? 1); lia).
  assert (E : reserved (if refs m =? 1 then set_reserved m (arenaskl.Size (arena m)) else m)
              = base) by (subst base; destruct (refs m =? 1); reflexivity).
  rewrite E.
  assert (Ew : wrap32 (arenaskl.Capacity (arena m) - base)
               = arenaskl.Capacity (arena m) - base)
    by (unfold wrap32; apply Z.mod_small; lia).
  rewrite Ew.
  destruct (Z.ltb_spec (arenaskl.Capacity (arena m) - base) (memTableSize batch))
    as [Hlt | Hge]; [discriminate |].
  intros Hp. inversion Hp; subst m'. clear Hp.
  assert (Ew2 : wrap32 (base + memTableSize batch) = base + memTableSize batch)
    by (unfold wrap32; apply Z.mod_small; lia).
  rewrite Ew2. unfold ref.
  destruct (refs m =? 1); cbn; repeat split; auto; lia.
Qed.

(** X3.  A batch that was prepared holds the memtable: it is not ready for
    flush, and the [unref] that follows the apply returns false and gives
    back exactly the reference [prepare] took. *)
Theorem prepare_then_unref (m m' : memTable) (batch : Batch) :
  0 < refs m < 2 ^ 31 - 1 ->
  prepare m batch = (m', None) ->
  readyForFlush m' = false /\
  unref m' = Ret (set_refs m' (refs m), false).
Proof.
  intros Hr. unfold prepare.
  destruct (_ <? _); [discriminate |].
  intros H. inversion H; subst m'. clear H.
  unfold ref, unref, readyForFlush.
  match goal with |- context [set_refs ?x (int32 (refs ?x + 1))] => set (m1 := x) end.
  assert (E1 : refs m1 = refs m) by (subst m1; destruct (refs m =? 1); reflexivity).
  cbn [refs set_refs]. rewrite E1, (int32_small (refs m + 1)) by lia.
  replace (refs m + 1 - 1) with (refs m) by lia. rewrite int32_small by lia.
  destruct (Z.eqb_spec (refs m + 1) 0); [lia |].
  destruct (Z.ltb_spec (refs m) 0); [lia |].
  destruct (Z.eqb_spec (refs m) 0); [lia |].
  split; reflexivity.
Qed.

(** ** Writes *)

Section WriteFacts.
Context {C : Comparer}.
Variable MaxNodeSize : Z -> Z -> Z.

Lemma Equal_refl (a : string) : Equal a a = true.
Proof. apply Equal_iff. apply Compare_refl. Qed.

Lemma insert_length (key : InternalKey) (value : string) (s s' : arenaskl.Skiplist) :
  arenaskl.insert key value s = Some s' -> List.length s' = S (List.length s).
Proof.
  revert s'. induction s as [| [k v] rest IH]; intros s' H; cbn in H.
  - inversion H; reflexivity.
  - destruct (InternalCompare key k <? 0); [inversion H; reflexivity |].
    destruct (InternalCompare key k =? 0); [discriminate |].
    destruct (arenaskl.insert key value rest) as [r |]; [| discriminate].
    cbn in H. inversion H; subst. cbn. rewrite (IH r eq_refl). reflexivity.
Qed.

Lemma Add_length (s s' : arenaskl.Skiplist) (a a' : arenaskl.Arena)
    (key : InternalKey) (value : string) :
  arenaskl.Add MaxNodeSize s a key value = (s', a', None) ->
  List.length s' = S (List.length s).
Proof.
  unfold arenaskl.Add.
  destruct (arenaskl.insert key value s) eqn:E; [destruct (_ <? _) |];
    intros H; inversion H; subst.
  eapply insert_length; eassumption.
Qed.

(** X4.  Insert, then look up: after [set] has stored [key] (not a range
    deletion) above every entry the memtable holds for its user key, [get]
    of that user key returns the value given to [set], or NotFound when the
    key is a DELETE. *)
Theorem set_then_get (m m' : memTable) (key : InternalKey) (value : string) :
  arenaskl.sorted (skl m) ->
  Kind key <> InternalKeyKindRangeDelete ->
  (forall e v, In (e, v) (skl m) -> Equal (UserKey key) (UserKey e) = true ->
               Trailer e < Trailer key) ->
  set MaxNodeSize m key value = (m', None) ->
  get m' (UserKey key) =
    if Kind key =? InternalKeyKindDelete then (None, Some ErrNotFound)
    else (Some value, None).
Proof.
  intros Hs Hk Hnew. unfold set.
  destruct (Z.eqb_spec (Kind key) InternalKeyKindRangeDelete) as [| _]; [contradiction |].
  destruct (arenaskl.Add MaxNodeSize (skl m) (arena m) key value) as [[s a] err] eqn:E.
  intros H. inversion H; subst. clear H.
  apply get_found; cbn [skl set_skl].
  - pose proof (Add_sorted MaxNodeSize (skl m) (arena m) key value Hs) as K.
    rewrite E in K. exact K.
  - apply (Add_In _ _ _ _ _ _ _ E). left. reflexivity.
  - apply Equal_refl.
  - intros e' v' Hin Heq Hne.
    apply (Add_In _ _ _ _ _ _ _ E) in Hin. destruct Hin as [Hin | Hin].
    + inversion Hin; subst. contradiction.
    + apply (Hnew e' v' Hin Heq).
Qed.

Lemma apply_entry_sorted (m : memTable) (seqNum : Z) (e : Z * string * string) :
  arenaskl.sorted (skl m) -> arenaskl.sorted (rangeDelSkl m) ->
  arenaskl.sorted (skl (fst (apply_entry MaxNodeSize m seqNum e))) /\
  arenaskl.sorted (rangeDelSkl (fst (apply_entry MaxNodeSize m seqNum e))).
Proof.
  intros H1 H2. destruct e as [[kind ukey] value]. unfold apply_entry.
  destruct (kind =? InternalKeyKindRangeDelete).
  - pose proof (Add_sorted MaxNodeSize (rangeDelSkl m) (arena m)
                  (MakeInternalKey ukey seqNum kind) value H2) as K.
    destruct (arenaskl.Add _ _ _ _ _) as [[s a] err]. cbn in *. auto.
  - pose proof (Add_sorted MaxNodeSize (skl m) (arena m)
                  (MakeInternalKey ukey seqNum kind) value H1) as K.
    destruct (arenaskl.Add _ _ _ _ _) as [[s a] err]. cbn in *. auto.
Qed.

Lemma apply_loop_sorted (es : list (Z * string * string)) (m : memTable) (seqNum : Z) :
  arenaskl.sorted (skl m) -> arenaskl.sorted (rangeDelSkl m) ->
  arenaskl.sorted (skl (fst (fst (apply_loop MaxNodeSize m es seqNum)))) /\
  arenaskl.sorted (rangeDelSkl (fst (fst (apply_loop MaxNodeSize m es seqNum)))).
Proof.
  revert m seqNum. induction es as [| e rest IH]; intros m seqNum H1 H2; cbn; [auto |].
  pose proof (apply_entry_sorted m seqNum e H1 H2) as [K1 K2].
  destruct (apply_entry MaxNodeSize m seqNum e) as [m1 [err |]]; cbn in *; auto.
Qed.

(** X5.  [apply] and [set] keep both skiplists in internal-key order,
    whether they succeed or stop at a failed insert. *)
Theorem writes_keep_order (m : memTable) :
  arenaskl.sorted (skl m) -> arenaskl.sorted (rangeDelSkl m) ->
  (forall batch seqNum m' err,
      apply MaxNodeSize m batch seqNum = Ret (m', err) ->
      arenaskl.sorted (skl m') /\ arenaskl.sorted (rangeDelSkl m')) /\
  (forall key value,
      arenaskl.sorted (skl (fst (set MaxNodeSize m key value))) /\
      arenaskl.sorted (rangeDelSkl (fst (set MaxNodeSize m key value)))).
Proof.
  intros H1 H2. split.
  - intros batch seqNum m' err. unfold apply.
    pose proof (apply_loop_sorted (entries batch) m seqNum H1 H2) as K.
    destruct (apply_loop MaxNodeSize m (entries batch) seqNum) as [[m1 s1] e1].
    cbn in K. destruct e1.
    + intros H. inversion H; subst. exact K.
    + destruct (negb _); [discriminate |]. intros H. inversion H; subst. exact K.
  - intros key value. unfold set.
    destruct (Kind key =? InternalKeyKindRangeDelete).
    + pose proof (Add_sorted MaxNodeSize (rangeDelSkl m) (arena m) key value H2) as K.
      destruct (arenaskl.Add _ _ _ _ _) as [[s a] [e |]]; cbn in *; auto.
    + pose proof (Add_sorted MaxNodeSize (skl m) (arena m) key value H1) as K.
      destruct (arenaskl.Add _ _ _ _ _) as [[s a] e]; cbn in *; auto.
Qed.

(** X6.  [set] keeps the tombstone count equal to the number of tombstones
    stored: it counts a range deletion only when the Add succeeded, and
    then clears the cache; any other [set] leaves count and cache alone. *)
Theorem set_keeps_tombstone_count (m : memTable) (key : InternalKey) (value : string) :
  tombstones_count m = Z.of_nat (List.length (rangeDelSkl m)) ->
  Z.of_nat (List.length (rangeDelSkl m)) < 2 ^ 32 - 1 ->
  let m' := fst (set MaxNodeSize m key value) in
  tombstones_count m' = Z.of_nat (List.length (rangeDelSkl m')) /\
  (rangeDelSkl m' <> rangeDelSkl m -> tombstones_vals m' = None) /\
  (rangeDelSkl m' = rangeDelSkl m -> tombstones_vals m' = tombstones_vals m).
Proof.
  intros Hc Hn. cbv zeta. unfold set.
  destruct (Kind key =? InternalKeyKindRangeDelete).
  - destruct (arenaskl.Add MaxNodeSize (rangeDelSkl m) (arena m) key value)
      as [[s a] [e |]] eqn:E; cbn.
    + destruct (Add_failed _ _ _ _ _ _ _ _ E) as [-> ->]. repeat split; auto.
      intros K. contradiction.
    + pose proof (Add_length _ _ _ _ _ _ E) as L. rewrite L.
      unfold wrap32. rewrite Z.mod_small by lia.
      repeat split; auto; try lia.
      intros K. rewrite K in L. lia.
  - destruct (arenaskl.Add MaxNodeSize (skl m) (arena m) key value) as [[s a] e]; cbn.
    repeat split; auto. intros K. contradiction.
Qed.

(** X8.  A failed [apply] is partial and visible: when the entries before
    the failing one were inserted, [apply] returns the error of the failing
    insert, every earlier entry is stored under its sequence number, and the
    failing entry and the ones after it are not stored. *)
Theorem apply_stops_at_failed_insert (m m1 m2 : memTable) (batch : Batch)
    (startSeqNum seq1 : Z) (pre post : list (Z * string * string))
    (e : Z * string * string) (err : error) :
  0 <= startSeqNum < 2 ^ 64 ->
  entries batch = pre ++ e :: post ->
  apply_loop MaxNodeSize m pre startSeqNum = (m1, seq1, None) ->
  apply_entry MaxNodeSize m1 seq1 e = (m2, Some err) ->
  apply MaxNodeSize m batch startSeqNum = Ret (m2, Some err) /\
  skl m2 = skl m1 /\ rangeDelSkl m2 = rangeDelSkl m1 /\
  seq1 = wrap64 (startSeqNum + Z.of_nat (List.length pre)) /\
  forall i kind ukey value,
    nth_error pre i = Some (kind, ukey, value) ->
    In (MakeInternalKey ukey (wrap64 (startSeqNum + Z.of_nat i)) kind, value)
       (skl_of kind m2).
Proof.
  intros Hr Hes Hpre He.
  destruct (apply_loop_seqnums MaxNodeSize pre m m1 startSeqNum seq1 Hr Hpre) as [Hs Hin].
  assert (Hsame : skl m2 = skl m1 /\ rangeDelSkl m2 = rangeDelSkl m1).
  { destruct e as [[kind ukey] value]. unfold apply_entry in He.
    destruct (kind =? InternalKeyKindRangeDelete).
    - destruct (arenaskl.Add _ _ _ _ _) as [[s a] er] eqn:E.
      inversion He; subst. destruct (Add_failed _ _ _ _ _ _ _ _ E) as [-> ->].
      cbn. auto.
    - destruct (arenaskl.Add _ _ _ _ _) as [[s a] er] eqn:E.
      inversion He; subst. destruct (Add_failed _ _ _ _ _ _ _ _ E) as [-> ->].
      cbn. auto. }
  split; [| split; [exact (proj1 Hsame) | split; [exact (proj2 Hsame) | split; [exact Hs |]]]].
  - unfold apply. rewrite Hes, (apply_loop_app MaxNodeSize _ _ _ _ _ _ Hpre).
    cbn [apply_loop]. rewrite He. reflexivity.
  - intros i kind ukey value Hi. specialize (Hin i kind ukey value Hi).
    unfold skl_of in *. destruct Hsame as [-> ->]. exact Hin.
Qed.

End WriteFacts.

(** ** Reads of the range tombstones *)

Section CacheFacts.
Context {C : Comparer}.
Variable MaxNodeSize : Z -> Z -> Z.
Variable fragment : arenaskl.Skiplist -> list Tombstone.

(** The cache is coherent: its pointer leads into the heap, and a cached
    sequence that is not empty is the fragmentation of the stored
    tombstones. *)
Definition cache_ok (m : memTable) : Prop :=
  match tombstones_vals m with
  | None => True
  | Some p =>
      (p < List.length (heap m))%nat /\
      (deref m p <> [] -> deref m p = fragment (rangeDelSkl m))
  end.

Lemma apply_entry_cache_ok (m : memTable) (seqNum : Z) (e : Z * string * string) :
  cache_ok m -> cache_ok (fst (apply_entry MaxNodeSize m seqNum e)).
Proof.
  intros H. destruct e as [[kind ukey] value]. unfold apply_entry.
  destruct (kind =? InternalKeyKindRangeDelete).
  - destruct (arenaskl.Add _ _ _ _ _) as [[s a] err]. cbn. exact I.
  - destruct (arenaskl.Add _ _ _ _ _) as [[s a] err]. cbn. exact H.
Qed.

Lemma apply_loop_cache_ok (es : list (Z * string * string)) (m : memTable) (seqNum : Z) :
  cache_ok m -> cache_ok (fst (fst (apply_loop MaxNodeSize m es seqNum))).
Proof.
  revert m seqNum. induction es as [| e rest IH]; intros m seqNum H; cbn; [exact H |].
  pose proof (apply_entry_cache_ok m seqNum e H) as K.
  destruct (apply_entry MaxNodeSize m seqNum e) as [m1 [err |]]; cbn in *; auto.
Qed.

(** X7.  Without other goroutines the cache stays coherent under [apply],
    and a read of a memtable that counts a tombstone returns the
    fragmentation of the tombstones stored at that moment, from the cache
    or built anew, and leaves the cache coherent. *)
Theorem reads_see_stored_tombstones (m : memTable) :
  cache_ok m ->
  (forall batch seqNum m' err,
      apply MaxNodeSize m batch seqNum = Ret (m', err) -> cache_ok m') /\
  (tombstones_count m <> 0 ->
   exists m',
     newRangeDelIter fragment alone m = Ret (m', Some (fragment (rangeDelSkl m))) /\
     rangeDelSkl m' = rangeDelSkl m /\
     cached m' = Some (fragment (rangeDelSkl m)) /\
     cache_ok m').
Proof.
  intros Hok. split.
  - intros batch seqNum m' err. unfold apply.
    pose proof (apply_loop_cache_ok (entries batch) m seqNum Hok) as K.
    destruct (apply_loop MaxNodeSize m (entries batch) seqNum) as [[m1 s1] e1].
    cbn in K. destruct e1.
    + intros H. inversion H; subst. exact K.
    + destruct (negb _); [discriminate |]. intros H. inversion H; subst. exact K.
  - intros Hc. unfold newRangeDelIter.
    destruct (Z.eqb_spec (tombstones_count m) 0) as [| _]; [contradiction |].
    unfold cache_ok in Hok.
    assert (Hbuild : forall tombstonesPtr,
               tombstones_vals m = tombstonesPtr ->
               match tombstonesPtr with
               | Some p => (p < List.length (heap m))%nat /\ deref m p = []
               | None => True
               end ->
               exists m',
                 (m' <- publish tombstonesPtr (fragment (rangeDelSkl m))
                          (List.length (heap m)) (in_loop alone)
                          (alloc m (fragment (rangeDelSkl m))) ;;
                  Ret (m', Some (fragment (rangeDelSkl m))))
                 = Ret (m', Some (fragment (rangeDelSkl m))) /\
                 rangeDelSkl m' = rangeDelSkl m /\
                 cached m' = Some (fragment (rangeDelSkl m)) /\
                 cache_ok m').
    { intros ptr Ep Hp.
      exists (set_tombstones_vals (alloc m (fragment (rangeDelSkl m)))
                (Some (List.length (heap m)))).
      assert (Hnew : deref (set_tombstones_vals (alloc m (fragment (rangeDelSkl m)))
                              (Some (List.length (heap m)))) (List.length (heap m))
                     = fragment (rangeDelSkl m)).
      { unfold deref. cbn [heap set_tombstones_vals alloc]. apply nth_middle. }
      split; [| split; [reflexivity | split]].
      - destruct ptr as [p |].
        + destruct Hp as [Hlt Hd].
          assert (Hd' : deref (alloc m (fragment (rangeDelSkl m))) p = []).
          { unfold deref, alloc in *. cbn [heap]. rewrite app_nth1 by assumption.
            exact Hd. }
          cbn [alone in_loop publish]. unfold publish_turn.
          cbn [tombstones_vals alloc] in *. rewrite Ep, Hd'.
          replace (List.length (fragment (rangeDelSkl m)) <? List.length (@nil Tombstone))%nat
            with false by (symmetry; apply Nat.ltb_ge; cbn; lia).
          cbn [bind]. rewrite ptr_eqb_refl. reflexivity.
        + cbn [alone in_loop publish]. unfold publish_turn.
          cbn [tombstones_vals alloc]. rewrite Ep.
          cbn [bind]. rewrite ptr_eqb_refl. reflexivity.
      - unfold cached. cbn [tombstones_vals set_tombstones_vals option_map].
        rewrite Hnew. reflexivity.
      - unfold cache_ok. cbn [tombstones_vals set_tombstones_vals].
        split; [cbn; rewrite length_app; cbn; lia |].
        intros _. rewrite Hnew. reflexivity. }
    destruct (tombstones_vals m) as [p |] eqn:Ep.
    + destruct Hok as [Hlt Hfr].
      destruct (deref m p) as [| t rest] eqn:Ed.
      * apply (Hbuild (Some p) eq_refl). auto.
      * assert (Hts : t :: rest = fragment (rangeDelSkl m)) by (apply Hfr; discriminate).
        exists m. rewrite <- Hts.
        split; [reflexivity |]. split; [reflexivity |].
        split; [unfold cached; rewrite Ep; cbn; rewrite Ed; reflexivity |].
        unfold cache_ok. rewrite Ep. split; [exact Hlt |]. intros _. rewrite Ed. exact Hts.
    + apply (Hbuild None eq_refl). exact I.
Qed.

End CacheFacts.

(** * Further properties of the level iterator *)

(** ** findFileLT *)

Section FindFileLT.
Context {C : Comparer}.

Lemma ikey_le_lt_trans (a b c : InternalKey) :
  InternalCompare a b <= 0 -> ikey_lt b c -> ikey_lt a c.
Proof.
  intros Hab Hbc.
  destruct (Z.eq_dec (InternalCompare a b) 0) as [E | E].
  - apply InternalCompare_eq_iff in E. destruct E as [Eu Et].
    apply InternalCompare_lt_iff in Hbc. apply InternalCompare_lt_iff.
    pose proof (Compare_eq_l _ _ (UserKey c) Eu) as Hsgn.
    destruct Hbc as [H | [H1 H2]]; [left | right]; lia.
  - apply (ikey_lt_trans a b c); [| assumption]. unfold ikey_lt. lia.
Qed.

Lemma level_ok_smallest (fs : list fileMetadata) :
  level_ok fs -> StronglySorted (fun f g => ikey_lt (smallest f) (smallest g)) fs.
Proof.
  intros [Hall Hs].
  apply Sorted_StronglySorted.
  { intros a b c. apply ikey_lt_trans. }
  induction Hs as [| f fs Hs IH Hd]; constructor.
  - apply IH. inversion Hall; assumption.
  - destruct Hd as [| g fs' Hfg]; constructor.
    inversion Hall as [| ? ? [Hf _] _]; subst.
    apply (ikey_le_lt_trans _ (largest f)); assumption.
Qed.

(** The predicate of the search in [findFileLT]. *)
Definition fileNotLT {I : Type} (l : levelIter I) (key : string) (i : Z) : bool :=
  0 <=? Compare (UserKey (smallest (nth (Z.to_nat i) (files l) zeroFile))) key.

Lemma fileNotLT_mono {I : Type} (l : levelIter I) (key : string) :
  level_ok (files l) ->
  forall i j, 0 <= i <= j -> j < Z.of_nat (List.length (files l)) ->
              fileNotLT l key i = true -> fileNotLT l key j = true.
Proof.
  intros Hok i j Hij Hj Hi.
  destruct (Z.eq_dec i j) as [-> | Hne]; [assumption |].
  pose proof (level_ok_smallest _ Hok) as Hs.
  pose proof (nth_error_nth_Z (files l) zeroFile i ltac:(lia)) as Ei.
  pose proof (nth_error_nth_Z (files l) zeroFile j ltac:(lia)) as Ej.
  pose proof (StronglySorted_nth _ _ (Z.to_nat i) (Z.to_nat j) _ _ Hs ltac:(lia) Ei Ej) as Hlt.
  unfold fileNotLT in *.
  set (fi := nth (Z.to_nat i) (files l) zeroFile) in *.
  set (fj := nth (Z.to_nat j) (files l) zeroFile) in *.
  apply Z.leb_le in Hi. apply Z.leb_le.
  apply InternalCompare_lt_iff in Hlt.
  assert (Hij' : Compare (UserKey (smallest fi)) (UserKey (smallest fj)) <= 0)
    by (destruct Hlt as [Hlt | [Hlt _]]; lia).
  assert (Hk : Compare key (UserKey (smallest fi)) <= 0)
    by (apply Compare_flip_le; lia).
  pose proof (Compare_trans _ _ _ Hk Hij') as Hkj.
  apply Compare_flip_le in Hkj. lia.
Qed.

(** X9.  On the files of a level, [findFileLT k] returns the index of the
    last file whose smallest user key is below [k], or -1 when there is
    none: every file up to it starts below [k], every file after it starts
    at [k] or above. *)
Theorem findFileLT_last_file {I : Type} (l : levelIter I) (key : string) :
  level_ok (files l) ->
  -1 <= findFileLT l key < Z.of_nat (List.length (files l)) /\
  (forall i f, 0 <= i <= findFileLT l key ->
               nth_error (files l) (Z.to_nat i) = Some f ->
               Compare (UserKey (smallest f)) key < 0) /\
  (forall i f, findFileLT l key < i ->
               nth_error (files l) (Z.to_nat i) = Some f ->
               0 <= Compare (UserKey (smallest f)) key).
Proof.
  intros Hok. unfold findFileLT. cbv zeta.
  change (fun i : Z =>
            0 <=? Compare (UserKey (smallest (nth (Z.to_nat i) (files l) zeroFile))) key)
    with (fileNotLT l key).
  destruct (Search_first (Z.of_nat (List.length (files l))) (fileNotLT l key))
    as (H1 & H2 & H3); [lia | apply fileNotLT_mono; exact Hok |].
  set (r := Search (Z.of_nat (List.length (files l))) (fileNotLT l key)) in *.
  split; [lia |]. split.
  - intros i f Hi Ef.
    assert (Hf : fileNotLT l key i = false) by (apply H2; lia).
    unfold fileNotLT in Hf. rewrite (nth_error_nth _ _ zeroFile Ef) in Hf.
    apply Z.leb_gt in Hf. exact Hf.
  - intros i f Hi Ef.
    assert (Hlen : (Z.to_nat i < List.length (files l))%nat)
      by (apply nth_error_Some; congruence).
    assert (Hr : fileNotLT l key r = true) by (apply H3; lia).
    assert (Hf : fileNotLT l key i = true).
    { apply (fileNotLT_mono l key Hok r i); [lia | lia | exact Hr]. }
    unfold fileNotLT in Hf. rewrite (nth_error_nth _ _ zeroFile Ef) in Hf.
    apply Z.leb_le in Hf. exact Hf.
Qed.

End FindFileLT.

(** ** Loading files *)

Section LevelIterMore.
Context {C : Comparer} {I : Type} {II : internalIterator I}.
Variable newIters : fileMetadata -> option IterOptions -> option I * option I * option error.

(** A file iterator is open only on a file of the level. *)
Definition positioned_ok (l : levelIter I) : Prop :=
  isSome (iter l) = true -> 0 <= index l < Z.of_nat (List.length (files l)).

(** The file is not cut off by the bounds of the options. *)
Definition in_bounds (o : option IterOptions) (f : fileMetadata) : Prop :=
  (forall lower, GetLowerBound o = Some lower ->
                 0 <= Compare (UserKey (largest f)) lower) /\
  (forall upper, GetUpperBound o = Some upper ->
                 Compare (UserKey (smallest f)) upper < 0).

(** The iterator is the one [newIters] gave for the current file, which is
    within the bounds, and no error is recorded. *)
Definition loaded (l : levelIter I) : Prop :=
  exists f r,
    file_at l (index l) = Ret f /\
    in_bounds (opts l) f /\
    newIters f (opts l) = (iter l, r, None) /\
    isSome (iter l) = true /\
    err l = None.

Lemma loadFile_loop_result (fuel : nat) (l l' : levelIter I) (idx dir : Z) (b : bool) :
  iter l = None ->
  loadFile_loop newIters fuel l idx dir = Ret (l', b) ->
  files l' = files l /\ opts l' = opts l /\ positioned_ok l' /\ (b = true -> loaded l').
Proof.
  revert l idx. induction fuel as [| fuel IH]; intros l idx Hit H; cbn [loadFile_loop] in H;
    [discriminate |].
  cbv zeta in H. cbn [index set_index files] in H.
  assert (Hstop : forall l0 : levelIter I,
             files l0 = files l -> opts l0 = opts l -> iter l0 = None ->
             Ret (l0, false) = Ret (l', b) ->
             files l' = files l /\ opts l' = opts l /\ positioned_ok l' /\
             (b = true -> loaded l')).
  { intros l0 Hf Ho Hi K. inversion K; subst l' b.
    split; [exact Hf |]. split; [exact Ho |]. split; [| discriminate].
    unfold positioned_ok. rewrite Hi. discriminate. }
  destruct (Z.ltb_spec idx 0) as [Hneg | Hnn]; cbn [orb] in H.
  { apply (Hstop (set_index l idx)); auto. }
  destruct (Z.leb_spec (Z.of_nat (List.length (files l))) idx) as [Hout | Hin];
    cbn [orb] in H.
  { apply (Hstop (set_index l idx)); auto. }
  destruct (file_at (set_index l idx) idx) as [f | |] eqn:Ef; cbn [bind] in H;
    try discriminate.
  cbn [opts set_index] in H.
  destruct (match GetLowerBound (opts l) with
            | Some lowerBound => Compare (UserKey (largest f)) lowerBound <? 0
            | None => false
            end) eqn:Ebelow.
  { destruct (dir <? 0); [apply (Hstop (set_index l idx)); auto |].
    destruct (IH (set_index l idx) (idx + dir) Hit H) as (K1 & K2 & K3 & K4). auto. }
  destruct (match GetUpperBound (opts l) with
            | Some upperBound => 0 <=? Compare (UserKey (smallest f)) upperBound
            | None => false
            end) eqn:Eabove.
  { destruct (0 <? dir); [apply (Hstop (set_index l idx)); auto |].
    destruct (IH (set_index l idx) (idx + dir) Hit H) as (K1 & K2 & K3 & K4). auto. }
  assert (Hbounds : in_bounds (opts l) f).
  { split.
    - intros lower Hl. rewrite Hl in Ebelow. apply Z.ltb_ge in Ebelow. exact Ebelow.
    - intros upper Hu. rewrite Hu in Eabove. apply Z.leb_gt in Eabove. exact Eabove. }
  destruct (newIters f (opts l)) as [[it r] e] eqn:En.
  destruct (store_rangeDelIter_fields (set_err (set_iter (set_index l idx) it) e) r)
    as (So & Si & _ & Sit & Sf & Se & _).
  destruct (isSome e || negb (isSome it)) eqn:Eb; inversion H; subst l' b; clear H.
  - cbn [files opts set_err set_iter set_index].
    split; [reflexivity |]. split; [reflexivity |].
    split; [unfold positioned_ok; cbn; intros _; lia | discriminate].
  - rewrite So, Sf. cbn [files opts set_err set_iter set_index].
    split; [reflexivity |]. split; [reflexivity |]. split.
    + unfold positioned_ok. rewrite Si, Sf. cbn. lia.
    + intros _. apply orb_false_iff in Eb. destruct Eb as [Ee Ei].
      apply negb_false_iff in Ei. destruct e; [discriminate |].
      exists f, r. rewrite Si, So, Sit, Se.
      cbn [index opts iter err set_err set_iter set_index].
      rewrite (file_at_files (set_index l idx) _ idx) by (rewrite Sf; reflexivity).
      repeat split; auto; apply Hbounds.
Qed.

(** Backward, the loop of [loadFile] returns within the fuel [loadFile]
    gives it, at an index not above the one asked for. *)
Lemma loadFile_loop_backward (fuel : nat) (l : levelIter I) (idx : Z) :
  (0 < fuel)%nat ->
  (idx < Z.of_nat (List.length (files l)) -> idx + 1 < Z.of_nat fuel) ->
  exists l' b,
    loadFile_loop newIters fuel l idx (-1) = Ret (l', b) /\
    index l' <= idx /\
    files l' = files l /\
    (b = true ->
     isSome (iter l') = true /\ 0 <= index l' < Z.of_nat (List.length (files l))).
Proof.
  revert l idx. induction fuel as [| fuel IH]; intros l idx Hpos Hfuel; [lia |].
  cbn [loadFile_loop]. cbv zeta. cbn [index set_index files].
  destruct (Z.ltb_spec idx 0) as [Hneg | Hnn]; cbn [orb].
  { eexists. eexists. split; [reflexivity |]. cbn. repeat split; try lia; discriminate. }
  destruct (Z.leb_spec (Z.of_nat (List.length (files l))) idx) as [Hout | Hin].
  { eexists. eexists. split; [reflexivity |]. cbn. repeat split; try lia; discriminate. }
  destruct (file_at_Ret (set_index l idx) idx) as [f Ef]; [cbn; lia |].
  rewrite Ef. cbn [bind opts set_index].
  assert (Hrec : exists l' b,
             loadFile_loop newIters fuel (set_index l idx) (idx + -1) (-1) = Ret (l', b) /\
             index l' <= idx /\ files l' = files l /\
             (b = true ->
              isSome (iter l') = true /\ 0 <= index l' < Z.of_nat (List.length (files l)))).
  { destruct (IH (set_index l idx) (idx + -1)) as (l' & b & H1 & H2 & H3 & H4).
    - lia.
    - cbn. lia.
    - exists l', b. cbn in H3, H4. repeat split; auto; try lia; apply H4; auto. }
  destruct (match GetLowerBound (opts l) with Some _ => _ | None => _ end).
  { change (-1 <? 0) with true. cbn iota.
    eexists. eexists. split; [reflexivity |]. cbn. repeat split; try lia; discriminate. }
  destruct (match GetUpperBound (opts l) with Some _ => _ | None => _ end).
  { change (0 <? -1) with false. cbn iota. exact Hrec. }
  destruct (newIters f (opts l)) as [[it r] e].
  destruct (isSome e || negb (isSome it)) eqn:Eb.
  - eexists. eexists. split; [reflexivity |]. cbn. repeat split; try lia; discriminate.
  - eexists. eexists. split; [reflexivity |].
    destruct (store_rangeDelIter_fields (set_err (set_iter (set_index l idx) it) e) r)
      as (_ & Hi & _ & Hit & Hf & _).
    rewrite Hi, Hit, Hf. cbn.
    apply orb_false_iff in Eb. destruct Eb as [_ Eb]. apply negb_false_iff in Eb.
    repeat split; auto; lia.
Qed.

(** [b] lies from [a] in the direction [dir]. *)
Definition toward (dir a b : Z) : Prop :=
  (dir = 1 -> a <= b) /\ (dir = -1 -> b <= a).

(** [loadFile] returns, forward and backward, from any state in which an
    open iterator is on a file of the level.  It returns true only with an
    iterator open, on a file in the direction asked; when it had to open a
    file, that file is within the bounds. *)
Lemma loadFile_ret (l : levelIter I) (idx dir : Z) :
  positioned_ok l ->
  dir = 1 \/ dir = -1 ->
  exists l' b,
    loadFile newIters l idx dir = Ret (l', b) /\
    files l' = files l /\ opts l' = opts l /\
    positioned_ok l' /\
    boundary l' = None /\
    (b = true -> isSome (iter l') = true /\ toward dir idx (index l')) /\
    (iter l = None -> index l <> idx -> toward dir idx (index l')) /\
    (index l <> idx -> b = true -> loaded l').
Proof.
  intros Hok Hdir.
  assert (Hloop : forall l0 : levelIter I,
             iter l0 = None -> files l0 = files l -> opts l0 = opts l ->
             boundary l0 = None ->
             exists l' b,
               loadFile_loop newIters (S (List.length (files l0))) l0 idx dir = Ret (l', b) /\
               files l' = files l /\ opts l' = opts l /\ positioned_ok l' /\
               boundary l' = None /\
               (b = true -> isSome (iter l') = true) /\
               toward dir idx (index l') /\
               (b = true -> loaded l')).
  { intros l0 Hi Hf Ho Hb.
    assert (Hex : exists l' b,
               loadFile_loop newIters (S (List.length (files l0))) l0 idx dir = Ret (l', b) /\
               toward dir idx (index l')).
    { destruct Hdir as [-> | ->].
      - destruct (loadFile_loop_forward newIters (S (List.length (files l0))) l0 idx)
          as (l' & b & H1 & H2 & _); [lia | lia |].
        exists l', b. split; [exact H1 |]. split; intros; lia.
      - destruct (loadFile_loop_backward (S (List.length (files l0))) l0 idx)
          as (l' & b & H1 & H2 & _); [lia | lia |].
        exists l', b. split; [exact H1 |]. split; intros; lia. }
    destruct Hex as (l' & b & H1 & H2).
    destruct (loadFile_loop_result _ _ _ _ _ _ Hi H1) as (K1 & K2 & K3 & K4).
    exists l', b. split; [exact H1 |].
    rewrite K1, K2, Hf, Ho.
    split; [reflexivity |]. split; [reflexivity |]. split; [exact K3 |].
    split; [rewrite (loadFile_loop_boundary newIters _ _ _ _ _ _ H1); exact Hb |].
    split; [| split; [exact H2 | exact K4]].
    intros Hb'. destruct (K4 Hb') as (f & r & _ & _ & _ & Hs & _). exact Hs. }
  unfold loadFile. cbn [index set_boundary iter].
  destruct (Z.eqb_spec (index l) idx) as [Heq | Hne].
  { eexists. eexists. split; [reflexivity |]. cbn.
    split; [reflexivity |]. split; [reflexivity |]. split; [exact Hok |].
    split; [reflexivity |].
    split; [| split; intros; contradiction].
    intros Hs. split; [exact Hs |]. split; intros; lia. }
  destruct (iter l) as [it |] eqn:Ei.
  - destruct (closeIter_fields (set_boundary l None) it)
      as (Co & Ci & Cb & Cit & Cf & Ce & Cr).
    destruct (isSome (err (closeIter (set_boundary l None) it))) eqn:Ee; cbn [negb].
    + eexists. eexists. split; [reflexivity |].
      rewrite Cf, Co, Cb. cbn.
      split; [reflexivity |]. split; [reflexivity |].
      split; [unfold positioned_ok; rewrite Ci, Cf; cbn; intros _; apply Hok;
              rewrite Ei; reflexivity |].
      split; [reflexivity |].
      split; [discriminate |]. split; [discriminate |]. discriminate.
    + destruct (store_rangeDelIter_fields
                  (set_iter (closeIter (set_boundary l None) it) None) None)
        as (So & Si & Sb & Sit & Sf & Se & _).
      destruct (Hloop (store_rangeDelIter
                         (set_iter (closeIter (set_boundary l None) it) None) None))
        as (l' & b & H1 & H2 & H3 & H4 & H5 & H6 & H7 & H8).
      * rewrite Sit. reflexivity.
      * rewrite Sf. cbn. exact Cf.
      * rewrite So. cbn. exact Co.
      * rewrite Sb. cbn. exact Cb.
      * exists l', b. split; [exact H1 |].
        split; [exact H2 |]. split; [exact H3 |]. split; [exact H4 |].
        split; [exact H5 |].
        split; [intros Hb; split; [apply H6; exact Hb | exact H7] |].
        split; [discriminate |]. intros _. exact H8.
  - cbn [negb].
    destruct (store_rangeDelIter_fields (set_boundary l None) None)
      as (So & Si & Sb & Sit & Sf & Se & _).
    destruct (Hloop (store_rangeDelIter (set_boundary l None) None))
      as (l' & b & H1 & H2 & H3 & H4 & H5 & H6 & H7 & H8).
    + rewrite Sit. cbn. exact Ei.
    + rewrite Sf. reflexivity.
    + rewrite So. reflexivity.
    + rewrite Sb. reflexivity.
    + exists l', b. split; [exact H1 |].
      split; [exact H2 |]. split; [exact H3 |]. split; [exact H4 |].
      split; [exact H5 |].
      split; [intros Hb; split; [apply H6; exact Hb | exact H7] |].
      split; [intros _ _; exact H7 |]. intros _. exact H8.
Qed.

Lemma positioned_ok_no_iter (l : levelIter I) : iter l = None -> positioned_ok l.
Proof. intros H. unfold positioned_ok. rewrite H. discriminate. Qed.

Lemma positioned_ok_in_range (l : levelIter I) :
  0 <= index l < Z.of_nat (List.length (files l)) -> positioned_ok l.
Proof. intros H _. exact H. Qed.

(** *** Skipping empty files *)

(** Forward, the skip returns; it keeps [index] or moves it up, and returns
    true only inside the level. *)
Lemma skipEmptyFileForward_loop_ret (fuel : nat) (l : levelIter I) :
  positioned_ok l ->
  isSome (iter l) = true ->
  Z.of_nat (List.length (files l)) - index l <= Z.of_nat fuel ->
  exists l' b,
    skipEmptyFileForward_loop newIters fuel l = Ret (l', b) /\
    files l' = files l /\ opts l' = opts l /\
    positioned_ok l' /\
    index l <= index l' /\
    (b = true -> 0 <= index l' < Z.of_nat (List.length (files l))).
Proof.
  revert l. induction fuel as [| fuel IH]; intros l Hok Hi Hfuel.
  { pose proof (Hok Hi). lia. }
  pose proof (Hok Hi) as Hidx.
  cbn [skipEmptyFileForward_loop].
  destruct (iter l) as [it |]; [| discriminate].
  destruct (closeIter_fields l it) as (Co & Ci & _ & _ & Cf & _ & Cr).
  destruct (isSome (err (closeIter l it))).
  { eexists. eexists. split; [reflexivity |]. rewrite Ci, Cf, Co.
    split; [reflexivity |]. split; [reflexivity |].
    split; [apply positioned_ok_in_range; rewrite Ci, Cf; exact Hidx |].
    split; [lia | intros _; exact Hidx]. }
  cbv zeta. cbn [rangeDelIter set_iter index].
  rewrite Cr, Ci.
  rewrite (file_at_files l (set_iter (closeIter l it) None) (index l)) by (cbn; exact Cf).
  destruct (file_at_Ret l (index l) Hidx) as [f Ef]. rewrite Ef. cbn [bind].
  assert (Hgo : forall l0 : levelIter I,
             index l0 = index l -> files l0 = files l -> opts l0 = opts l ->
             iter l0 = None ->
             exists l' b,
               (' (l1, ok) <- loadFile newIters l0 (index l0 + 1) 1 ;;
                if negb ok then Ret (l1, false)
                else ' (l2, valid) <- callIter iFirst l1 ;;
                     if valid then Ret (l2, true)
                     else skipEmptyFileForward_loop newIters fuel l2) = Ret (l', b) /\
               files l' = files l /\ opts l' = opts l /\ positioned_ok l' /\
               index l <= index l' /\
               (b = true -> 0 <= index l' < Z.of_nat (List.length (files l)))).
  { intros l0 H0i H0f H0o H0it.
    destruct (loadFile_ret l0 (index l0 + 1) 1 (positioned_ok_no_iter l0 H0it)
                (or_introl eq_refl))
      as (l1 & ok & H1 & H2 & H3 & H4 & _ & H6 & H7 & _).
    rewrite H1. cbn [bind].
    assert (Hup : index l0 + 1 <= index l1) by (apply H7; [exact H0it | lia | reflexivity]).
    rewrite H0f in H2. rewrite H0o in H3. rewrite H0i in Hup.
    destruct ok; cbn [negb].
    - destruct (H6 eq_refl) as [H8 _]. pose proof (H4 H8) as Hr1. rewrite H2 in Hr1.
      unfold callIter. destruct (iter l1) as [it1 |] eqn:Ei1; [| discriminate].
      destruct (iFirst it1) as [it1' valid]. cbn [bind].
      destruct valid.
      + eexists. eexists. split; [reflexivity |]. cbn.
        split; [exact H2 |]. split; [exact H3 |].
        split; [apply positioned_ok_in_range; cbn; rewrite H2; exact Hr1 |].
        split; [lia | intros _; exact Hr1].
      + destruct (IH (set_iter l1 (Some it1'))) as (l' & b & K1 & K2 & K3 & K4 & K5 & K6).
        * apply positioned_ok_in_range. cbn. rewrite H2. exact Hr1.
        * reflexivity.
        * cbn. rewrite H2. lia.
        * exists l', b. cbn in K2, K3, K5, K6. rewrite H2 in K2, K6. rewrite H3 in K3.
          split; [exact K1 |]. split; [exact K2 |]. split; [exact K3 |].
          split; [exact K4 |]. split; [lia | exact K6].
    - eexists. eexists. split; [reflexivity |].
      split; [exact H2 |]. split; [exact H3 |]. split; [exact H4 |].
      split; [lia | discriminate]. }
  assert (Hstore : forall t : option I,
             index (store_rangeDelIter (set_iter (closeIter l it) None) t) = index l /\
             files (store_rangeDelIter (set_iter (closeIter l it) None) t) = files l /\
             opts (store_rangeDelIter (set_iter (closeIter l it) None) t) = opts l /\
             iter (store_rangeDelIter (set_iter (closeIter l it) None) t) = None).
  { intros t.
    destruct (store_rangeDelIter_fields (set_iter (closeIter l it) None) t)
      as (So & Si & _ & Sit & Sf & _).
    rewrite So, Si, Sit, Sf. cbn. auto. }
  destruct (rangeDelIter l) as [slot |] eqn:Er; cbn [bind].
  - destruct (Kind (largest f) =? InternalKeyKindRangeDelete); cbn [bind].
    + eexists. eexists. split; [reflexivity |]. cbn. rewrite Ci, Cf, Co.
      split; [reflexivity |]. split; [reflexivity |].
      split; [apply positioned_ok_no_iter; reflexivity |].
      split; [lia | intros _; exact Hidx].
    + destruct (Hstore None) as (S1 & S2 & S3 & S4). apply Hgo; assumption.
  - destruct (Hstore None) as (S1 & S2 & S3 & S4). apply Hgo; assumption.
Qed.

(** Backward, the skip returns; it keeps [index] or moves it down, and
    returns true only inside the level. *)
Lemma skipEmptyFileBackward_loop_ret (fuel : nat) (l : levelIter I) :
  positioned_ok l ->
  isSome (iter l) = true ->
  index l + 1 <= Z.of_nat fuel ->
  exists l' b,
    skipEmptyFileBackward_loop newIters fuel l = Ret (l', b) /\
    files l' = files l /\ opts l' = opts l /\
    positioned_ok l' /\
    index l' <= index l /\
    (b = true -> 0 <= index l' < Z.of_nat (List.length (files l))).
Proof.
  revert l. induction fuel as [| fuel IH]; intros l Hok Hi Hfuel.
  { pose proof (Hok Hi). lia. }
  pose proof (Hok Hi) as Hidx.
  cbn [skipEmptyFileBackward_loop].
  destruct (iter l) as [it |]; [| discriminate].
  destruct (closeIter_fields l it) as (Co & Ci & _ & _ & Cf & _ & Cr).
  destruct (isSome (err (closeIter l it))).
  { eexists. eexists. split; [reflexivity |]. rewrite Ci, Cf, Co.
    split; [reflexivity |]. split; [reflexivity |].
    split; [apply positioned_ok_in_range; rewrite Ci, Cf; exact Hidx |].
    split; [lia | intros _; exact Hidx]. }
  cbv zeta. cbn [rangeDelIter set_iter index].
  rewrite Cr, Ci.
  rewrite (file_at_files l (set_iter (closeIter l it) None) (index l)) by (cbn; exact Cf).
  destruct (file_at_Ret l (index l) Hidx) as [f Ef]. rewrite Ef. cbn [bind].
  assert (Hgo : forall l0 : levelIter I,
             index l0 = index l -> files l0 = files l -> opts l0 = opts l ->
             iter l0 = None ->
             exists l' b,
               (' (l1, ok) <- loadFile newIters l0 (index l0 - 1) (-1) ;;
                if negb ok then Ret (l1, false)
                else ' (l2, valid) <- callIter iLast l1 ;;
                     if valid then Ret (l2, true)
                     else skipEmptyFileBackward_loop newIters fuel l2) = Ret (l', b) /\
               files l' = files l /\ opts l' = opts l /\ positioned_ok l' /\
               index l' <= index l /\
               (b = true -> 0 <= index l' < Z.of_nat (List.length (files l)))).
  { intros l0 H0i H0f H0o H0it.
    destruct (loadFile_ret l0 (index l0 - 1) (-1) (positioned_ok_no_iter l0 H0it)
                (or_intror eq_refl))
      as (l1 & ok & H1 & H2 & H3 & H4 & _ & H6 & H7 & _).
    rewrite H1. cbn [bind].
    assert (Hdown : index l1 <= index l0 - 1)
      by (apply H7; [exact H0it | lia | reflexivity]).
    rewrite H0f in H2. rewrite H0o in H3. rewrite H0i in Hdown.
    destruct ok; cbn [negb].
    - destruct (H6 eq_refl) as [H8 _]. pose proof (H4 H8) as Hr1. rewrite H2 in Hr1.
      unfold callIter. destruct (iter l1) as [it1 |] eqn:Ei1; [| discriminate].
      destruct (iLast it1) as [it1' valid]. cbn [bind].
      destruct valid.
      + eexists. eexists. split; [reflexivity |]. cbn.
        split; [exact H2 |]. split; [exact H3 |].
        split; [apply positioned_ok_in_range; cbn; rewrite H2; exact Hr1 |].
        split; [lia | intros _; exact Hr1].
      + destruct (IH (set_iter l1 (Some it1'))) as (l' & b & K1 & K2 & K3 & K4 & K5 & K6).
        * apply positioned_ok_in_range. cbn. rewrite H2. exact Hr1.
        * reflexivity.
        * cbn. lia.
        * exists l', b. cbn in K2, K3, K5, K6. rewrite H2 in K2, K6. rewrite H3 in K3.
          split; [exact K1 |]. split; [exact K2 |]. split; [exact K3 |].
          split; [exact K4 |]. split; [lia | exact K6].
    - eexists. eexists. split; [reflexivity |].
      split; [exact H2 |]. split; [exact H3 |]. split; [exact H4 |].
      split; [lia | discriminate]. }
  assert (Hstore : forall t : option I,
             index (store_rangeDelIter (set_iter (closeIter l it) None) t) = index l /\
             files (store_rangeDelIter (set_iter (closeIter l it) None) t) = files l /\
             opts (store_rangeDelIter (set_iter (closeIter l it) None) t) = opts l /\
             iter (store_rangeDelIter (set_iter (closeIter l it) None) t) = None).
  { intros t.
    destruct (store_rangeDelIter_fields (set_iter (closeIter l it) None) t)
      as (So & Si & _ & Sit & Sf & _).
    rewrite So, Si, Sit, Sf. cbn. auto. }
  destruct (rangeDelIter l) as [slot |] eqn:Er; cbn [bind].
  - destruct (Kind (smallest f) =? InternalKeyKindRangeDelete); cbn [bind].
    + eexists. eexists. split; [reflexivity |]. cbn. rewrite Ci, Cf, Co.
      split; [reflexivity |]. split; [reflexivity |].
      split; [apply positioned_ok_no_iter; reflexivity |].
      split; [lia | intros _; exact Hidx].
    + destruct (Hstore None) as (S1 & S2 & S3 & S4). apply Hgo; assumption.
  - destruct (Hstore None) as (S1 & S2 & S3 & S4). apply Hgo; assumption.
Qed.

(** *** The methods *)

(** [loadFile], a move of the file iterator, a skip forward. *)
Lemma forward_positioning_ret (m : I -> I * bool) (l : levelIter I) (idx : Z) :
  positioned_ok l ->
  exists l' b,
    (' (l1, ok) <- loadFile newIters l idx 1 ;;
     if negb ok then Ret (l1, false)
     else ' (l2, ok) <- callIter m l1 ;;
          if ok then Ret (l2, true) else skipEmptyFileForward newIters l2) = Ret (l', b) /\
    files l' = files l /\ opts l' = opts l /\
    positioned_ok l' /\
    (b = true -> idx <= index l' < Z.of_nat (List.length (files l))) /\
    (iter l = None -> index l <> idx -> idx <= index l').
Proof.
  intros Hok.
  destruct (loadFile_ret l idx 1 Hok (or_introl eq_refl))
    as (l1 & ok & H1 & H2 & H3 & H4 & _ & H6 & H7 & _).
  rewrite H1. cbn [bind].
  destruct ok; cbn [negb].
  - destruct (H6 eq_refl) as [H8 [H9 _]]. specialize (H9 eq_refl).
    pose proof (H4 H8) as Hr1. rewrite H2 in Hr1.
    unfold callIter. destruct (iter l1) as [it1 |] eqn:Ei1; [| discriminate].
    destruct (m it1) as [it1' ok2]. cbn [bind].
    destruct ok2.
    + eexists. eexists. split; [reflexivity |]. cbn.
      split; [exact H2 |]. split; [exact H3 |].
      split; [apply positioned_ok_in_range; cbn; rewrite H2; exact Hr1 |].
      split; intros; lia.
    + destruct (skipEmptyFileForward_loop_ret
                  (S (List.length (files (set_iter l1 (Some it1')))))
                  (set_iter l1 (Some it1')))
        as (l' & b & K1 & K2 & K3 & K4 & K5 & K6).
      * apply positioned_ok_in_range. cbn. rewrite H2. exact Hr1.
      * reflexivity.
      * cbn. rewrite H2. lia.
      * exists l', b. unfold skipEmptyFileForward. cbn in K2, K3, K5, K6.
        rewrite H2 in K2, K6. rewrite H3 in K3.
        split; [exact K1 |]. split; [exact K2 |]. split; [exact K3 |].
        split; [exact K4 |].
        split; [intros Hb; specialize (K6 Hb); lia | intros; lia].
  - eexists. eexists. split; [reflexivity |].
    split; [exact H2 |]. split; [exact H3 |]. split; [exact H4 |].
    split; [discriminate |].
    intros Hi Hne. apply (H7 Hi Hne). reflexivity.
Qed.

(** [loadFile], a move of the file iterator, a skip backward. *)
Lemma backward_positioning_ret (m : I -> I * bool) (l : levelIter I) (idx : Z) :
  positioned_ok l ->
  exists l' b,
    (' (l1, ok) <- loadFile newIters l idx (-1) ;;
     if negb ok then Ret (l1, false)
     else ' (l2, ok) <- callIter m l1 ;;
          if ok then Ret (l2, true) else skipEmptyFileBackward newIters l2) = Ret (l', b) /\
    files l' = files l /\ opts l' = opts l /\
    positioned_ok l' /\
    (b = true -> 0 <= index l' <= idx) /\
    (iter l = None -> index l <> idx -> index l' <= idx).
Proof.
  intros Hok.
  destruct (loadFile_ret l idx (-1) Hok (or_intror eq_refl))
    as (l1 & ok & H1 & H2 & H3 & H4 & _ & H6 & H7 & _).
  rewrite H1. cbn [bind].
  destruct ok; cbn [negb].
  - destruct (H6 eq_refl) as [H8 [_ H9]]. specialize (H9 eq_refl).
    pose proof (H4 H8) as Hr1. rewrite H2 in Hr1.
    unfold callIter. destruct (iter l1) as [it1 |] eqn:Ei1; [| discriminate].
    destruct (m it1) as [it1' ok2]. cbn [bind].
    destruct ok2.
    + eexists. eexists. split; [reflexivity |]. cbn.
      split; [exact H2 |]. split; [exact H3 |].
      split; [apply positioned_ok_in_range; cbn; rewrite H2; exact Hr1 |].
      split; intros; lia.
    + destruct (skipEmptyFileBackward_loop_ret
                  (S (List.length (files (set_iter l1 (Some it1')))))
                  (set_iter l1 (Some it1')))
        as (l' & b & K1 & K2 & K3 & K4 & K5 & K6).
      * apply positioned_ok_in_range. cbn. rewrite H2. exact Hr1.
      * reflexivity.
      * cbn. rewrite H2. lia.
      * exists l', b. unfold skipEmptyFileBackward. cbn in K2, K3, K5, K6.
        rewrite H2 in K2, K6. rewrite H3 in K3.
        split; [exact K1 |]. split; [exact K2 |]. split; [exact K3 |].
        split; [exact K4 |].
        split; [intros Hb; specialize (K6 Hb); lia | intros; lia].
  - eexists. eexists. split; [reflexivity |].
    split; [exact H2 |]. split; [exact H3 |]. split; [exact H4 |].
    split; [discriminate |].
    intros Hi Hne. apply (H7 Hi Hne). reflexivity.
Qed.

Lemma SeekGE_ret (l : levelIter I) (key : string) :
  positioned_ok l ->
  exists l' b,
    SeekGE newIters l key = Ret (l', b) /\
    files l' = files l /\ positioned_ok l' /\
    (b = true -> findFileGE l key <= index l' < Z.of_nat (List.length (files l))).
Proof.
  intros Hok.
  destruct (forward_positioning_ret (fun it => iSeekGE it key) l (findFileGE l key) Hok)
    as (l' & b & H1 & H2 & _ & H4 & H5 & _).
  exists l', b. auto.
Qed.

Lemma SeekLT_ret (l : levelIter I) (key : string) :
  positioned_ok l ->
  exists l' b,
    SeekLT newIters l key = Ret (l', b) /\
    files l' = files l /\ positioned_ok l' /\
    (b = true -> 0 <= index l' <= findFileLT l key).
Proof.
  intros Hok.
  destruct (backward_positioning_ret (fun it => iSeekLT it key) l (findFileLT l key) Hok)
    as (l' & b & H1 & H2 & _ & H4 & H5 & _).
  exists l', b. auto.
Qed.

Lemma First_ret (l : levelIter I) :
  positioned_ok l ->
  exists l' b,
    First newIters l = Ret (l', b) /\ files l' = files l /\ positioned_ok l'.
Proof.
  intros Hok.
  destruct (forward_positioning_ret iFirst l 0 Hok) as (l' & b & H1 & H2 & _ & H4 & _).
  exists l', b. auto.
Qed.

Lemma Last_ret (l : levelIter I) :
  positioned_ok l ->
  exists l' b,
    Last newIters l = Ret (l', b) /\ files l' = files l /\ positioned_ok l'.
Proof.
  intros Hok.
  destruct (backward_positioning_ret iLast l (Z.of_nat (List.length (files l)) - 1) Hok)
    as (l' & b & H1 & H2 & _ & H4 & _).
  exists l', b. auto.
Qed.

Lemma Next_ret (l : levelIter I) :
  positioned_ok l ->
  exists l' b,
    Next newIters l = Ret (l', b) /\
    files l' = files l /\ positioned_ok l' /\ index l <= index l'.
Proof.
  intros Hok. unfold Next.
  destruct (isSome (err l)).
  { exists l, false. split; [reflexivity |]. split; [reflexivity |]. split; [exact Hok | lia]. }
  destruct (iter l) as [it |] eqn:Ei.
  - assert (Hr : 0 <= index l < Z.of_nat (List.length (files l)))
      by (apply Hok; rewrite Ei; reflexivity).
    unfold callIter. rewrite Ei. destruct (iNext it) as [it' ok]. cbn [bind].
    destruct ok.
    + eexists. eexists. split; [reflexivity |]. cbn.
      split; [reflexivity |]. split; [| lia].
      apply positioned_ok_in_range. exact Hr.
    + destruct (skipEmptyFileForward_loop_ret
                  (S (List.length (files (set_iter l (Some it')))))
                  (set_iter l (Some it')))
        as (l' & b & K1 & K2 & _ & K4 & K5 & _).
      * apply positioned_ok_in_range. exact Hr.
      * reflexivity.
      * cbn. lia.
      * exists l', b. unfold skipEmptyFileForward. auto.
  - assert (Hgo : forall idx, index l <> idx -> index l <= idx ->
               exists l' b,
                 (' (l1, ok) <- loadFile newIters l idx 1 ;;
                  if ok
                  then ' (l2, ok0) <- callIter iFirst l1 ;;
                       if ok0 then Ret (l2, true) else skipEmptyFileForward newIters l2
                  else Ret (l1, false)) = Ret (l', b) /\
                 files l' = files l /\ positioned_ok l' /\ index l <= index l').
    { intros idx Hne Hle.
      destruct (forward_positioning_ret iFirst l idx Hok)
        as (l' & b & H1 & H2 & _ & H4 & _ & H6).
      exists l', b. split; [| split; [exact H2 | split; [exact H4 |]]].
      - rewrite <- H1. destruct (loadFile newIters l idx 1) as [[l1 [|]] | |]; reflexivity.
      - specialize (H6 Ei Hne). lia. }
    destruct (isSome (boundary l)).
    + apply Hgo; lia.
    + destruct (Z.eqb_spec (index l) (-1)) as [E | E].
      * apply Hgo; lia.
      * exists l, false. split; [reflexivity |]. split; [reflexivity |]. split; [exact Hok | lia].
Qed.

Lemma Prev_ret (l : levelIter I) :
  positioned_ok l ->
  exists l' b,
    Prev newIters l = Ret (l', b) /\
    files l' = files l /\ positioned_ok l' /\ index l' <= index l.
Proof.
  intros Hok. unfold Prev.
  destruct (isSome (err l)).
  { exists l, false. split; [reflexivity |]. split; [reflexivity |]. split; [exact Hok | lia]. }
  destruct (iter l) as [it |] eqn:Ei.
  - assert (Hr : 0 <= index l < Z.of_nat (List.length (files l)))
      by (apply Hok; rewrite Ei; reflexivity).
    unfold callIter. rewrite Ei. destruct (iPrev it) as [it' ok]. cbn [bind].
    destruct ok.
    + eexists. eexists. split; [reflexivity |]. cbn.
      split; [reflexivity |]. split; [| lia].
      apply positioned_ok_in_range. exact Hr.
    + destruct (skipEmptyFileBackward_loop_ret
                  (S (List.length (files (set_iter l (Some it')))))
                  (set_iter l (Some it')))
        as (l' & b & K1 & K2 & _ & K4 & K5 & _).
      * apply positioned_ok_in_range. exact Hr.
      * reflexivity.
      * cbn. lia.
      * exists l', b. unfold skipEmptyFileBackward. auto.
  - assert (Hgo : forall idx, index l <> idx -> idx <= index l ->
               exists l' b,
                 (' (l1, ok) <- loadFile newIters l idx (-1) ;;
                  if ok
                  then ' (l2, ok0) <- callIter iLast l1 ;;
                       if ok0 then Ret (l2, true) else skipEmptyFileBackward newIters l2
                  else Ret (l1, false)) = Ret (l', b) /\
                 files l' = files l /\ positioned_ok l' /\ index l' <= index l).
    { intros idx Hne Hle.
      destruct (backward_positioning_ret iLast l idx Hok)
        as (l' & b & H1 & H2 & _ & H4 & _ & H6).
      exists l', b. split; [| split; [exact H2 | split; [exact H4 |]]].
      - rewrite <- H1. destruct (loadFile newIters l idx (-1)) as [[l1 [|]] | |]; reflexivity.
      - specialize (H6 Ei Hne). lia. }
    destruct (isSome (boundary l)).
    + apply Hgo; lia.
    + cbv zeta.
      destruct (Z.eqb_spec (index l) (Z.of_nat (List.length (files l)))) as [E | E].
      * apply Hgo; lia.
      * exists l, false. split; [reflexivity |]. split; [reflexivity |]. split; [exact Hok | lia].
Qed.

Lemma Close_positioned_ok (l : levelIter I) : iter (fst (Close l)) = None.
Proof.
  unfold Close. cbn [fst].
  destruct (iter l) as [it |] eqn:Ei.
  - destruct (rangeDelIter (set_iter (closeIter l it) None)) as [[t |] |].
    + destruct (snd (iClose t)); [destruct (negb _) |];
        rewrite (proj1 (proj2 (proj2 (proj2 (store_rangeDelIter_fields _ _)))));
        reflexivity.
    + rewrite (proj1 (proj2 (proj2 (proj2 (store_rangeDelIter_fields _ _)))));
        reflexivity.
    + reflexivity.
  - destruct (rangeDelIter l) as [[t |] |].
    + destruct (snd (iClose t)); [destruct (negb _) |];
        rewrite (proj1 (proj2 (proj2 (proj2 (store_rangeDelIter_fields _ _)))));
        cbn; exact Ei.
    + rewrite (proj1 (proj2 (proj2 (proj2 (store_rangeDelIter_fields _ _)))));
        exact Ei.
    + exact Ei.
Qed.

Lemma run_op_ret (o : op) (l : levelIter I) :
  positioned_ok l ->
  exists l', run_op newIters o l = Ret l' /\ positioned_ok l'.
Proof.
  intros Hok. destruct o; cbn [run_op].
  - eexists. split; [reflexivity |]. exact Hok.
  - destruct (SeekGE_ret l key Hok) as (l' & b & H1 & _ & H3 & _).
    exists l'. rewrite H1. auto.
  - destruct (SeekLT_ret l key Hok) as (l' & b & H1 & _ & H3 & _).
    exists l'. rewrite H1. auto.
  - destruct (First_ret l Hok) as (l' & b & H1 & _ & H3).
    exists l'. rewrite H1. auto.
  - destruct (Last_ret l Hok) as (l' & b & H1 & _ & H3).
    exists l'. rewrite H1. auto.
  - destruct (Next_ret l Hok) as (l' & b & H1 & _ & H3 & _).
    exists l'. rewrite H1. auto.
  - destruct (Prev_ret l Hok) as (l' & b & H1 & _ & H3 & _).
    exists l'. rewrite H1. auto.
  - eexists. split; [reflexivity |].
    apply positioned_ok_no_iter. apply Close_positioned_ok.
Qed.

Lemma reachable_positioned_ok (l : levelIter I) :
  reachable newIters l -> positioned_ok l.
Proof.
  induction 1 as [o fs | l l' o _ IH H].
  - apply positioned_ok_no_iter. reflexivity.
  - destruct (run_op_ret o l IH) as (l'' & H1 & H2).
    rewrite H1 in H. inversion H; subst. exact H2.
Qed.

(** X13.  No method of a level iterator panics or loops for ever: from
    every state the iterator can be in, every method returns (no nil file
    iterator is called, no file is indexed outside the level, and the loops
    over the files end). *)
Theorem methods_return (l : levelIter I) (o : op) :
  reachable newIters l -> exists l', run_op newIters o l = Ret l'.
Proof.
  intros Hr. destruct (run_op_ret o l (reachable_positioned_ok l Hr)) as (l' & H & _).
  exists l'. exact H.
Qed.

(** X16.  [Next] never moves to an earlier file and [Prev] never to a later
    one: they return with [index] kept or moved in their direction, over
    the same files. *)
Theorem Next_Prev_keep_direction (l : levelIter I) :
  reachable newIters l ->
  (exists l' b, Next newIters l = Ret (l', b) /\
                files l' = files l /\ index l <= index l') /\
  (exists l' b, Prev newIters l = Ret (l', b) /\
                files l' = files l /\ index l' <= index l).
Proof.
  intros Hr. pose proof (reachable_positioned_ok l Hr) as Hok. split.
  - destruct (Next_ret l Hok) as (l' & b & H1 & H2 & _ & H4). exists l', b. auto.
  - destruct (Prev_ret l Hok) as (l' & b & H1 & H2 & _ & H4). exists l', b. auto.
Qed.

(** X11.  When [loadFile] has to open a file and returns true, the file it
    opened is within the bounds of the options (its largest user key is not
    below the lower bound, its smallest user key is below the upper bound),
    the iterator is the one [newIters] returned for that file, and neither
    an error nor a boundary is recorded. *)
Theorem loadFile_opens_within_bounds (l l' : levelIter I) (idx dir : Z) :
  index l <> idx ->
  loadFile newIters l idx dir = Ret (l', true) ->
  boundary l' = None /\
  exists f r,
    file_at l (index l') = Ret f /\
    in_bounds (opts l) f /\
    newIters f (opts l) = (iter l', r, None) /\
    isSome (iter l') = true /\
    err l' = None.
Proof.
  intros Hne H. split; [apply (loadFile_boundary newIters _ _ _ _ _ H) |].
  unfold loadFile in H. cbn [index set_boundary iter] in H.
  destruct (Z.eqb_spec (index l) idx) as [| _]; [contradiction |].
  assert (Hloop : forall l0 : levelIter I,
             iter l0 = None -> files l0 = files l -> opts l0 = opts l ->
             loadFile_loop newIters (S (List.length (files l0))) l0 idx dir = Ret (l', true) ->
             exists f r,
               file_at l (index l') = Ret f /\ in_bounds (opts l) f /\
               newIters f (opts l) = (iter l', r, None) /\
               isSome (iter l') = true /\ err l' = None).
  { intros l0 Hi Hf Ho K.
    destruct (loadFile_loop_result _ _ _ _ _ _ Hi K) as (K1 & K2 & _ & K4).
    destruct (K4 eq_refl) as (f & r & F1 & F2 & F3 & F4 & F5).
    exists f, r. rewrite K2, Ho in F2, F3.
    rewrite (file_at_files l l' (index l')) in F1 by (rewrite K1; exact Hf).
    auto. }
  destruct (iter l) as [it |] eqn:Ei.
  - destruct (closeIter_fields (set_boundary l None) it) as (Co & _ & _ & _ & Cf & _).
    destruct (isSome (err (closeIter (set_boundary l None) it))); cbn [negb] in H;
      [discriminate |].
    destruct (store_rangeDelIter_fields
                (set_iter (closeIter (set_boundary l None) it) None) None)
      as (So & _ & _ & Sit & Sf & _).
    apply (Hloop _ Sit); [rewrite Sf; cbn; exact Cf | rewrite So; cbn; exact Co | exact H].
  - cbn [negb] in H.
    destruct (store_rangeDelIter_fields (set_boundary l None) None)
      as (So & _ & _ & Sit & Sf & _).
    apply (Hloop (store_rangeDelIter (set_boundary l None) None));
      [rewrite Sit; cbn; exact Ei | rewrite Sf; reflexivity | rewrite So; reflexivity
      | exact H].
Qed.

(** *** Close *)

Lemma Close_closed (l : levelIter I) :
  iter l = None ->
  rangeDelIter l = None \/ rangeDelIter l = Some None ->
  Close l = (l, err l).
Proof.
  destruct l as [o i b it r fs e]. cbn. intros -> [-> | ->]; reflexivity.
Qed.

Lemma Close_slot (l : levelIter I) :
  rangeDelIter (fst (Close l)) =
  match rangeDelIter l with
  | Some _ => Some None
  | None => None
  end.
Proof.
  destruct l as [o i b it r fs e]. unfold Close, closeIter.
  destruct it as [it |]; cbn.
  - destruct (iClose it) as [it' e']. cbn.
    destruct r as [[t |] |]; cbn; [| reflexivity | reflexivity].
    destruct (snd (iClose t)); [destruct e' |]; reflexivity.
  - destruct r as [[t |] |]; cbn; [| reflexivity | reflexivity].
    destruct (snd (iClose t)); [destruct e |]; reflexivity.
Qed.

(** X10.  [Close] releases what the iterator holds (the file iterator is
    dropped, the slot is emptied), returns the error it leaves in [err], and
    a second [Close] changes nothing and returns the same error. *)
Theorem Close_idempotent (l : levelIter I) :
  iter (fst (Close l)) = None /\
  (forall slot, rangeDelIter l = Some slot -> rangeDelIter (fst (Close l)) = Some None) /\
  snd (Close l) = err (fst (Close l)) /\
  Close (fst (Close l)) = Close l.
Proof.
  pose proof (Close_positioned_ok l) as Hi.
  pose proof (Close_slot l) as Hs.
  split; [exact Hi |]. split; [intros slot E; rewrite Hs, E; reflexivity |].
  split; [reflexivity |].
  rewrite Close_closed; [reflexivity | exact Hi |].
  rewrite Hs. destruct (rangeDelIter l); auto.
Qed.

(** *** Seeks *)

(** X14.  On the files of a level, a [SeekGE k] that returns true has not
    stopped before the file [findFileGE] names, and the file it is on can
    hold keys at or above [k]: its largest user key is above [k], or equal
    to [k] with a trailer other than the range-delete sentinel. *)
Theorem SeekGE_lands_on_candidate (l : levelIter I) (key : string) :
  level_ok (files l) ->
  reachable newIters l ->
  exists l' b,
    SeekGE newIters l key = Ret (l', b) /\
    files l' = files l /\
    (b = true ->
     findFileGE l key <= index l' /\
     exists f,
       nth_error (files l) (Z.to_nat (index l')) = Some f /\
       (0 < Compare (UserKey (largest f)) key \/
        (Compare (UserKey (largest f)) key = 0 /\
         Trailer (largest f) <> InternalKeyRangeDeleteSentinel))).
Proof.
  intros Hlevel Hr.
  destruct (SeekGE_ret l key (reachable_positioned_ok l Hr)) as (l' & b & H1 & H2 & _ & H4).
  exists l', b. split; [exact H1 |]. split; [exact H2 |].
  intros Hb. specialize (H4 Hb). split; [lia |].
  unfold findFileGE in H4.
  destruct (Search_first (Z.of_nat (List.length (files l))) (fileGE l key))
    as (S1 & _ & S3); [lia | apply fileGE_mono; exact Hlevel |].
  set (r := Search (Z.of_nat (List.length (files l))) (fileGE l key)) in *.
  assert (Hge : fileGE l key (index l') = true).
  { apply (fileGE_mono l key Hlevel r (index l')); [lia | lia |]. apply S3. lia. }
  exists (nth (Z.to_nat (index l')) (files l) zeroFile).
  pose proof (nth_error_nth_Z (files l) zeroFile (index l') ltac:(lia)) as En.
  split; [exact En |].
  apply (fileGE_iff l key (index l') _ En). exact Hge.
Qed.

(** X15.  On the files of a level, a [SeekLT k] that returns true is not
    after the file [findFileLT] names, and the file it is on starts below
    [k]. *)
Theorem SeekLT_lands_on_candidate (l : levelIter I) (key : string) :
  level_ok (files l) ->
  reachable newIters l ->
  exists l' b,
    SeekLT newIters l key = Ret (l', b) /\
    files l' = files l /\
    (b = true ->
     0 <= index l' <= findFileLT l key /\
     exists f,
       nth_error (files l) (Z.to_nat (index l')) = Some f /\
       Compare (UserKey (smallest f)) key < 0).
Proof.
  intros Hlevel Hr.
  destruct (SeekLT_ret l key (reachable_positioned_ok l Hr)) as (l' & b & H1 & H2 & _ & H4).
  exists l', b. split; [exact H1 |]. split; [exact H2 |].
  intros Hb. specialize (H4 Hb). split; [exact H4 |].
  unfold findFileLT in H4. cbv zeta in H4.
  change (fun i : Z =>
            0 <=? Compare (UserKey (smallest (nth (Z.to_nat i) (files l) zeroFile))) key)
    with (fileNotLT l key) in H4.
  destruct (Search_first (Z.of_nat (List.length (files l))) (fileNotLT l key))
    as (S1 & S2 & _); [lia | apply fileNotLT_mono; exact Hlevel |].
  set (r := Search (Z.of_nat (List.length (files l))) (fileNotLT l key)) in *.
  exists (nth (Z.to_nat (index l')) (files l) zeroFile).
  pose proof (nth_error_nth_Z (files l) zeroFile (index l') ltac:(lia)) as En.
  split; [exact En |].
  assert (Hf : fileNotLT l key (index l') = false) by (apply S2; lia).
  unfold fileNotLT in Hf. apply Z.leb_gt in Hf. exact Hf.
Qed.

(** *** The boundary of a file, backward *)

Lemma skipEmptyFileBackward_at_boundary (l : levelIter I) (it : I) (slot : option I)
    (f : fileMetadata) :
  iter l = Some it ->
  snd (iClose it) = None ->
  rangeDelIter l = Some slot ->
  file_at l (index l) = Ret f ->
  Kind (smallest f) = InternalKeyKindRangeDelete ->
  skipEmptyFileBackward newIters l = Ret (atBoundary l (smallest f), true).
Proof.
  intros Hi Hc Hr Hf Hk.
  unfold skipEmptyFileBackward. cbn [skipEmptyFileBackward_loop]. rewrite Hi.
  unfold closeIter. destruct (iClose it) as [it' e]. cbn in Hc. subst e.
  cbn [err set_err isSome]. cbv zeta. cbn [rangeDelIter set_iter set_err index].
  rewrite Hr.
  rewrite (file_at_files l _ (index l)) by reflexivity.
  rewrite Hf. cbn [bind]. rewrite Hk, Z.eqb_refl. cbn [bind].
  reflexivity.
Qed.

(** X12.  Backward as forward: with a range-del slot installed, when [Prev]
    finds the point iterator of the current file exhausted (and closes it
    without error) and the smallest key of the file has kind RANGEDEL,
    [Prev] returns true at that key, with [iter] nil, the slot kept and a
    nil [Value]; the following [Prev] returns with [index] moved to an
    earlier file or before the level. *)
Theorem boundary_materialization_backward (l : levelIter I) (it it1 : I)
    (slot : option I) (f : fileMetadata) :
  err l = None ->
  iter l = Some it ->
  rangeDelIter l = Some slot ->
  file_at l (index l) = Ret f ->
  Kind (smallest f) = InternalKeyKindRangeDelete ->
  iPrev it = (it1, false) ->
  snd (iClose it1) = None ->
  exists l',
    Prev newIters l = Ret (l', true) /\
    boundary l' = Some (smallest f) /\
    iter l' = None /\
    rangeDelIter l' = Some slot /\
    index l' = index l /\
    Valid l' = true /\
    Key l' = smallest f /\
    Value l' = None /\
    exists l'' b,
      Prev newIters l' = Ret (l'', b) /\
      index l'' < index l' /\
      (b = true -> 0 <= index l'').
Proof.
  intros He Hi Hr Hf Hk Hn Hc.
  exists (atBoundary l (smallest f)).
  split.
  { unfold Prev. rewrite He, Hi. cbn [isSome].
    unfold callIter. rewrite Hi, Hn. cbn [bind].
    rewrite (skipEmptyFileBackward_at_boundary (set_iter l (Some it1)) it1 slot f);
      auto. }
  repeat split; auto.
  unfold Prev. cbn [err atBoundary isSome iter boundary index].
  destruct (backward_positioning_ret iLast (atBoundary l (smallest f)) (index l - 1)
              (positioned_ok_no_iter (atBoundary l (smallest f)) eq_refl))
    as (l'' & b & H1 & _ & _ & _ & H5 & H6).
  exists l'', b. split; [| split].
  - unfold atBoundary in *. cbn [index] in *. rewrite <- H1.
    destruct (loadFile newIters _ (index l - 1) (-1)) as [[l1 [|]] | |]; reflexivity.
  - assert (index l'' <= index l - 1) by (apply H6; [reflexivity | cbn; lia]). lia.
  - intros Hb. specialize (H5 Hb). lia.
Qed.

(** *** What false means *)

(** The iterator has recorded an error, or it is on no entry. *)
Definition stopped (l : levelIter I) : Prop :=
  isSome (err l) = true \/ (iter l = None /\ boundary l = None).

Lemma loadFile_loop_false (fuel : nat) (l l' : levelIter I) (idx dir : Z) :
  iter l = None ->
  loadFile_loop newIters fuel l idx dir = Ret (l', false) ->
  isSome (err l') = true \/ iter l' = None.
Proof.
  revert l idx. induction fuel as [| fuel IH]; intros l idx Hit H; cbn [loadFile_loop] in H;
    [discriminate |].
  cbv zeta in H.
  destruct (_ || _).
  { inversion H; subst. right. exact Hit. }
  destruct (file_at _ _) as [f | |]; cbn [bind] in H; try discriminate.
  destruct (match GetLowerBound _ with Some _ => _ | None => _ end).
  { destruct (dir <? 0); [inversion H; subst; right; exact Hit |].
    apply IH in H; [exact H | exact Hit]. }
  destruct (match GetUpperBound _ with Some _ => _ | None => _ end).
  { destruct (0 <? dir); [inversion H; subst; right; exact Hit |].
    apply IH in H; [exact H | exact Hit]. }
  destruct (newIters f _) as [[it r] e].
  destruct (isSome e || negb (isSome it)) eqn:Eb; inversion H; subst. cbn.
  apply orb_true_iff in Eb. destruct Eb as [Eb | Eb]; [left; exact Eb |].
  right. destruct it; [discriminate | reflexivity].
Qed.

Lemma loadFile_false (l l' : levelIter I) (idx dir : Z) :
  loadFile newIters l idx dir = Ret (l', false) -> stopped l'.
Proof.
  intros H. pose proof (loadFile_boundary newIters _ _ _ _ _ H) as Hb.
  unfold loadFile in H. cbn [index set_boundary iter] in H.
  destruct (index l =? idx).
  { inversion H as [[E1 E2]]. right. split; [| reflexivity].
    cbn. destruct (iter l); [discriminate | reflexivity]. }
  assert (Hloop : forall l0 : levelIter I,
             iter l0 = None ->
             loadFile_loop newIters (S (List.length (files l0))) l0 idx dir = Ret (l', false) ->
             stopped l').
  { intros l0 Hi K. destruct (loadFile_loop_false _ _ _ _ _ Hi K) as [E | E];
      [left; exact E | right; auto]. }
  destruct (iter l) as [it |] eqn:Ei.
  - destruct (isSome (err (closeIter (set_boundary l None) it))) eqn:Ee; cbn [negb] in H.
    + inversion H; subst. left. exact Ee.
    + apply Hloop in H; [exact H |].
      rewrite (proj1 (proj2 (proj2 (proj2 (store_rangeDelIter_fields _ _))))). reflexivity.
  - cbn [negb] in H. apply Hloop in H; [exact H |].
    rewrite (proj1 (proj2 (proj2 (proj2 (store_rangeDelIter_fields _ _))))). exact Ei.
Qed.

Lemma skipEmptyFileForward_loop_false (fuel : nat) (l l' : levelIter I) :
  skipEmptyFileForward_loop newIters fuel l = Ret (l', false) -> stopped l'.
Proof.
  revert l. induction fuel as [| fuel IH]; intros l H; cbn [skipEmptyFileForward_loop] in H;
    [discriminate |].
  destruct (iter l) as [it |]; [| discriminate].
  destruct (isSome (err (closeIter l it))) eqn:Ee.
  { inversion H; subst. left. exact Ee. }
  cbv zeta in H.
  destruct (match rangeDelIter _ with Some _ => _ | None => _ end) as [[bd |] | |];
    cbn [bind] in H; try discriminate.
  destruct (loadFile newIters _ _ _) as [[l1 ok] | |] eqn:El; cbn [bind] in H;
    try discriminate.
  destruct ok; cbn [negb] in H.
  - destruct (callIter iFirst l1) as [[l2 valid] | |] eqn:Ec; cbn [bind] in H;
      try discriminate.
    destruct valid; [discriminate |]. apply IH in H. exact H.
  - inversion H; subst. apply (loadFile_false _ _ _ _ El).
Qed.

Lemma skipEmptyFileBackward_loop_false (fuel : nat) (l l' : levelIter I) :
  skipEmptyFileBackward_loop newIters fuel l = Ret (l', false) -> stopped l'.
Proof.
  revert l. induction fuel as [| fuel IH]; intros l H; cbn [skipEmptyFileBackward_loop] in H;
    [discriminate |].
  destruct (iter l) as [it |]; [| discriminate].
  destruct (isSome (err (closeIter l it))) eqn:Ee.
  { inversion H; subst. left. exact Ee. }
  cbv zeta in H.
  destruct (match rangeDelIter _ with Some _ => _ | None => _ end) as [[bd |] | |];
    cbn [bind] in H; try discriminate.
  destruct (loadFile newIters _ _ _) as [[l1 ok] | |] eqn:El; cbn [bind] in H;
    try discriminate.
  destruct ok; cbn [negb] in H.
  - destruct (callIter iLast l1) as [[l2 valid] | |] eqn:Ec; cbn [bind] in H;
      try discriminate.
    destruct valid; [discriminate |]. apply IH in H. exact H.
  - inversion H; subst. apply (loadFile_false _ _ _ _ El).
Qed.

Lemma positioning_false (m : I -> I * bool)
    (skip : levelIter I -> outcome (levelIter I * bool))
    (l l' : levelIter I) (idx dir : Z) :
  (forall l2 l3, skip l2 = Ret (l3, false) -> stopped l3) ->
  (' (l1, ok) <- loadFile newIters l idx dir ;;
   if negb ok then Ret (l1, false)
   else ' (l2, ok) <- callIter m l1 ;; if ok then Ret (l2, true) else skip l2)
  = Ret (l', false) ->
  stopped l'.
Proof.
  intros Hskip H.
  destruct (loadFile newIters l idx dir) as [[l1 ok] | |] eqn:El; cbn [bind] in H;
    try discriminate.
  destruct ok; cbn [negb] in H.
  - destruct (callIter m l1) as [[l2 ok2] | |]; cbn [bind] in H; try discriminate.
    destruct ok2; [discriminate |]. apply (Hskip _ _ H).
  - inversion H; subst. apply (loadFile_false _ _ _ _ El).
Qed.

Lemma positioning_false' (m : I -> I * bool)
    (skip : levelIter I -> outcome (levelIter I * bool))
    (l l' : levelIter I) (idx dir : Z) :
  (forall l2 l3, skip l2 = Ret (l3, false) -> stopped l3) ->
  (' (l1, ok) <- loadFile newIters l idx dir ;;
   if ok then ' (l2, ok) <- callIter m l1 ;; if ok then Ret (l2, true) else skip l2
   else Ret (l1, false))
  = Ret (l', false) ->
  stopped l'.
Proof.
  intros Hskip H. apply (positioning_false m skip l l' idx dir Hskip).
  destruct (loadFile newIters l idx dir) as [[l1 [|]] | |]; exact H.
Qed.

Lemma stopped_not_valid (l : levelIter I) :
  stopped l -> isSome (err l) = true \/ Valid l = false.
Proof.
  intros [H | [H1 H2]]; [left; exact H | right].
  unfold Valid. rewrite H1, H2. reflexivity.
Qed.

(** X17.  A positioning method returns false only when an error is
    recorded or the iterator is on no entry: after [SeekGE], [SeekLT],
    [First], [Last], [Next] or [Prev] has returned false, [err] is set or
    [Valid] is false. *)
Theorem false_means_error_or_invalid (l l' : levelIter I) :
  (forall key, SeekGE newIters l key = Ret (l', false) ->
               isSome (err l') = true \/ Valid l' = false) /\
  (forall key, SeekLT newIters l key = Ret (l', false) ->
               isSome (err l') = true \/ Valid l' = false) /\
  (First newIters l = Ret (l', false) -> isSome (err l') = true \/ Valid l' = false) /\
  (Last newIters l = Ret (l', false) -> isSome (err l') = true \/ Valid l' = false) /\
  (Next newIters l = Ret (l', false) -> isSome (err l') = true \/ Valid l' = false) /\
  (Prev newIters l = Ret (l', false) -> isSome (err l') = true \/ Valid l' = false).
Proof.
  assert (Hf : forall l2 l3,
             skipEmptyFileForward newIters l2 = Ret (l3, false) -> stopped l3)
    by (intros l2 l3; apply skipEmptyFileForward_loop_false).
  assert (Hb : forall l2 l3,
             skipEmptyFileBackward newIters l2 = Ret (l3, false) -> stopped l3)
    by (intros l2 l3; apply skipEmptyFileBackward_loop_false).
  repeat split.
  - intros key H. apply stopped_not_valid. apply (positioning_false _ _ _ _ _ _ Hf H).
  - intros key H. apply stopped_not_valid. apply (positioning_false _ _ _ _ _ _ Hb H).
  - intros H. apply stopped_not_valid. apply (positioning_false _ _ _ _ _ _ Hf H).
  - intros H. apply stopped_not_valid. apply (positioning_false _ _ _ _ _ _ Hb H).
  - intros H. apply stopped_not_valid. unfold Next in H.
    destruct (isSome (err l)) eqn:Ee; [inversion H; subst; left; exact Ee |].
    destruct (iter l) as [it |] eqn:Ei.
    + destruct (callIter iNext l) as [[l2 ok] | |]; cbn [bind] in H; try discriminate.
      destruct ok; [discriminate |]. apply (Hf _ _ H).
    + destruct (isSome (boundary l)) eqn:Eb.
      * apply (positioning_false' _ _ _ _ _ _ Hf H).
      * destruct (index l =? -1).
        -- apply (positioning_false' _ _ _ _ _ _ Hf H).
        -- inversion H; subst. right. split; [exact Ei |].
           destruct (boundary l'); [discriminate | reflexivity].
  - intros H. apply stopped_not_valid. unfold Prev in H.
    destruct (isSome (err l)) eqn:Ee; [inversion H; subst; left; exact Ee |].
    destruct (iter l) as [it |] eqn:Ei.
    + destruct (callIter iPrev l) as [[l2 ok] | |]; cbn [bind] in H; try discriminate.
      destruct ok; [discriminate |]. apply (Hb _ _ H).
    + destruct (isSome (boundary l)) eqn:Eb.
      * apply (positioning_false' _ _ _ _ _ _ Hb H).
      * cbv zeta in H. destruct (index l =? _).
        -- apply (positioning_false' _ _ _ _ _ _ Hb H).
        -- inversion H; subst. right. split; [exact Ei |].
           destruct (boundary l'); [discriminate | reflexivity].
Qed.

End LevelIterMore.

(** * Scenarios

    Concrete memtables and levels under the default comparer, on which the
    theorems above are instantiated. *)

Local Open Scope string_scope.

(** A footprint for the nodes of the example arena. *)
Definition exNodeSize (keyBytes valueBytes : Z) : Z := keyBytes + valueBytes + 32.

(** On tombstones that do not overlap the fragmenter emits each as it is. *)
Definition exFragment (s : arenaskl.Skiplist) : list Tombstone :=
  map (fun kv => {| Start := fst kv; End_ := snd kv |}) s.

Definition exEmptyMem (capacity : Z) : memTable :=
  {| skl := []; rangeDelSkl := [];
     arena := {| arenaskl.n := 0; arenaskl.buf_len := capacity |};
     emptySize := 0; reserved := 0; refs := 1;
     tombstones_count := 0; tombstones_vals := None; heap := [] |}.

(** ** get *)

Definition exFruit : memTable :=
  {| skl := [ (MakeInternalKey "cherry" 1 InternalKeyKindSet, "red");
              (MakeInternalKey "grape" 3 InternalKeyKindDelete, "");
              (MakeInternalKey "grape" 2 InternalKeyKindSet, "green");
              (MakeInternalKey "peach" 5 InternalKeyKindMerge, "yellow");
              (MakeInternalKey "peach" 4 InternalKeyKindSet, "white") ];
     rangeDelSkl := [];
     arena := {| arenaskl.n := 300; arenaskl.buf_len := 4096 |};
     emptySize := 0; reserved := 300; refs := 1;
     tombstones_count := 0; tombstones_vals := None; heap := [] |}.

Lemma exFruit_sorted : arenaskl.sorted (skl exFruit).
Proof.
  unfold arenaskl.sorted. cbn [map skl exFruit fst].
  repeat (constructor; [| repeat (constructor; [vm_compute; reflexivity |]); constructor]).
  constructor.
Qed.

Lemma get_returns_newest_entry_witness :
  get exFruit "peach" = (Some "yellow", None) /\
  get exFruit "grape" = (None, Some ErrNotFound) /\
  get exFruit "lychee" = (None, Some ErrNotFound).
Proof.
  pose proof (get_returns_newest_entry exFruit) as T.
  split; [| split].
  - destruct (T "peach" exFruit_sorted) as [T1 _].
    apply (proj1 (T1 (MakeInternalKey "peach" 5 InternalKeyKindMerge) "yellow"
                     ltac:(cbn; auto 10) eq_refl
                     ltac:(intros e' v' Hin Hk Hne; cbn in Hin;
                           repeat (destruct Hin as [Hin | Hin];
                                   [inversion Hin; subst;
                                    first [ discriminate Hk
                                          | exfalso; apply Hne; reflexivity
                                          | vm_compute; reflexivity ] |]);
                           contradiction))).
    right. reflexivity.
  - destruct (T "grape" exFruit_sorted) as [T1 _].
    apply (proj2 (T1 (MakeInternalKey "grape" 3 InternalKeyKindDelete) ""
                     ltac:(cbn; auto 10) eq_refl
                     ltac:(intros e' v' Hin Hk Hne; cbn in Hin;
                           repeat (destruct Hin as [Hin | Hin];
                                   [inversion Hin; subst;
                                    first [ discriminate Hk
                                          | exfalso; apply Hne; reflexivity
                                          | vm_compute; reflexivity ] |]);
                           contradiction))).
    reflexivity.
  - destruct (T "lychee" exFruit_sorted) as [_ T2].
    apply T2. intros e v Hin. cbn in Hin.
    repeat (destruct Hin as [Hin | Hin]; [inversion Hin; subst; reflexivity |]).
    contradiction.
Defined.

(** ** prepare *)

(** A memtable after a first write: the batch was prepared against an
    estimate of 80 bytes, took 50 bytes of the arena, and its reference was
    dropped again. *)
Definition exWritten : memTable :=
  {| skl := [ (MakeInternalKey "a" 1 InternalKeyKindSet, "a") ];
     rangeDelSkl := [];
     arena := {| arenaskl.n := 60; arenaskl.buf_len := 100 |};
     emptySize := 10; reserved := 90; refs := 1;
     tombstones_count := 0; tombstones_vals := None; heap := [] |}.

Definition exBatch (size : Z) : Batch :=
  {| entries := [ (InternalKeyKindSet, "b", "b") ]; count := 1; memTableSize := size |}.

Lemma prepare_arena_full_witness :
  prepare (ref exWritten) (exBatch 20) = (ref exWritten, Some ErrArenaFull).
Proof.
  pose proof (prepare_arena_full (ref exWritten) (exBatch 20)) as T.
  destruct T as (T1 & _ & T3); [vm_compute; reflexivity |].
  rewrite <- (T3 ltac:(vm_compute; discriminate)) at 2.
  destruct (prepare (ref exWritten) (exBatch 20)) as [m e] eqn:E.
  inversion T1; subst. reflexivity.
Defined.

(** The batch of 50 bytes exceeds the capacity minus [reserved] (100 - 90),
    and [prepare] returns ArenaFull, but with [reserved] moved from 90 to
    the size of the arena, 60. *)
Lemma prepare_arena_full_moves_reserved :
  arenaskl.Capacity (arena exWritten) - reserved exWritten < memTableSize (exBatch 50) /\
  snd (prepare exWritten (exBatch 50)) = Some ErrArenaFull /\
  reserved (fst (prepare exWritten (exBatch 50))) = 60 /\
  reserved exWritten = 90 /\
  fst (prepare exWritten (exBatch 50)) <> exWritten.
Proof.
  repeat split; try (vm_compute; reflexivity).
  intros H. apply (f_equal reserved) in H. vm_compute in H. discriminate.
Qed.

(** A batch of 20 bytes exceeds the capacity minus [reserved] as well, and
    [prepare] accepts it. *)
Lemma prepare_accepts_after_snap :
  arenaskl.Capacity (arena exWritten) - reserved exWritten < memTableSize (exBatch 20) /\
  snd (prepare exWritten (exBatch 20)) = None /\
  reserved (fst (prepare exWritten (exBatch 20))) = 80 /\
  refs (fst (prepare exWritten (exBatch 20))) = 2.
Proof. repeat split; vm_compute; reflexivity. Qed.

(** ** apply *)

(** The mixed batch of the delete_range test data. *)
Definition exMixed : Batch :=
  {| entries := [ (InternalKeyKindSet, "a", "a");
                  (InternalKeyKindDelete, "b", "b");
                  (InternalKeyKindMerge, "c", "c");
                  (InternalKeyKindRangeDelete, "d", "e");
                  (InternalKeyKindSet, "f", "f");
                  (InternalKeyKindDelete, "g", "g");
                  (InternalKeyKindMerge, "h", "h");
                  (InternalKeyKindRangeDelete, "i", "j") ];
     count := 8; memTableSize := 8 * 42 |}.

Example apply_mixed_batch :
  exists m',
    apply exNodeSize (exEmptyMem 4096) exMixed 1 = Ret (m', None) /\
    map fst (skl m') =
      [ MakeInternalKey "a" 1 1; MakeInternalKey "b" 2 0; MakeInternalKey "c" 3 2;
        MakeInternalKey "f" 5 1; MakeInternalKey "g" 6 0; MakeInternalKey "h" 7 2 ] /\
    map fst (rangeDelSkl m') = [ MakeInternalKey "d" 4 15; MakeInternalKey "i" 8 15 ].
Proof.
  eexists. split; [vm_compute; reflexivity |].
  split; vm_compute; reflexivity.
Qed.

(** What [apply] returns, without the memtable. *)
Definition returned_error (o : outcome (memTable * option error)) : option (option error) :=
  match o with
  | Ret (_, err) => Some err
  | _ => None
  end.

Lemma apply_assigns_consecutive_seqnums_witness :
  0 <= 1 < 2 ^ 64 /\
  count exMixed = Z.of_nat (List.length (entries exMixed)) /\
  exists m',
    apply exNodeSize (exEmptyMem 4096) exMixed 1 = Ret (m', None) /\
    snd (fst (apply_loop exNodeSize (exEmptyMem 4096) (entries exMixed) 1)) = 9 /\
    forall i kind ukey value,
      nth_error (entries exMixed) i = Some (kind, ukey, value) ->
      In (MakeInternalKey ukey (wrap64 (1 + Z.of_nat i)) kind, value) (skl_of kind m') /\
      (1 + Z.of_nat i < 2 ^ 56 -> 0 <= kind < 256 ->
       SeqNum (MakeInternalKey ukey (wrap64 (1 + Z.of_nat i)) kind) = 1 + Z.of_nat i /\
       Kind (MakeInternalKey ukey (wrap64 (1 + Z.of_nat i)) kind) = kind).
Proof.
  assert (H1 : 0 <= 1 < 2 ^ 64) by lia.
  assert (H2 : count exMixed = Z.of_nat (List.length (entries exMixed))) by reflexivity.
  split; [exact H1 |]. split; [exact H2 |].
  destruct (apply_assigns_consecutive_seqnums exNodeSize (exEmptyMem 4096) exMixed 1 H1 H2)
    as (m' & err & j & Ha & Hl & Hin & Hm).
  assert (He : returned_error (apply exNodeSize (exEmptyMem 4096) exMixed 1) = Some None)
    by (vm_compute; reflexivity).
  rewrite Ha in He. cbn [returned_error] in He. injection He as ->.
  destruct Hm as [Hj _].
  assert (Hj8 : j = 8%nat) by (change (count exMixed) with 8 in Hj; lia).
  subst j.
  exists m'. split; [exact Ha |]. split; [rewrite Hl; reflexivity |].
  intros i kind ukey value Hn. apply Hin; [| exact Hn].
  assert (Hlen : (i < List.length (entries exMixed))%nat).
  { apply nth_error_Some. rewrite Hn. discriminate. }
  exact Hlen.
Defined.

(** A memtable that holds the tombstone [a-c] at sequence number 5. *)
Definition exOneTombstone : memTable :=
  {| skl := [];
     rangeDelSkl := [ (MakeInternalKey "a" 5 InternalKeyKindRangeDelete, "c") ];
     arena := {| arenaskl.n := 42; arenaskl.buf_len := 4096 |};
     emptySize := 0; reserved := 42; refs := 2;
     tombstones_count := 1; tombstones_vals := None; heap := [] |}.

Definition exSameTombstone : Batch :=
  {| entries := [ (InternalKeyKindRangeDelete, "a", "c") ]; count := 1; memTableSize := 42 |}.

Lemma apply_counts_failed_rangedel_witness :
  apply exNodeSize exOneTombstone exSameTombstone 5
    = Ret (set_tombstones_vals (set_tombstones_count exOneTombstone 2) None,
           Some ErrRecordExists) /\
  set exNodeSize exOneTombstone (MakeInternalKey "a" 5 InternalKeyKindRangeDelete) "c"
    = (exOneTombstone, Some ErrRecordExists) /\
  (Z.of_nat (List.length (rangeDelSkl exOneTombstone)) < 2)%Z.
Proof.
  assert (Hadd : snd (arenaskl.Add exNodeSize (rangeDelSkl exOneTombstone)
                        (arena exOneTombstone)
                        (MakeInternalKey "a" 5 InternalKeyKindRangeDelete) "c")
                 = Some ErrRecordExists) by (vm_compute; reflexivity).
  destruct (apply_counts_failed_rangedel exNodeSize exOneTombstone exOneTombstone
              exSameTombstone 5 5 [] [] "a" "c" ErrRecordExists eq_refl eq_refl Hadd)
    as (H1 & _ & _ & H4).
  split; [exact H1 |]. split; [exact H4 |]. cbn. lia.
Defined.

(** ** newRangeDelIter under interference *)

(** Another reader, which runs [newRangeDelIter] to its end. *)
Definition otherReader : interference :=
  fun m =>
    match newRangeDelIter exFragment alone m with
    | Ret (m', _) => m'
    | _ => m
    end.

(** A writer, which applies one range tombstone. *)
Definition otherWriter (seqNum : Z) (ukey end_ : string) : interference :=
  fun m => fst (apply_entry exNodeSize m seqNum (InternalKeyKindRangeDelete, ukey, end_)).

(** Two readers find the cache empty; the other one publishes first. *)
Definition exRace : schedule :=
  {| after_first_load := fun m => m;
     in_loop := [ (otherReader, fun m => m) ] |}.

(** A memtable of 60 bytes in which the Add of a first, long tombstone
    failed (it was counted all the same) and a reader has cached the empty
    sequence of fragments. *)
Definition exCountedOnly : memTable :=
  otherReader (otherWriter 1 "a" "a-key-that-does-not-fit-the-arena" (exEmptyMem 60)).

(** While this reader is between its build and the loop, a writer adds the
    tombstone [a-c] and another reader caches the one fragment. *)
Definition exShrink : schedule :=
  {| after_first_load := fun m => m;
     in_loop := [ (fun m => otherReader (otherWriter 2 "a" "c" m), fun m => m) ] |}.

(** What the loop of the reader loads in the run [exShrink]. *)
Definition exSeenInLoop : memTable :=
  otherReader (otherWriter 2 "a" "c"
                 (alloc exCountedOnly (exFragment (rangeDelSkl exCountedOnly)))).

Example exCountedOnly_state :
  tombstones_count exCountedOnly = 1 /\
  rangeDelSkl exCountedOnly = [] /\
  cached exCountedOnly = Some [].
Proof. repeat split; vm_compute; reflexivity. Qed.

(** C7, on the code.  The loop of [newRangeDelIter] measures the new
    sequence against the sequence of the first load ([tombstonesPtr]), not
    against the one it just loaded ([oldPtr]).  When the first load was nil
    and another reader has published since, the dereference panics; when
    the first load led to an empty sequence, a longer sequence published
    since (here of length 1) is replaced by the shorter new one (length 0). *)
Theorem newRangeDelIter_compares_with_first_load :
  newRangeDelIter exFragment exRace exOneTombstone = Panic "nil pointer dereference" /\
  option_map (@List.length Tombstone) (cached exSeenInLoop) = Some 1%nat /\
  exists m',
    newRangeDelIter exFragment exShrink exCountedOnly = Ret (m', Some []) /\
    option_map (@List.length Tombstone) (cached m') = Some 0%nat.
Proof.
  split; [vm_compute; reflexivity |].
  split; [vm_compute; reflexivity |].
  eexists. split; [vm_compute; reflexivity | vm_compute; reflexivity].
Qed.

(** ** A level of two files *)

(** A slice-backed iterator, as the tests of the package use for files.
    [closeErrs] scripts what the successive calls of [Close] return. *)
Record sliceIter : Type := {
  items : list (InternalKey * string);
  pos : Z;
  closeErrs : list (option error)
}.

Definition slice_at (it : sliceIter) (p : Z) : sliceIter * bool :=
  ({| items := items it; pos := p; closeErrs := closeErrs it |},
   ((0 <=? p)%Z && (p <? Z.of_nat (List.length (items it)))%Z)%bool).

Definition slice_close (it : sliceIter) : sliceIter * option error :=
  match closeErrs it with
  | [] => (it, None)
  | e :: rest => ({| items := items it; pos := pos it; closeErrs := rest |}, e)
  end.

#[export] Instance sliceIterator : internalIterator sliceIter := {|
  iSeekGE := fun it key => slice_at it (Z.of_nat (arenaskl.seek key (items it)));
  iSeekLT := fun it key => slice_at it (Z.of_nat (arenaskl.seek key (items it)) - 1);
  iFirst := fun it => slice_at it 0;
  iLast := fun it => slice_at it (Z.of_nat (List.length (items it)) - 1);
  iNext := fun it => slice_at it (pos it + 1);
  iPrev := fun it => slice_at it (pos it - 1);
  iKey := fun it => nth (Z.to_nat (pos it)) (map fst (items it)) InvalidInternalKey;
  iValue := fun it => nth_error (map snd (items it)) (Z.to_nat (pos it));
  iValid := fun it => snd (slice_at it (pos it));
  iError := fun _ => None;
  iClose := slice_close
|}.

Definition sliceOf (kvs : list (InternalKey * string)) (errs : list (option error))
  : sliceIter :=
  {| items := kvs; pos := -1; closeErrs := errs |}.

(** File 1 holds [a#1,SET] and [b#2,SET] and the tombstone [b-c#3]; its
    largest key is the RANGEDEL key [c#3].  File 2 holds [d#4] and [e#5]. *)
Definition exFile1 : fileMetadata :=
  {| fileNum := 1;
     smallest := MakeInternalKey "a" 1 InternalKeyKindSet;
     largest := MakeInternalKey "c" 3 InternalKeyKindRangeDelete |}.

Definition exFile2 : fileMetadata :=
  {| fileNum := 2;
     smallest := MakeInternalKey "d" 4 InternalKeyKindSet;
     largest := MakeInternalKey "e" 5 InternalKeyKindSet |}.

Definition exNewIters (f : fileMetadata) (o : option IterOptions)
  : option sliceIter * option sliceIter * option error :=
  if (fileNum f =? 1)%Z then
    (Some (sliceOf [ (MakeInternalKey "a" 1 InternalKeyKindSet, "1");
                     (MakeInternalKey "b" 2 InternalKeyKindSet, "2") ] []),
     Some (sliceOf [ (MakeInternalKey "b" 3 InternalKeyKindRangeDelete, "c") ] []),
     None)
  else if (fileNum f =? 2)%Z then
    (Some (sliceOf [ (MakeInternalKey "d" 4 InternalKeyKindSet, "4");
                     (MakeInternalKey "e" 5 InternalKeyKindSet, "5") ] []),
     None, None)
  else (None, None, Some (ErrIO "no such table")).

(** The state a method leaves, for a run that is known to return. *)
Definition after {A} (o : outcome (levelIter sliceIter * A)) (d : levelIter sliceIter)
  : levelIter sliceIter :=
  match o with
  | Ret (l, _) => l
  | _ => d
  end.

(** A new iterator over the two files, with a slot installed. *)
Definition exNew : levelIter sliceIter :=
  initRangeDel (newLevelIter None [exFile1; exFile2]) (Some None).

(** After [First] and [Next]: on [b#2], the last point of file 1. *)
Definition exOnB : levelIter sliceIter :=
  after (Next exNewIters (after (First exNewIters exNew) exNew)) exNew.

(** After [Last] and [Next]: off the end of the level. *)
Definition exOffEnd : levelIter sliceIter :=
  after (Next exNewIters (after (Last exNewIters exNew) exNew)) exNew.

Example exOnB_state :
  Valid exOnB = true /\ Key exOnB = MakeInternalKey "b" 2 InternalKeyKindSet /\
  Value exOnB = Some "2" /\ index exOnB = 0.
Proof. repeat split; vm_compute; reflexivity. Qed.

Example exOffEnd_state :
  Valid exOffEnd = false /\ index exOffEnd = 2 /\ iter exOffEnd = None /\
  boundary exOffEnd = None /\ err exOffEnd = None.
Proof. repeat split; vm_compute; reflexivity. Qed.

(** ** findFileGE at a sentinel *)

(** Table X ends at the sentinel of [b], table Y starts at [b#4,SET]. *)
Definition exSentinelLevel : levelIter sliceIter :=
  newLevelIter None
    [ {| fileNum := 1;
         smallest := MakeInternalKey "a" 3 InternalKeyKindRangeDelete;
         largest := {| UserKey := "b"; Trailer := InternalKeyRangeDeleteSentinel |} |};
      {| fileNum := 2;
         smallest := MakeInternalKey "b" 4 InternalKeyKindSet;
         largest := MakeInternalKey "c" 5 InternalKeyKindSet |} ].

Lemma exSentinelLevel_ok : level_ok (files exSentinelLevel).
Proof.
  split.
  - repeat constructor; vm_compute; discriminate.
  - repeat constructor; vm_compute; reflexivity.
Qed.

Example findFileGE_sentinel :
  findFileGE exSentinelLevel "b" = 1%Z /\ findFileGE exSentinelLevel "a" = 0%Z /\
  findFileGE exSentinelLevel "d" = 2%Z.
Proof. repeat split; vm_compute; reflexivity. Qed.

Lemma findFileGE_first_file_witness :
  (0 <= findFileGE exSentinelLevel "b" <= 2)%Z /\
  forall f,
    nth_error (files exSentinelLevel) (Z.to_nat (findFileGE exSentinelLevel "b")) = Some f ->
    ~ (Compare (UserKey (largest f)) "b" = 0%Z /\
       Trailer (largest f) = InternalKeyRangeDeleteSentinel).
Proof.
  destruct (findFileGE_first_file exSentinelLevel "b" exSentinelLevel_ok)
    as (H1 & _ & H3).
  split; [exact H1 |].
  intros f Hf. exact (proj2 (H3 f Hf)).
Defined.

(** ** The boundary of file 1 *)

(** The iterator of file 1 on its last point. *)
Definition exIterOnB : sliceIter :=
  fst (slice_at (sliceOf [ (MakeInternalKey "a" 1 InternalKeyKindSet, "1");
                           (MakeInternalKey "b" 2 InternalKeyKindSet, "2") ] []) 1).

Lemma boundary_materialization_witness :
  exists l',
    Next exNewIters exOnB = Ret (l', true) /\
    boundary l' = Some (largest exFile1) /\
    iter l' = None /\
    Key l' = MakeInternalKey "c" 3 InternalKeyKindRangeDelete /\
    Value l' = None /\
    exists l'' b, Next exNewIters l' = Ret (l'', b) /\ (index l' < index l'')%Z.
Proof.
  destruct (boundary_materialization exNewIters exOnB
              exIterOnB (fst (iNext exIterOnB))
              (Some (sliceOf [ (MakeInternalKey "b" 3 InternalKeyKindRangeDelete, "c") ] []))
              exFile1)
    as (l' & H1 & H2 & H3 & _ & _ & _ & H7 & H8 & l'' & b & H9 & H10 & _).
  - vm_compute; reflexivity.
  - vm_compute; reflexivity.
  - vm_compute; reflexivity.
  - vm_compute; reflexivity.
  - vm_compute; reflexivity.
  - vm_compute; reflexivity.
  - vm_compute; reflexivity.
  - exists l'. repeat split; auto. exists l'', b. auto.
Defined.

(** ** Reachable positions *)

Lemma exOnB_reachable : reachable exNewIters exOnB.
Proof.
  apply (reachable_step exNewIters (after (First exNewIters exNew) exNew) exOnB OpNext);
    [| vm_compute; reflexivity].
  apply (reachable_step exNewIters exNew _ OpFirst); [| vm_compute; reflexivity].
  apply (reachable_step exNewIters (newLevelIter None [exFile1; exFile2]) exNew
           (OpInitRangeDel (Some None))); [| reflexivity].
  apply reachable_new.
Qed.

Lemma valid_position_iter_xor_boundary_witness :
  xorb (isSome (iter exOnB)) (isSome (boundary exOnB)) = true /\
  xorb (isSome (iter (after (Next exNewIters exOnB) exNew)))
       (isSome (boundary (after (Next exNewIters exOnB) exNew))) = true.
Proof.
  split.
  - apply (valid_position_iter_xor_boundary exNewIters exOnB exOnB_reachable).
    vm_compute; reflexivity.
  - apply (valid_position_iter_xor_boundary exNewIters).
    + apply (reachable_step exNewIters exOnB _ OpNext exOnB_reachable).
      vm_compute; reflexivity.
    + vm_compute; reflexivity.
Defined.

(** ** Off the ends *)


Example Next_on_new_iterator :
  exists l, Next exNewIters exNew = Ret (l, true) /\
            Key l = MakeInternalKey "a" 1 InternalKeyKindSet.
Proof. eexists. split; [vm_compute; reflexivity | vm_compute; reflexivity]. Qed.

Example Prev_off_the_end :
  exists l, Prev exNewIters exOffEnd = Ret (l, true) /\
            Key l = MakeInternalKey "e" 5 InternalKeyKindSet.
Proof. eexists. split; [vm_compute; reflexivity | vm_compute; reflexivity]. Qed.

(** ** Close after an error *)

(** A level of one table whose iterator fails its first [Close] and
    returns nil from the next. *)
Definition exFailingNewIters (f : fileMetadata) (o : option IterOptions)
  : option sliceIter * option sliceIter * option error :=
  (Some (sliceOf [ (MakeInternalKey "a" 1 InternalKeyKindSet, "1") ]
                 [ Some (ErrIO "close failed") ]),
   None, None).

Definition exFailing : levelIter sliceIter :=
  newLevelIter None
    [ {| fileNum := 3;
         smallest := MakeInternalKey "a" 1 InternalKeyKindSet;
         largest := MakeInternalKey "a" 1 InternalKeyKindSet |} ].

(** After [First] and a [Next] that ran off the table and failed to close
    its iterator. *)
Definition exFailed : levelIter sliceIter :=
  after (Next exFailingNewIters (after (First exFailingNewIters exFailing) exFailing))
        exFailing.

(** The same table with an iterator whose second [Close] fails as well,
    with an error of its own. *)
Definition exFailingTwiceNewIters (f : fileMetadata) (o : option IterOptions)
  : option sliceIter * option sliceIter * option error :=
  (Some (sliceOf [ (MakeInternalKey "a" 1 InternalKeyKindSet, "1") ]
                 [ Some (ErrIO "close failed"); Some (ErrIO "already closed") ]),
   None, None).

Definition exFailedTwice : levelIter sliceIter :=
  after (Next exFailingTwiceNewIters
           (after (First exFailingTwiceNewIters exFailing) exFailing))
        exFailing.

(** C6, on the code.  [First] returns true, the following [Next] fails to
    close the exhausted file iterator and records the error: from then on
    [Next] and [Prev] return false and change nothing, and [Error] returns
    the error.  [Close] then closes the file iterator again and stores the
    result of that call over the recorded error: it returns nil, or the
    error of its own call of [Close], not the error recorded before. *)
Theorem Close_drops_recorded_error :
  (exists l1, First exFailingNewIters exFailing = Ret (l1, true) /\
              Next exFailingNewIters l1 = Ret (exFailed, false)) /\
  err exFailed = Some (ErrIO "close failed") /\
  Next exFailingNewIters exFailed = Ret (exFailed, false) /\
  Prev exFailingNewIters exFailed = Ret (exFailed, false) /\
  Error exFailed = Some (ErrIO "close failed") /\
  snd (Close exFailed) = None /\
  err exFailedTwice = Some (ErrIO "close failed") /\
  snd (Close exFailedTwice) = Some (ErrIO "already closed").
Proof.
  split; [eexists; split; [vm_compute; reflexivity | vm_compute; reflexivity] |].
  repeat split; vm_compute; reflexivity.
Qed.

(** ** Further scenarios of the memtable *)


Lemma prepare_reserves_within_capacity_witness :
  reserved (fst (prepare exWritten (exBatch 20))) = (60 + 20)%Z /\
  (reserved (fst (prepare exWritten (exBatch 20))) <= 100)%Z.
Proof.
  destruct (prepare_reserves_within_capacity exWritten
              (fst (prepare exWritten (exBatch 20))) (exBatch 20)
              ltac:(cbn; lia) ltac:(cbn; lia) ltac:(cbn; lia) ltac:(cbn; lia)
              ltac:(vm_compute; reflexivity))
    as (H1 & H2 & _).
  split; [exact H1 | exact H2].
Defined.

Lemma prepare_then_unref_witness :
  readyForFlush (fst (prepare exWritten (exBatch 20))) = false /\
  unref (fst (prepare exWritten (exBatch 20)))
    = Ret (set_refs (fst (prepare exWritten (exBatch 20))) 1, false).
Proof.
  exact (prepare_then_unref exWritten (fst (prepare exWritten (exBatch 20))) (exBatch 20)
           ltac:(cbn; lia) ltac:(vm_compute; reflexivity)).
Defined.

(** A newer SET of [grape], above the DELETE the memtable holds. *)
Definition exNewGrape : InternalKey := MakeInternalKey "grape" 7 InternalKeyKindSet.

Lemma set_then_get_witness :
  get (fst (set exNodeSize exFruit exNewGrape "green")) "grape" = (Some "green", None).
Proof.
  apply (set_then_get exNodeSize exFruit (fst (set exNodeSize exFruit exNewGrape "green"))
           exNewGrape "green" exFruit_sorted).
  - intros H. vm_compute in H. discriminate.
  - intros e v Hin Hk. cbn in Hin.
    repeat (destruct Hin as [Hin | Hin];
            [inversion Hin; subst;
             first [ discriminate Hk | vm_compute; reflexivity ] |]).
    contradiction.
  - vm_compute. reflexivity.
Defined.

Lemma writes_keep_order_witness :
  arenaskl.sorted (skl (fst (set exNodeSize exFruit exNewGrape "green"))) /\
  arenaskl.sorted (rangeDelSkl (fst (set exNodeSize exFruit exNewGrape "green"))).
Proof.
  exact (proj2 (writes_keep_order exNodeSize exFruit exFruit_sorted
                  (SSorted_nil _)) exNewGrape "green").
Defined.

Lemma set_keeps_tombstone_count_witness :
  tombstones_count
    (fst (set exNodeSize exOneTombstone
            (MakeInternalKey "d" 6 InternalKeyKindRangeDelete) "f"))
  = Z.of_nat (List.length
                (rangeDelSkl
                   (fst (set exNodeSize exOneTombstone
                           (MakeInternalKey "d" 6 InternalKeyKindRangeDelete) "f")))).
Proof.
  exact (proj1 (set_keeps_tombstone_count exNodeSize exOneTombstone
                  (MakeInternalKey "d" 6 InternalKeyKindRangeDelete) "f"
                  eq_refl ltac:(cbn; lia))).
Defined.

Lemma reads_see_stored_tombstones_witness :
  exists m',
    newRangeDelIter exFragment alone exOneTombstone
      = Ret (m', Some (exFragment (rangeDelSkl exOneTombstone))) /\
    rangeDelSkl m' = rangeDelSkl exOneTombstone /\
    cached m' = Some (exFragment (rangeDelSkl exOneTombstone)) /\
    cache_ok exFragment m'.
Proof.
  exact (proj2 (reads_see_stored_tombstones exNodeSize exFragment exOneTombstone I)
           ltac:(cbn; discriminate)).
Defined.

(** A batch whose second entry is the tombstone the memtable holds. *)
Definition exHalfBatch : Batch :=
  {| entries := [ (InternalKeyKindSet, "x", "1");
                  (InternalKeyKindRangeDelete, "a", "c") ];
     count := 2; memTableSize := 84 |}.

Lemma apply_stops_at_failed_insert_witness :
  exists m2,
    apply exNodeSize exOneTombstone exHalfBatch 4 = Ret (m2, Some ErrRecordExists) /\
    In (MakeInternalKey "x" (wrap64 (4 + Z.of_nat 0)) InternalKeyKindSet, "1")
       (skl_of InternalKeyKindSet m2).
Proof.
  destruct (apply_stops_at_failed_insert exNodeSize exOneTombstone
              (fst (fst (apply_loop exNodeSize exOneTombstone
                           [ (InternalKeyKindSet, "x", "1") ] 4)))
              (fst (apply_entry exNodeSize
                      (fst (fst (apply_loop exNodeSize exOneTombstone
                                   [ (InternalKeyKindSet, "x", "1") ] 4)))
                      5 (InternalKeyKindRangeDelete, "a", "c")))
              exHalfBatch 4 5
              [ (InternalKeyKindSet, "x", "1") ] []
              (InternalKeyKindRangeDelete, "a", "c") ErrRecordExists
              ltac:(lia) eq_refl
              ltac:(vm_compute; reflexivity) ltac:(vm_compute; reflexivity))
    as (H1 & _ & _ & _ & H5).
  eexists. split; [exact H1 |].
  exact (H5 0%nat InternalKeyKindSet "x" "1" eq_refl).
Defined.

(** ** Further scenarios of the level iterator *)

(** The tables X and Y of [exSentinelLevel]: X holds [a#2,SET] and the
    tombstone [a-b#3], Y holds [b#4,SET] and [c#5,SET]. *)
Definition exSentinelNewIters (f : fileMetadata) (o : option IterOptions)
  : option sliceIter * option sliceIter * option error :=
  if (fileNum f =? 1)%Z then
    (Some (sliceOf [ (MakeInternalKey "a" 2 InternalKeyKindSet, "x") ] []),
     Some (sliceOf [ (MakeInternalKey "a" 3 InternalKeyKindRangeDelete, "b") ] []),
     None)
  else
    (Some (sliceOf [ (MakeInternalKey "b" 4 InternalKeyKindSet, "y");
                     (MakeInternalKey "c" 5 InternalKeyKindSet, "z") ] []),
     None, None).

Example SeekGE_at_sentinel :
  exists l, SeekGE exSentinelNewIters exSentinelLevel "b" = Ret (l, true) /\
            index l = 1%Z /\ Key l = MakeInternalKey "b" 4 InternalKeyKindSet.
Proof.
  eexists. split; [vm_compute; reflexivity |]. split; vm_compute; reflexivity.
Qed.

Lemma findFileLT_last_file_witness :
  (-1 <= findFileLT exSentinelLevel "b" < 2)%Z /\
  forall i f, (0 <= i <= findFileLT exSentinelLevel "b")%Z ->
              nth_error (files exSentinelLevel) (Z.to_nat i) = Some f ->
              (Compare (UserKey (smallest f)) "b" < 0)%Z.
Proof.
  destruct (findFileLT_last_file exSentinelLevel "b" exSentinelLevel_ok) as (H1 & H2 & _).
  split; [exact H1 | exact H2].
Defined.

Lemma SeekGE_lands_on_candidate_witness :
  exists l' b,
    SeekGE exSentinelNewIters exSentinelLevel "b" = Ret (l', b) /\
    files l' = files exSentinelLevel /\
    (b = true ->
     (findFileGE exSentinelLevel "b" <= index l')%Z /\
     exists f,
       nth_error (files exSentinelLevel) (Z.to_nat (index l')) = Some f /\
       ((0 < Compare (UserKey (largest f)) "b")%Z \/
        (Compare (UserKey (largest f)) "b" = 0%Z /\
         Trailer (largest f) <> InternalKeyRangeDeleteSentinel))).
Proof.
  exact (SeekGE_lands_on_candidate exSentinelNewIters exSentinelLevel "b"
           exSentinelLevel_ok (reachable_new exSentinelNewIters None _)).
Defined.

Lemma SeekLT_lands_on_candidate_witness :
  exists l' b,
    SeekLT exSentinelNewIters exSentinelLevel "b" = Ret (l', b) /\
    files l' = files exSentinelLevel /\
    (b = true ->
     (0 <= index l' <= findFileLT exSentinelLevel "b")%Z /\
     exists f,
       nth_error (files exSentinelLevel) (Z.to_nat (index l')) = Some f /\
       (Compare (UserKey (smallest f)) "b" < 0)%Z).
Proof.
  exact (SeekLT_lands_on_candidate exSentinelNewIters exSentinelLevel "b"
           exSentinelLevel_ok (reachable_new exSentinelNewIters None _)).
Defined.

(** The two files of [exNew] under the lower bound [d]: file 1 ends at
    [c], below the bound. *)
Definition exBounded : levelIter sliceIter :=
  newLevelIter (Some {| LowerBound := Some "d"; UpperBound := None |})
               [exFile1; exFile2].

Definition exBoundedLoaded : levelIter sliceIter :=
  after (loadFile exNewIters exBounded 0 1) exBounded.

Lemma loadFile_opens_within_bounds_witness :
  index exBoundedLoaded = 1%Z /\
  boundary exBoundedLoaded = None /\
  exists f r,
    file_at exBounded (index exBoundedLoaded) = Ret f /\
    in_bounds (opts exBounded) f /\
    exNewIters f (opts exBounded) = (iter exBoundedLoaded, r, None) /\
    isSome (iter exBoundedLoaded) = true /\
    err exBoundedLoaded = None.
Proof.
  split; [vm_compute; reflexivity |].
  exact (loadFile_opens_within_bounds (C := DefaultComparer) exNewIters exBounded
           exBoundedLoaded 0 1
           ltac:(cbn; lia) ltac:(vm_compute; reflexivity)).
Defined.

(** File 1 again, now starting at the tombstone [a-c#9]: its smallest key
    is a RANGEDEL key. *)
Definition exFile1R : fileMetadata :=
  {| fileNum := 1;
     smallest := MakeInternalKey "a" 9 InternalKeyKindRangeDelete;
     largest := MakeInternalKey "c" 9 InternalKeyKindRangeDelete |}.

Definition exNewR : levelIter sliceIter :=
  initRangeDel (newLevelIter None [exFile1R; exFile2]) (Some None).

(** After [First]: on [a#1], the first point of file 1. *)
Definition exOnA : levelIter sliceIter := after (First exNewIters exNewR) exNewR.

Definition exIterOnA : sliceIter :=
  fst (slice_at (sliceOf [ (MakeInternalKey "a" 1 InternalKeyKindSet, "1");
                           (MakeInternalKey "b" 2 InternalKeyKindSet, "2") ] []) 0).

Lemma boundary_materialization_backward_witness :
  exists l',
    Prev exNewIters exOnA = Ret (l', true) /\
    boundary l' = Some (smallest exFile1R) /\
    iter l' = None /\
    Key l' = MakeInternalKey "a" 9 InternalKeyKindRangeDelete /\
    Value l' = None /\
    exists l'' b, Prev exNewIters l' = Ret (l'', b) /\ (index l'' < index l')%Z.
Proof.
  destruct (boundary_materialization_backward exNewIters exOnA
              exIterOnA (fst (iPrev exIterOnA))
              (Some (sliceOf [ (MakeInternalKey "b" 3 InternalKeyKindRangeDelete, "c") ] []))
              exFile1R)
    as (l' & H1 & H2 & H3 & _ & _ & _ & H7 & H8 & l'' & b & H9 & H10 & _).
  - vm_compute; reflexivity.
  - vm_compute; reflexivity.
  - vm_compute; reflexivity.
  - vm_compute; reflexivity.
  - vm_compute; reflexivity.
  - vm_compute; reflexivity.
  - vm_compute; reflexivity.
  - exists l'. repeat split; auto. exists l'', b. auto.
Defined.

Lemma methods_return_witness :
  exists l', run_op exNewIters (OpSeekLT "c") exOnB = Ret l'.
Proof.
  exact (methods_return exNewIters exOnB (OpSeekLT "c") exOnB_reachable).
Defined.

Lemma Next_Prev_keep_direction_witness :
  (exists l' b, Next exNewIters exOnB = Ret (l', b) /\
                files l' = files exOnB /\ (index exOnB <= index l')%Z) /\
  (exists l' b, Prev exNewIters exOnB = Ret (l', b) /\
                files l' = files exOnB /\ (index l' <= index exOnB)%Z).
Proof.
  exact (Next_Prev_keep_direction exNewIters exOnB exOnB_reachable).
Defined.
